(** * Smith-Waterman local aligner: a shallow embedding of [src/Aligner.ts]

    The development follows the class [Aligner]: the scoring loop that fills
    the interleaved [permutations] buffer, the traceback loop that walks the
    stored predecessor indices, and the statistics object assembled before
    the record list is reversed.

    Numbers are integers ([Z]).  The buffer is a [Float32Array]: every
    write converts the value to binary32 ([fround]), so an integer above
    2^24 is stored rounded to 24 significant bits, and a read outside the
    array gives [undefined] ([None]).  The variables of the two loops
    ([maxScore], [maxIndex], [next], the coordinates) are ordinary numbers
    and hold integers exactly. *)

From Stdlib Require Import ZArith QArith Lia List Ascii String.
From stdpp Require Import base tactics option list numbers strings.

Local Open Scope Z_scope.

(** ** Data model *)

(** [enum Result], in declaration order. *)
Inductive Result : Type :=
  | NO_MATCH
  | B_NOMATCH
  | A_NOMATCH
  | GOOD_MATCH.

(** [type ResidueResult]. *)
Record ResidueResult : Type := mkResidue {
  iA : Z;
  iB : Z;
  res : Result
}.

(** [type Sequence]. *)
Record Sequence : Type := mkSequence {
  name : string;
  sequence : string
}.

(** [type SequenceStats]; the field [end] is spelled [end_]. *)
Record SequenceStats : Type := mkSequenceStats {
  stats_name : string;
  stats_length : Z;
  start : Z;
  end_ : Z
}.

(** [type AlignmentStats]; the quotient [matches/result.length] is kept as
    a rational. *)
Record AlignmentStats : Type := mkAlignmentStats {
  permutations : Z;
  alignmentLength : Z;
  alignmentMatchPercent : Q;
  sequence1 : SequenceStats;
  sequence2 : SequenceStats
}.

(** ** Strings and the numeric buffer *)

(** [s.length]. *)
Definition strlen (s : string) : Z := Z.of_nat (String.length s).

(** [s[i]]: the character at index [i], [None] (undefined) out of range. *)
Definition char_at (s : string) (i : Z) : option ascii :=
  if i <? 0 then None else String.get (Z.to_nat i) s.

(** [a == b] on two indexed characters. *)
Definition same_residue (a b : option ascii) : bool := bool_decide (a = b).

(** The conversion a [Float32Array] applies to a stored integer: the
    nearest binary32 value, ties to the even significand.  An integer of
    magnitude below 2^24 is kept; above, its 24 leading bits are kept and
    the rest is rounded.  (Binary32 overflows to Infinity from 2^128 on; no
    value written by [analize] comes near, and the overflow is left out.) *)
Definition fround (v : Z) : Z :=
  let a := Z.abs v in
  if a <? 2 ^ 24 then v
  else
    let e := Z.log2 a - 23 in
    let q := a / 2 ^ e in
    let r := a mod 2 ^ e in
    let half := 2 ^ (e - 1) in
    let q' := if (half <? r) || ((r =? half) && Z.odd q) then q + 1 else q in
    Z.sgn v * (q' * 2 ^ e).

(** [new Float32Array(n)]. *)
Definition new_buffer (n : Z) : list Z := replicate (Z.to_nat n) 0.

(** [buf[i]]: the stored value, [None] (undefined) outside the array. *)
Definition buf_at (buf : list Z) (i : Z) : option Z :=
  if i <? 0 then None else buf !! Z.to_nat i.

(** [buf[i]] used as a number.  The scoring loop reads only inside the
    array (lemma [fill_reads_in_range]), where this is the stored value. *)
Definition buf_get (buf : list Z) (i : Z) : Z := default 0 (buf_at buf i).

(** [buf[i] = v]: the value is converted to binary32; a typed array ignores
    a write outside its bounds. *)
Definition buf_set (buf : list Z) (i v : Z) : list Z :=
  if i <? 0 then buf else <[Z.to_nat i := fround v]> buf.

(** ** Constants of [analize] *)

Definition matchReward : Z := 1.
Definition mismatchPenalty : Z := - matchReward.
Definition gapPenalty : Z := 1.
Definition channels : Z := 2.

(** ** The scoring loop *)

(** The variables the scoring loop updates. *)
Record FillState : Type := mkFill {
  f_permutations : list Z;
  maxScore : Z;
  maxIndex : Z
}.

Section Scoring.

Variables s1 s2 : string.

Definition W : Z := strlen s1 + 1.
Definition H : Z := strlen s2 + 1.
Definition permutationsTotal : Z := W * H.

Definition permScore (x y : Z) : Z :=
  if same_residue (char_at s1 (x - 1)) (char_at s2 (y - 1))
  then matchReward else mismatchPenalty.

(** The three neighbours of the cell at column [x], row [y]. *)
Definition iD (x y : Z) : Z := (x - 1) + (y - 1) * W.
Definition iL (x y : Z) : Z := (x - 1) + y * W.
Definition iT (x y : Z) : Z := x + (y - 1) * W.

Definition myScore (p : list Z) (x y : Z) : Z :=
  buf_get p (iD x y * channels) + permScore x y.
Definition lScore (p : list Z) (x y : Z) : Z :=
  buf_get p (iL x y * channels) - gapPenalty.
Definition tScore (p : list Z) (x y : Z) : Z :=
  buf_get p (iT x y * channels) - gapPenalty.

(** [Math.max(myScore, lScore, tScore, 0)]. *)
Definition cellScore (p : list Z) (x y : Z) : Z :=
  Z.max (Z.max (Z.max (myScore p x y) (lScore p x y)) (tScore p x y)) 0.

(** The [if / else if / else if] cascade that picks [nextIndex]. *)
Definition cellNext (p : list Z) (x y : Z) : Z :=
  let score := cellScore p x y in
  if myScore p x y =? score then iD x y
  else if score =? lScore p x y then iL x y
  else if score =? tScore p x y then iT x y
  else 0.

(** One iteration of [for (let i = 0; i < permutationsTotal; i++)]. *)
Definition fill_step (st : FillState) (i : Z) : FillState :=
  let x := i mod W in
  let y := i / W in
  if (y =? 0) || (x =? 0) then st
  else
    let p := f_permutations st in
    let score := cellScore p x y in
    let nextIndex := cellNext p x y in
    let bigger := maxScore st <? score in
    mkFill
      (buf_set (buf_set p (i * channels) score) (i * channels + 1) nextIndex)
      (if bigger then score else maxScore st)
      (if bigger then i else maxIndex st).

Definition fill_init : FillState :=
  mkFill (new_buffer (permutationsTotal * channels)) 0 0.

(** The loop after its first [k] iterations. *)
Definition fill_upto (k : nat) : FillState :=
  fold_left fill_step (map Z.of_nat (seq 0 k)) fill_init.

(** The loop run to completion. *)
Definition fill : FillState := fill_upto (Z.to_nat permutationsTotal).

(** ** The traceback loop *)

(** The variables the traceback loop updates; [next] is a number or
    [undefined]. *)
Record TraceState : Type := mkTrace {
  next : option Z;
  result : list ResidueResult;
  t_iA : Z;
  t_iB : Z;
  gaps : Z;
  matches : Z
}.

Definition trace_init (fs : FillState) : TraceState :=
  mkTrace (Some (maxIndex fs)) [] 0 0 0 0.

(** The [break] test at the top of [while (true)]:
    [!next || next == 0 || permutations[next * channels] <= 0].  An
    undefined [next] is falsy; an undefined cell compares false with 0. *)
Definition trace_done (p : list Z) (st : TraceState) : bool :=
  match next st with
  | None => true
  | Some n =>
      (n =? 0) ||
      match buf_at p (n * channels) with
      | Some v => v <=? 0
      | None => false
      end
  end.

(** The body of the loop after the [break] test, where [next] is a
    number. *)
Definition trace_step (p : list Z) (st : TraceState) : TraceState :=
  match next st with
  | None => st
  | Some n =>
      let nextIndex := buf_at p (n * channels + 1) in
      let x := n mod W in
      let y := n / W in
      let _iA := x - 1 in
      let _iB := y - 1 in
      let A := char_at s1 _iA in
      let B := char_at s2 _iB in
      let '(res, gaps', matches') :=
        if negb (same_residue A B) then
          if t_iA st =? _iA then (B_NOMATCH, gaps st + 1, matches st)
          else if t_iB st =? _iB then (A_NOMATCH, gaps st + 1, matches st)
          else (NO_MATCH, gaps st, matches st)
        else (GOOD_MATCH, gaps st, matches st + 1) in
      mkTrace nextIndex
              (result st ++ [mkResidue _iA _iB res])
              _iA _iB gaps' matches'
  end.

(** [while (true) { ... }], bounded by [fuel] iterations; [None] when the
    bound is reached before the loop breaks. *)
Fixpoint trace_loop (fuel : nat) (p : list Z) (st : TraceState)
  : option TraceState :=
  match fuel with
  | O => None
  | S fuel' =>
      if trace_done p st then Some st
      else trace_loop fuel' p (trace_step p st)
  end.

(** The traceback from the maximal cell, bounded by one iteration per cell
    and the final test.  While the stored predecessors are exact the index
    strictly decreases and the bound is never reached
    ([traceback_total]). *)
Definition traceback : option TraceState :=
  trace_loop (S (Z.to_nat permutationsTotal)) (f_permutations fill)
             (trace_init fill).

End Scoring.

(** ** Statistics and the result of [analize] *)

(** How a call ends: it returns, or it throws. *)
Inductive JsError : Type :=
  | TypeError (reading : string).

Inductive Completion (A : Type) : Type :=
  | Return (v : A)
  | Throw (e : JsError).
Arguments Return {A} v.
Arguments Throw {A} e.

(** The object literal assigned to [this._stats].  Its fields are evaluated
    in order: on an empty [result] the quotient is 0/0 and the next field,
    [result[0].iA], throws, since [result[0]] is undefined; no statistics
    with that quotient are ever stored. *)
Definition make_stats (seq1 seq2 : Sequence) (st : TraceState)
  : Completion AlignmentStats :=
  match result st with
  | [] => Throw (TypeError "iA")
  | r0 :: _ =>
      let rl := List.last (result st) r0 in
      Return (mkAlignmentStats
        (permutationsTotal (sequence seq1) (sequence seq2))
        (Z.of_nat (length (result st)))
        (inject_Z (matches st) / inject_Z (Z.of_nat (length (result st))))%Q
        (mkSequenceStats (name seq1) (strlen (sequence seq1)) (iA rl) (iA r0))
        (mkSequenceStats (name seq2) (strlen (sequence seq2)) (iB rl) (iB r0)))
  end.

(** The instance fields left by the constructor. *)
Record Aligner : Type := mkAligner {
  alignment : list ResidueResult;
  a_sequence1 : Sequence;
  a_sequence2 : Sequence;
  stats : AlignmentStats
}.

(** [analize]: the stats are stored, then [result.reverse()] is returned.
    [None] when the traceback bound is reached. *)
Definition analize (seq1 seq2 : Sequence)
  : option (Completion (list ResidueResult * AlignmentStats)) :=
  match traceback (sequence seq1) (sequence seq2) with
  | None => None
  | Some st =>
      Some match make_stats seq1 seq2 st with
           | Throw e => Throw e
           | Return s => Return (rev (result st), s)
           end
  end.

(** The constructor, from the two parsed sequences. *)
Definition new_Aligner (seq1 seq2 : Sequence) : option (Completion Aligner) :=
  match analize seq1 seq2 with
  | None => None
  | Some (Throw e) => Some (Throw e)
  | Some (Return (al, s)) => Some (Return (mkAligner al seq1 seq2 s))
  end.

Definition seqOf (s : string) : Sequence := mkSequence "" s.

(** ** Reading the buffer by cell *)

(** Channel 0 of cell [i]: its score. *)
Definition score_at (p : list Z) (i : Z) : Z := buf_get p (i * channels).

(** Channel 1 of cell [i]: the index of its predecessor (0 for none). *)
Definition next_at (p : list Z) (i : Z) : Z := buf_get p (i * channels + 1).

(** ** Invariants of the two loops *)

(** The largest integer up to which every integer is a binary32 value. *)
Definition exact_max : Z := 2 ^ 24.

(** The grid is small enough for every cell index to be stored exactly. *)
Definition exact_grid (s1 s2 : string) : Prop :=
  permutationsTotal s1 s2 <= exact_max.

(** Cell [i] holds what the loop body stored in it: nothing for a cell of
    row 0 or column 0, the converted score and predecessor otherwise. *)
Definition cell_ok (s1 s2 : string) (p : list Z) (i : Z) : Prop :=
  let x := i mod W s1 in
  let y := i / W s1 in
  if (y =? 0) || (x =? 0)
  then score_at p i = 0 /\ next_at p i = 0
  else score_at p i = fround (cellScore s1 s2 p x y) /\
       next_at p i = fround (cellNext s1 s2 p x y).

(** Cell [i] lies off row 0 and column 0. *)
Definition interior (s1 : string) (i : Z) : Prop :=
  i mod W s1 <> 0 /\ i / W s1 <> 0.

(** The score the loop body computes at cell [i], before it is stored. *)
Definition computed (s1 s2 : string) (p : list Z) (i : Z) : Z :=
  cellScore s1 s2 p (i mod W s1) (i / W s1).

(** The state of the scoring loop before iteration [k]. *)
Record fill_inv (s1 s2 : string) (k : Z) (st : FillState) : Prop := {
  inv_length :
    Z.of_nat (length (f_permutations st)) = permutationsTotal s1 s2 * channels;
  inv_fresh : forall i, k <= i ->
    score_at (f_permutations st) i = 0 /\ next_at (f_permutations st) i = 0;
  inv_cells : forall i, 0 <= i < k -> cell_ok s1 s2 (f_permutations st) i;
  inv_stored : forall i, 0 <= score_at (f_permutations st) i <= exact_max;
  inv_max_nonneg : 0 <= maxScore st;
  inv_max_ub : forall i, 0 <= i < k -> interior s1 i ->
    computed s1 s2 (f_permutations st) i <= maxScore st;
  inv_max_at :
    (maxScore st = 0 /\ maxIndex st = 0) \/
    (0 < maxScore st /\ 0 <= maxIndex st < k /\ interior s1 (maxIndex st) /\
     computed s1 s2 (f_permutations st) (maxIndex st) = maxScore st);
  inv_max_first : forall i, 0 <= i < maxIndex st -> interior s1 i ->
    computed s1 s2 (f_permutations st) i < maxScore st
}.

(** The classification the loop body gives a step at residue indices [a],
    [b] when the step emitted before it left [pa], [pb] in [iA], [iB]. *)
Definition classify (s1 s2 : string) (pa pb a b : Z) : Result :=
  if same_residue (char_at s1 a) (char_at s2 b) then GOOD_MATCH
  else if pa =? a then B_NOMATCH
  else if pb =? b then A_NOMATCH
  else NO_MATCH.

Definition is_gap (r : Result) : bool :=
  match r with B_NOMATCH | A_NOMATCH => true | _ => false end.

Definition is_match (r : Result) : bool :=
  match r with GOOD_MATCH => true | _ => false end.

(** The cell a record was emitted from. *)
Definition cell_of (s1 : string) (r : ResidueResult) : Z :=
  (iA r + 1) + (iB r + 1) * W s1.

(** The values of [iA] and [iB] once the records [l] (latest first) have
    been emitted: those of the latest record, 0 before the first. *)
Definition prev_iA (l : list ResidueResult) : Z :=
  match l with [] => 0 | r :: _ => iA r end.
Definition prev_iB (l : list ResidueResult) : Z :=
  match l with [] => 0 | r :: _ => iB r end.

(** The records emitted so far, latest first (that is, head to tail), when
    the walk started at cell [start_cell]: each record lies inside both
    sequences on a cell of positive score, is classified against the record
    emitted before it, and sits on the predecessor of that record's cell. *)
Fixpoint trail (s1 s2 : string) (p : list Z) (start_cell : Z)
    (l : list ResidueResult) : Prop :=
  match l with
  | [] => True
  | r :: tl =>
      (0 <= iA r < strlen s1 /\ 0 <= iB r < strlen s2) /\
      0 < score_at p (cell_of s1 r) /\
      res r = classify s1 s2 (prev_iA tl) (prev_iB tl) (iA r) (iB r) /\
      cell_of s1 r = match tl with
                     | [] => start_cell
                     | r' :: _ => next_at p (cell_of s1 r')
                     end /\
      trail s1 s2 p start_cell tl
  end.

(** The number of records whose classification satisfies [f]. *)
Definition count_res (f : Result -> bool) (l : list ResidueResult) : Z :=
  Z.of_nat (length (List.filter (fun r => f (res r)) l)).

(** The records emitted so far, latest first: each is classified against
    the record emitted before it. *)
Fixpoint classified (s1 s2 : string) (l : list ResidueResult) : Prop :=
  match l with
  | [] => True
  | r :: tl =>
      res r = classify s1 s2 (prev_iA tl) (prev_iB tl) (iA r) (iB r) /\
      classified s1 s2 tl
  end.

(** What every iteration of the traceback keeps, whatever the buffer
    holds: the walk starts on cell [start_cell], the records are classified
    in turn, and the counters count them. *)
Record trace_local (s1 s2 : string) (start_cell : Z) (st : TraceState)
    : Prop := {
  tl_start : result st = [] -> next st = Some start_cell;
  tl_first : forall z, head (result st) = Some z ->
    iA z = start_cell mod W s1 - 1 /\ iB z = start_cell / W s1 - 1;
  tl_class : classified s1 s2 (rev (result st));
  tl_iA : t_iA st = prev_iA (rev (result st));
  tl_iB : t_iB st = prev_iB (rev (result st));
  tl_gaps : gaps st = count_res is_gap (result st);
  tl_matches : matches st = count_res is_match (result st)
}.

(** The state of the traceback loop at the top of an iteration, while the
    stored predecessors are exact. *)
Record trace_inv (s1 s2 : string) (p : list Z) (start_cell : Z)
    (st : TraceState) : Prop := {
  tinv_next : next st = Some match rev (result st) with
                             | [] => start_cell
                             | r :: _ => next_at p (cell_of s1 r)
                             end;
  tinv_next_range : forall n, next st = Some n ->
    0 <= n < permutationsTotal s1 s2;
  tinv_trail : trail s1 s2 p start_cell (rev (result st));
  tinv_iA : t_iA st = prev_iA (rev (result st));
  tinv_iB : t_iB st = prev_iB (rev (result st));
  tinv_gaps : gaps st = count_res is_gap (result st);
  tinv_matches : matches st = count_res is_match (result st)
}.

(** The linear index of the cell at column [x], row [y]: the inverse of
    [x = i % W], [y = Math.floor(i / W)]. *)
Definition cell_index (s1 : string) (x y : Z) : Z := x + y * W s1.

(** Record [r'] follows record [r] in a head-to-tail alignment: one index
    or both advance by exactly one. *)
Definition advances (r r' : ResidueResult) : Prop :=
  (iA r' = iA r + 1 /\ iB r' = iB r + 1) \/
  (iA r' = iA r + 1 /\ iB r' = iB r) \/
  (iA r' = iA r /\ iB r' = iB r + 1).

(** The two residues a record pairs are equal. *)
Definition pairs_equal (s1 s2 : string) (r : ResidueResult) : Prop :=
  char_at s1 (iA r) = char_at s2 (iB r).

(** Whether a call ended by throwing. *)
Definition throws {A : Type} (c : option (Completion A)) : bool :=
  match c with Some (Throw _) => true | _ => false end.

(** Index [i] lies inside the buffer [p]. *)
Definition in_buffer (p : list Z) (i : Z) : Prop :=
  0 <= i < Z.of_nat (length p).

(** ** [parseFasta]

    A string is a sequence of code units below 256. *)

Definition LF : ascii := "010"%char.
Definition CR : ascii := "013"%char.

(** The code units [String.prototype.trim] strips: TAB, LF, VT, FF, CR,
    SP and NBSP. *)
Definition is_space (c : ascii) : bool :=
  existsb (Ascii.eqb c)
    ["009"; "010"; "011"; "012"; "013"; "032"; "160"]%char.

Fixpoint trim_start (s : string) : string :=
  match s with
  | EmptyString => EmptyString
  | String c r => if is_space c then trim_start r else s
  end.

Fixpoint trim_end (s : string) : string :=
  match s with
  | EmptyString => EmptyString
  | String c r =>
      match trim_end r with
      | EmptyString => if is_space c then EmptyString else String c EmptyString
      | r' => String c r'
      end
  end.

(** [line.trim()]. *)
Definition trim (s : string) : string := trim_end (trim_start s).

(** [line.startsWith('>')]. *)
Definition is_header (line : string) : bool :=
  match line with
  | String c _ => Ascii.eqb c ">"
  | EmptyString => false
  end.

(** [!line] and [sequence.length > 0] on strings. *)
Definition is_empty (s : string) : bool :=
  match s with EmptyString => true | _ => false end.

(** Puts [c] in front of the first line of [ls]. *)
Definition push_char (c : ascii) (ls : list string) : list string :=
  match ls with
  | l :: r => String c l :: r
  | [] => [String c EmptyString]
  end.

(** [fasta.split(/\r?\n/)]: a line ends at LF, or at CR followed by LF;
    any other CR stays in its line. *)
Fixpoint split_lines (s : string) : list string :=
  match s with
  | EmptyString => [EmptyString]
  | String c rest =>
      if Ascii.eqb c LF then EmptyString :: split_lines rest
      else
        match rest with
        | String c2 rest2 =>
            if Ascii.eqb c CR && Ascii.eqb c2 LF
            then EmptyString :: split_lines rest2
            else push_char c (split_lines rest)
        | EmptyString => push_char c (split_lines rest)
        end
  end.

(** The [for] loop of [parseFasta] over the remaining lines, with the
    values of [sequence] and [name] so far. *)
Fixpoint parse_lines (lines : list string) (sequence name : string)
  : Sequence :=
  match lines with
  | [] => mkSequence name sequence
  | raw :: rest =>
      let line := trim raw in
      if is_empty line then parse_lines rest sequence name
      else if is_header line then
        if negb (is_empty sequence) then mkSequence line sequence
        else parse_lines rest sequence line
      else parse_lines rest (sequence ++ line)%string name
  end.

Definition parseFasta (fasta : string) : Sequence :=
  parse_lines (split_lines fasta) EmptyString EmptyString.

(** [new Aligner(fasta1, fasta2)]. *)
Definition Aligner_new (fasta1 fasta2 : string) : option (Completion Aligner) :=
  new_Aligner (parseFasta fasta1) (parseFasta fasta2).

(** [get maxSequenceLength]. *)
Definition maxSequenceLength (a : Aligner) : Z :=
  Z.max (strlen (sequence (a_sequence1 a))) (strlen (sequence (a_sequence2 a))).

(** ** Text for the statements about [parseFasta] *)

(** [lines.join(sep)]. *)
Fixpoint join_lines (sep : string) (ls : list string) : string :=
  match ls with
  | [] => EmptyString
  | [l] => l
  | l :: rest => (l ++ sep ++ join_lines sep rest)%string
  end.

(** [c] occurs in [s]. *)
Fixpoint has_char (c : ascii) (s : string) : bool :=
  match s with
  | EmptyString => false
  | String d r => Ascii.eqb d c || has_char c r
  end.

(** A line as a FASTA writer emits it: no line feed inside and no white
    space at either end. *)
Definition clean_line (l : string) : Prop :=
  has_char LF l = false /\ trim l = l.

(** The two line separators [split] recognises. *)
Definition is_separator (sep : string) : Prop :=
  sep = String LF EmptyString \/ sep = String CR (String LF EmptyString).

(** [ls.join("")]. *)
Definition concat_lines (ls : list string) : string :=
  fold_right String.append EmptyString ls.

(** [s] ends with a character [trim] strips. *)
Fixpoint last_space (s : string) : bool :=
  match s with
  | EmptyString => false
  | String c r =>
      match r with
      | EmptyString => is_space c
      | _ => last_space r
      end
  end.

(** The two residue strings have a residue in common. *)
Definition common_residue (s1 s2 : string) : Prop :=
  exists i j, 0 <= i < strlen s1 /\ 0 <= j < strlen s2 /\
              char_at s1 i = char_at s2 j.

(** The records of an ungapped, all-matching stretch: residue [k] of A
    against residue [k] of B, for [len] residues from [k] on. *)
Definition diagonal_records (k len : Z) : list ResidueResult :=
  (fun i => mkResidue i i GOOD_MATCH) <$> seqZ k len.

(** ** The integer part of [Strand] ([DNAAlignmentVisualizer2.tsx])

    The constructor of [Strand] lays one particle per loop iteration.  The
    angles, positions, sizes and the HSL colour arithmetic are floating
    point and stay outside; what is modelled is everything the loop decides
    with integers: the counts, the two running indices, and for each
    particle the colour handed to [color.set], the two constants handed to
    [color.offsetHSL] and the flag handed to [addCirclePosition]. *)

(** [dnaColorMap], in source order. *)
Definition dnaColorMap : list (ascii * Z) :=
  [("A", 0xff5555); ("T", 0x55ff55); ("C", 0x5555ff); ("G", 0xffff55);
   ("R", 0xffaa00); ("Y", 0xaa00ff); ("K", 0x00aaff); ("M", 0xff00aa);
   ("S", 0x00ffaa); ("W", 0xaaff00); ("B", 0xaaaaaa); ("D", 0xbb8844);
   ("H", 0xcc66cc); ("V", 0x66cc99); ("N", 0x888888)]%char.

(** [dnaColorMap[letter] ?? 0]; [letter] is undefined when the index read
    lies outside the sequence. *)
Definition letterToColor (letter : option ascii) : Z :=
  match letter with
  | Some c =>
      match List.find (fun kv => Ascii.eqb (fst kv) c) dnaColorMap with
      | Some kv => snd kv
      | None => 0
      end
  | None => 0
  end.

Definition NoMatchColor : Z := 0xd62828.
Definition MatchColor : Z := 0x06d6a0.

(** [arr[i]] on an array, undefined outside it. *)
Definition array_get {A : Type} (arr : list A) (i : Z) : option A :=
  if i <? 0 then None else arr !! Z.to_nat i.

(** What one iteration of the loop fixes for its particle. *)
Record Particle : Type := mkParticle {
  residueColor : Z;
  colorMult : Q;
  brightness : Q;
  resiudeMatches : bool
}.

(** What the constructor computes besides the particles: [gaps],
    [numParticles], [myParticlesCount], and the whole number that
    multiplies [stepAng] in the first value of [ang]. *)
Record StrandData : Type := mkStrandData {
  strand_gaps : Z;
  numParticles : Z;
  myParticlesCount : Z;
  angSteps : Z;
  particles : list Particle
}.

(** How the constructor ends: [head.iA] of an empty alignment is a
    TypeError, a negative typed-array length a RangeError. *)
Inductive StrandOutcome : Type :=
  | StrandBuilt (d : StrandData)
  | StrandTypeError (reading : string)
  | StrandRangeError.

Section Strand.

Variable aligner : Aligner.
Variable imA : bool.

Definition mySequence : string :=
  if imA then sequence (a_sequence1 aligner) else sequence (a_sequence2 aligner).

(** [imA ? r.iA : r.iB]. *)
Definition own (r : ResidueResult) : Z := if imA then iA r else iB r.

(** The [switch] on [permutation.res]: the colour and the match flag. *)
Definition switch_color (r : Result) : Z * bool :=
  match r with
  | NO_MATCH => (NoMatchColor, false)
  | A_NOMATCH => (if imA then NoMatchColor else 0, false)
  | B_NOMATCH => (if imA then 0 else NoMatchColor, false)
  | GOOD_MATCH => (MatchColor, true)
  end.

(** One iteration of the [for] loop, on [alignmentIndex] and
    [sequenceIndex]. *)
Definition strand_step (matchStartAt matchEndsAt : Z) (st : Z * Z)
  : Particle * (Z * Z) :=
  let '(alignmentIndex, sequenceIndex) := st in
  let letterColor := char_at mySequence sequenceIndex in
  let residueColor := letterToColor letterColor in
  let inAlignmentRange :=
    (matchStartAt <? sequenceIndex) && (sequenceIndex <? matchEndsAt) in
  let sequenceIndex := sequenceIndex + 1 in
  if inAlignmentRange then
    let alignmentIndex := alignmentIndex + 1 in
    match array_get (alignment aligner) alignmentIndex with
    | Some permutation =>
        let '(c, m) := switch_color (res permutation) in
        (mkParticle c 4 (12 # 10) m, (alignmentIndex, own permutation))
    | None =>
        (mkParticle residueColor 4 (12 # 10) false,
         (alignmentIndex, sequenceIndex))
    end
  else
    (mkParticle residueColor (- 3 # 10) (6 # 10) false,
     (alignmentIndex, sequenceIndex)).

(** [count] iterations of the loop from the state [st]. *)
Fixpoint strand_loop (matchStartAt matchEndsAt : Z) (count : nat)
    (st : Z * Z) : list Particle :=
  match count with
  | O => []
  | S count' =>
      let '(p, st') := strand_step matchStartAt matchEndsAt st in
      p :: strand_loop matchStartAt matchEndsAt count' st'
  end.

(** [==] on two [Result] values. *)
Definition Result_eqb (a b : Result) : bool :=
  match a, b with
  | NO_MATCH, NO_MATCH | B_NOMATCH, B_NOMATCH
  | A_NOMATCH, A_NOMATCH | GOOD_MATCH, GOOD_MATCH => true
  | _, _ => false
  end.

(** The [reduce] that counts the gap records. *)
Definition reduce_gaps (al : list ResidueResult) : Z :=
  fold_left
    (fun total permutation =>
       let gap := Result_eqb (res permutation) A_NOMATCH
                  || Result_eqb (res permutation) B_NOMATCH in
       total + (if gap then 1 else 0))
    al 0.

(** [new Strand(aligner, imA, ratio)]. *)
Definition Strand_new : StrandOutcome :=
  let longest :=
    Z.max (strlen (sequence (a_sequence1 aligner)))
          (strlen (sequence (a_sequence2 aligner))) in
  let imTheLongest :=
    if imA then strlen (sequence (a_sequence1 aligner)) =? longest
    else strlen (sequence (a_sequence2 aligner)) =? longest in
  match head (alignment aligner), last (alignment aligner) with
  | Some hd, Some tail =>
      let matchStartAt := own hd - 1 in
      let matchEndsAt := own tail + 1 in
      let gaps := reduce_gaps (alignment aligner) in
      let numParticles := longest + gaps in
      let myParticlesCount :=
        own hd + Z.of_nat (length (alignment aligner))
        + (strlen mySequence - own tail) in
      let angSteps :=
        if imTheLongest then 0
        else if imA then iB hd - iA hd else iA hd - iB hd in
      if myParticlesCount <? 0 then StrandRangeError
      else
        StrandBuilt
          (mkStrandData gaps numParticles myParticlesCount angSteps
             (strand_loop matchStartAt matchEndsAt
                (Z.to_nat myParticlesCount) (-1, 0)))
  | _, _ => StrandTypeError (if imA then "iA" else "iB")
  end.

End Strand.

(** How [new Alignment(dataSequence1, dataSequence2)] ends. *)
Inductive AlignmentOutcome : Type :=
  | AlignmentBuilt (a : Aligner) (strand1 strand2 : StrandData)
  | AlignerThrew (e : JsError)
  | StrandThrew (o : StrandOutcome).

(** [new Alignment(...)]: the aligner, then the strand of sequence 1, then
    the strand of sequence 2. *)
Definition Alignment_new (dataSequence1 dataSequence2 : string)
  : option AlignmentOutcome :=
  match Aligner_new dataSequence1 dataSequence2 with
  | None => None
  | Some (Throw e) => Some (AlignerThrew e)
  | Some (Return a) =>
      Some match Strand_new a true with
           | StrandBuilt d1 =>
               match Strand_new a false with
               | StrandBuilt d2 => AlignmentBuilt a d1 d2
               | o => StrandThrew o
               end
           | o => StrandThrew o
           end
  end.

(** ** Particles, for the statements about [Strand] *)

(** The particle of a residue outside the alignment ([bright = false]) or
    inside it ([bright = true]): the colour of its letter. *)
Definition letter_particle (s : string) (bright : bool) (j : Z) : Particle :=
  if bright
  then mkParticle (letterToColor (char_at s j)) 4 (12 # 10) false
  else mkParticle (letterToColor (char_at s j)) (- 3 # 10) (6 # 10) false.

(** The particle of an alignment record. *)
Definition record_particle (imA : bool) (r : ResidueResult) : Particle :=
  mkParticle (fst (switch_color imA (res r))) 4 (12 # 10)
             (snd (switch_color imA (res r))).

(** The number of records that keep the index [f] of the record before. *)
Fixpoint stalls (f : ResidueResult -> Z) (l : list ResidueResult) : Z :=
  match l with
  | r :: tl =>
      match tl with
      | r' :: _ => (if f r =? f r' then 1 else 0) + stalls f tl
      | [] => 0
      end
  | [] => 0
  end.


(** ** Long inputs, for the statements about stored indices above 2^24 *)

(** The string of [k] characters [c]. *)
Definition repeated (c : ascii) (k : positive) : string :=
  Pos.iter (String c) EmptyString k.

(** A [k]-residue run of the unknown base N followed by the residues
    [tail]. *)
Definition after_unknown (k : positive) (tail : string) : string :=
  (repeated "N" k ++ tail)%string.

(** A pair on which a rounded predecessor makes the traceback skip a
    residue: AAGC against 3355442 unknown bases followed by AG.  The grid
    has 5 x 3355445 = 16777225 cells. *)
Definition skip_A : string := "AAGC".
Definition skip_B : string := after_unknown 3355442 "AG".

(** A pair on which a rounded predecessor makes the traceback stop on a
    mismatch: ACGT against 3355441 unknown bases followed by ACNGT.  The
    grid has 5 x 3355447 = 16777235 cells. *)
Definition stop_A : string := "ACGT".
Definition stop_B : string := after_unknown 3355441 "ACNGT".

(** * The binary32 conversion *)

Lemma exact_max_eq : exact_max = 16777216.
Proof. reflexivity. Qed.

(** An integer of magnitude below 2^24 is stored as it is. *)
Lemma fround_small v : - exact_max < v < exact_max -> fround v = v.
Proof.
  rewrite exact_max_eq. intros Hv. unfold fround.
  change (2 ^ 24) with 16777216.
  destruct (Z.ltb_spec (Z.abs v) 16777216); [done|lia].
Qed.

(** So is every integer from 0 to 2^24. *)
Lemma fround_exact v : 0 <= v <= exact_max -> fround v = v.
Proof.
  intros Hv. destruct (decide (v = exact_max)) as [->|]; [reflexivity|].
  apply fround_small. rewrite exact_max_eq in *. lia.
Qed.

(** 2^24 + 1 is stored as 2^24: a stored score never exceeds 2^24. *)
Lemma fround_cap v :
  0 <= v <= exact_max + 1 ->
  0 <= fround v <= exact_max /\ fround v <= v /\ (0 < v -> 0 < fround v).
Proof.
  intros Hv. destruct (decide (v = exact_max + 1)) as [->|].
  - vm_compute. repeat split; congruence.
  - rewrite fround_exact by lia. lia.
Qed.

(** Between 2^24 and 2^25 only the even integers are binary32 values: an
    odd one is stored as its neighbour that is a multiple of 4. *)
Lemma fround_above :
  fround 16777217 = 16777216 /\ fround 16777218 = 16777218 /\
  fround 16777219 = 16777220 /\ fround 33554434 = 33554432.
Proof. repeat split; reflexivity. Qed.

(** A non-negative integer is stored as a non-negative integer. *)
Lemma fround_nonneg v : 0 <= v -> 0 <= fround v.
Proof.
  intros Hv. unfold fround.
  destruct (Z.ltb_spec (Z.abs v) (2 ^ 24)); [done|].
  assert (0 < v) as Hpos by (change (2 ^ 24) with 16777216 in *; lia).
  rewrite Z.sgn_pos by done. rewrite Z.abs_eq by done.
  set (e := Z.log2 v - 23).
  assert (0 <= 2 ^ e) as He by (apply Z.pow_nonneg; lia).
  assert (0 <= v / 2 ^ e) as Hq.
  { destruct (decide (2 ^ e = 0)) as [->|]; [by rewrite Z.div_0_r|].
    apply Z.div_pos; lia. }
  destruct (_ || _); nia.
Qed.

(** * Buffer lemmas *)

Lemma buf_get_new n i : buf_get (new_buffer n) i = 0.
Proof.
  unfold buf_get, buf_at, new_buffer. destruct (i <? 0); [done|].
  destruct (replicate (Z.to_nat n) 0 !! Z.to_nat i) eqn:E; [|done].
  apply lookup_replicate in E as [-> _]. done.
Qed.

Lemma buf_set_length p i v : length (buf_set p i v) = length p.
Proof. unfold buf_set. destruct (i <? 0); [done|]. apply length_insert. Qed.

Lemma buf_get_set_eq p i v :
  0 <= i < Z.of_nat (length p) -> buf_get (buf_set p i v) i = fround v.
Proof.
  intros Hi. unfold buf_get, buf_at, buf_set.
  destruct (Z.ltb_spec i 0); [lia|].
  rewrite list_lookup_insert_eq; [done|lia].
Qed.

Lemma buf_get_set_ne p i j v : i <> j -> buf_get (buf_set p i v) j = buf_get p j.
Proof.
  intros Hne. unfold buf_get, buf_at, buf_set.
  destruct (Z.ltb_spec j 0); [done|].
  destruct (Z.ltb_spec i 0); [done|].
  rewrite list_lookup_insert_ne; [done|lia].
Qed.

(** Inside the array a read gives the stored number. *)
Lemma buf_at_in_range p i :
  0 <= i < Z.of_nat (length p) -> buf_at p i = Some (buf_get p i).
Proof.
  intros Hi. unfold buf_get, buf_at.
  destruct (Z.ltb_spec i 0); [lia|].
  destruct (p !! Z.to_nat i) eqn:E; [done|].
  apply lookup_ge_None in E. lia.
Qed.

(** Outside, it is undefined. *)
Lemma buf_at_outside p i :
  i < 0 \/ Z.of_nat (length p) <= i -> buf_at p i = None.
Proof.
  intros Hi. unfold buf_at.
  destruct (Z.ltb_spec i 0); [done|].
  apply lookup_ge_None. lia.
Qed.

(** * Cell coordinates *)

Section Coordinates.

Variable w : Z.
Hypothesis w_pos : 0 < w.

Lemma coord_split i : i = i mod w + i / w * w.
Proof. pose proof (Z.div_mod i w). lia. Qed.

Lemma coord_x_range i : 0 <= i mod w < w.
Proof. apply Z.mod_pos_bound. lia. Qed.

Lemma coord_y_nonneg i : 0 <= i -> 0 <= i / w.
Proof. intros. apply Z.div_pos; lia. Qed.

Lemma coord_y_range i h : 0 <= i < w * h -> 0 <= i / w < h.
Proof.
  intros [H0 H1]. split; [apply Z.div_pos; lia|].
  apply Z.div_lt_upper_bound; lia.
Qed.

Lemma coord_x_of x y : 0 <= x < w -> (x + y * w) mod w = x.
Proof. intros. rewrite Z.mod_add by lia. apply Z.mod_small. lia. Qed.

Lemma coord_y_of x y : 0 <= x < w -> (x + y * w) / w = y.
Proof. intros. rewrite Z.div_add by lia. rewrite Z.div_small by lia. lia. Qed.

Lemma coord_index_range x y h : 0 <= x < w -> 0 <= y < h -> 0 <= x + y * w < w * h.
Proof. intros. nia. Qed.

End Coordinates.

(** * The scoring loop *)

Lemma W_pos s : 0 < W s.
Proof. unfold W, strlen. lia. Qed.

Lemma H_pos s : 0 < H s.
Proof. unfold H, strlen. lia. Qed.

Lemma permutationsTotal_pos s1 s2 : 0 < permutationsTotal s1 s2.
Proof. unfold permutationsTotal. pose proof (W_pos s1). pose proof (H_pos s2). nia. Qed.

(** The neighbours of an interior cell, as offsets of its own index. *)
Lemma neighbours s i :
  i mod W s <> 0 -> i / W s <> 0 -> 0 <= i ->
  iD s (i mod W s) (i / W s) = i - W s - 1 /\
  iL s (i mod W s) (i / W s) = i - 1 /\
  iT s (i mod W s) (i / W s) = i - W s /\
  0 <= i - W s - 1.
Proof.
  intros Hx Hy Hi. pose proof (W_pos s) as HW.
  pose proof (coord_split (W s) HW i) as Hs.
  pose proof (coord_x_range (W s) HW i) as Hxr.
  pose proof (coord_y_nonneg (W s) HW i Hi) as Hyr.
  unfold iD, iL, iT. nia.
Qed.

Lemma interior_cases s i :
  (i / W s =? 0) || (i mod W s =? 0) = false ->
  i mod W s <> 0 /\ i / W s <> 0.
Proof. intros Hb. apply orb_false_iff in Hb as [?%Z.eqb_neq ?%Z.eqb_neq]. done. Qed.

Lemma interior_test s i :
  interior s i -> (i / W s =? 0) || (i mod W s =? 0) = false.
Proof. intros [Hx Hy]. apply orb_false_iff. split; apply Z.eqb_neq; done. Qed.

(** The body's score and predecessor read only cells below the current one. *)
Lemma cell_values_agree s1 s2 p p' i :
  0 <= i -> i mod W s1 <> 0 -> i / W s1 <> 0 ->
  (forall j, j < i * channels -> buf_get p' j = buf_get p j) ->
  cellScore s1 s2 p' (i mod W s1) (i / W s1) = cellScore s1 s2 p (i mod W s1) (i / W s1) /\
  cellNext s1 s2 p' (i mod W s1) (i / W s1) = cellNext s1 s2 p (i mod W s1) (i / W s1).
Proof.
  intros Hi Hx Hy Hag.
  destruct (neighbours s1 i Hx Hy Hi) as (HD & HL & HT & Hlow).
  pose proof (W_pos s1) as HW.
  assert (Hm : myScore s1 s2 p' (i mod W s1) (i / W s1) = myScore s1 s2 p (i mod W s1) (i / W s1)).
  { unfold myScore. rewrite HD, Hag; [done|unfold channels; lia]. }
  assert (Hl : lScore s1 p' (i mod W s1) (i / W s1) = lScore s1 p (i mod W s1) (i / W s1)).
  { unfold lScore. rewrite HL, Hag; [done|unfold channels; lia]. }
  assert (Ht : tScore s1 p' (i mod W s1) (i / W s1) = tScore s1 p (i mod W s1) (i / W s1)).
  { unfold tScore. rewrite HT, Hag; [done|unfold channels; lia]. }
  unfold cellNext, cellScore. rewrite Hm, Hl, Ht. done.
Qed.

Lemma cell_ok_agree s1 s2 p p' i :
  0 <= i ->
  (forall j, j < (i + 1) * channels -> buf_get p' j = buf_get p j) ->
  cell_ok s1 s2 p i -> cell_ok s1 s2 p' i.
Proof.
  intros Hi Hag. unfold cell_ok, score_at, next_at.
  rewrite !Hag by (unfold channels; lia).
  destruct ((i / W s1 =? 0) || (i mod W s1 =? 0)) eqn:Hb; [done|].
  apply interior_cases in Hb as [Hx Hy].
  destruct (cell_values_agree s1 s2 p p' i Hi Hx Hy) as [-> ->]; [|done].
  intros j Hj. apply Hag. unfold channels in *. lia.
Qed.

Lemma cellScore_nonneg s1 s2 p x y : 0 <= cellScore s1 s2 p x y.
Proof. unfold cellScore. lia. Qed.

Lemma permScore_cases s1 s2 x y :
  (permScore s1 s2 x y = 1 /\ char_at s1 (x - 1) = char_at s2 (y - 1)) \/
  (permScore s1 s2 x y = -1 /\ char_at s1 (x - 1) <> char_at s2 (y - 1)).
Proof.
  unfold permScore, same_residue, matchReward, mismatchPenalty, matchReward.
  case_bool_decide; [left|right]; done.
Qed.

(** The candidates of a cell, in terms of the stored scores. *)
Lemma candidates s1 s2 p x y :
  myScore s1 s2 p x y = score_at p (iD s1 x y) + permScore s1 s2 x y /\
  lScore s1 p x y = score_at p (iL s1 x y) - 1 /\
  tScore s1 p x y = score_at p (iT s1 x y) - 1.
Proof. done. Qed.

(** A computed score exceeds the stored scores it is built from by at
    most one. *)
Lemma cellScore_range s1 s2 p x y :
  (forall j, 0 <= score_at p j <= exact_max) ->
  0 <= cellScore s1 s2 p x y <= exact_max + 1.
Proof.
  intros Hst. destruct (candidates s1 s2 p x y) as (Hm & Hl & Ht).
  pose proof (Hst (iD s1 x y)). pose proof (Hst (iL s1 x y)).
  pose proof (Hst (iT s1 x y)).
  destruct (permScore_cases s1 s2 x y) as [[Hp _]|[Hp _]];
    unfold cellScore; lia.
Qed.

Lemma fill_inv_init s1 s2 : fill_inv s1 s2 0 (fill_init s1 s2).
Proof.
  pose proof (permutationsTotal_pos s1 s2).
  split; simpl; unfold score_at, next_at; intros; rewrite ?buf_get_new;
    rewrite ?exact_max_eq; try lia; try done.
  unfold new_buffer. rewrite length_replicate. unfold channels. lia.
Qed.

Lemma fill_inv_step s1 s2 k st :
  0 <= k < permutationsTotal s1 s2 ->
  fill_inv s1 s2 k st -> fill_inv s1 s2 (k + 1) (fill_step s1 s2 st k).
Proof.
  intros Hk [Hlen Hfresh Hcells Hst Hnn Hub Hmat Hfirst].
  unfold fill_step.
  destruct ((k / W s1 =? 0) || (k mod W s1 =? 0)) eqn:Hb.
  - (* a cell of row 0 or column 0 is skipped *)
    split; try done.
    + intros i Hi. apply Hfresh. lia.
    + intros i Hi. destruct (decide (i = k)) as [->|]; [|apply Hcells; lia].
      unfold cell_ok. rewrite Hb. apply Hfresh. lia.
    + intros i Hi Hint. destruct (decide (i = k)) as [->|]; [|apply Hub; [lia|done]].
      apply interior_test in Hint. congruence.
    + destruct Hmat as [?|(? & ? & ? & ?)]; [by left|right].
      split; [done|]. split; [lia|]. split; done.
  - (* an interior cell is written *)
    pose proof (interior_cases _ _ Hb) as [Hx Hy].
    set (p := f_permutations st) in *.
    set (score := cellScore s1 s2 p (k mod W s1) (k / W s1)).
    set (nxt := cellNext s1 s2 p (k mod W s1) (k / W s1)).
    set (p' := buf_set (buf_set p (k * channels) score) (k * channels + 1) nxt).
    assert (Hother : forall j, j <> k * channels -> j <> k * channels + 1 ->
                               buf_get p' j = buf_get p j).
    { intros j H1 H2. unfold p'. rewrite !buf_get_set_ne; done. }
    assert (Hsc : score_at p' k = fround score).
    { unfold score_at, p'. rewrite buf_get_set_ne by lia.
      apply buf_get_set_eq. unfold channels in *. lia. }
    assert (Hnx : next_at p' k = fround nxt).
    { unfold next_at, p'. apply buf_get_set_eq. rewrite buf_set_length.
      unfold channels in *. lia. }
    assert (Hrange : 0 <= score <= exact_max + 1) by (by apply cellScore_range).
    assert (Hcomp : forall i, 0 <= i <= k -> interior s1 i ->
                      computed s1 s2 p' i = computed s1 s2 p i).
    { intros i Hi [Hix Hiy]. unfold computed.
      destruct (cell_values_agree s1 s2 p p' i) as [-> _]; try done; [lia|].
      intros j Hj. apply Hother; unfold channels in *; lia. }
    split; simpl; fold p score nxt p'.
    + unfold p'. rewrite !buf_set_length. done.
    + intros i Hi. unfold score_at, next_at.
      rewrite !Hother by (unfold channels; lia). apply Hfresh. lia.
    + intros i Hi. destruct (decide (i = k)) as [->|].
      * unfold cell_ok. rewrite Hb, Hsc, Hnx.
        destruct (cell_values_agree s1 s2 p p' k) as [-> ->]; try done; [lia|].
        intros j Hj. apply Hother; lia.
      * apply (cell_ok_agree s1 s2 p); [lia| |apply Hcells; lia].
        intros j Hj. apply Hother; unfold channels in *; lia.
    + intros i. destruct (decide (i = k)) as [->|].
      * rewrite Hsc. pose proof (fround_cap score Hrange). lia.
      * unfold score_at. rewrite Hother by (unfold channels; lia). apply Hst.
    + destruct (maxScore st <? score); lia.
    + intros i Hi Hint. rewrite Hcomp by (done || lia).
      destruct (decide (i = k)) as [->|].
      * fold score. unfold computed. fold score.
        destruct (Z.ltb_spec (maxScore st) score); lia.
      * specialize (Hub i ltac:(lia) Hint). fold p in Hub.
        destruct (Z.ltb_spec (maxScore st) score); lia.
    + destruct (Z.ltb_spec (maxScore st) score).
      * right. split; [lia|]. split; [lia|]. split; [done|].
        rewrite Hcomp by (done || lia). done.
      * destruct Hmat as [?|(? & ? & ? & ?)]; [by left|right].
        split; [done|]. split; [lia|]. split; [done|].
        rewrite Hcomp by (done || lia). done.
    + intros i Hi Hint. destruct (Z.ltb_spec (maxScore st) score).
      * rewrite Hcomp by (done || lia).
        specialize (Hub i ltac:(lia) Hint). fold p in Hub. lia.
      * destruct Hmat as [[_ E]|(? & ? & ? & ?)]; [lia|].
        rewrite Hcomp by (done || lia). apply Hfirst; [lia|done].
Qed.

Lemma fill_upto_succ s1 s2 k :
  fill_upto s1 s2 (S k) = fill_step s1 s2 (fill_upto s1 s2 k) (Z.of_nat k).
Proof.
  unfold fill_upto. rewrite seq_S, map_app, fold_left_app. done.
Qed.

Lemma fill_inv_upto s1 s2 k :
  Z.of_nat k <= permutationsTotal s1 s2 ->
  fill_inv s1 s2 (Z.of_nat k) (fill_upto s1 s2 k).
Proof.
  induction k as [|k IH]; intros Hk.
  - apply fill_inv_init.
  - rewrite fill_upto_succ. replace (Z.of_nat (S k)) with (Z.of_nat k + 1) by lia.
    apply fill_inv_step; [lia|apply IH; lia].
Qed.

(** The invariant holds of the finished matrix. *)
Lemma fill_inv_fill s1 s2 :
  fill_inv s1 s2 (permutationsTotal s1 s2) (fill s1 s2).
Proof.
  pose proof (permutationsTotal_pos s1 s2).
  unfold fill.
  replace (permutationsTotal s1 s2) with (Z.of_nat (Z.to_nat (permutationsTotal s1 s2))) at 1 by lia.
  apply fill_inv_upto. lia.
Qed.

(** * The finished matrix *)

Section Matrix.

Variables s1 s2 : string.

Local Abbreviation P := (f_permutations (fill s1 s2)).
Local Abbreviation total := (permutationsTotal s1 s2).
Local Abbreviation mi := (maxIndex (fill s1 s2)).

Lemma matrix_length : Z.of_nat (length P) = total * channels.
Proof. apply (inv_length _ _ _ _ (fill_inv_fill s1 s2)). Qed.

Lemma matrix_cell_ok i : 0 <= i < total -> cell_ok s1 s2 P i.
Proof. apply (inv_cells _ _ _ _ (fill_inv_fill s1 s2)). Qed.

Lemma matrix_outside i : i < 0 \/ total <= i -> score_at P i = 0 /\ next_at P i = 0.
Proof.
  intros [Hi|Hi]; [|by apply (inv_fresh _ _ _ _ (fill_inv_fill s1 s2))].
  unfold score_at, next_at, buf_get, buf_at, channels.
  destruct (Z.ltb_spec (i * 2) 0), (Z.ltb_spec (i * 2 + 1) 0); simpl; lia.
Qed.

Lemma matrix_boundary i :
  i mod W s1 = 0 \/ i / W s1 = 0 -> score_at P i = 0 /\ next_at P i = 0.
Proof.
  intros Hb.
  destruct (decide (0 <= i < total)) as [Hi|Hi]; [|apply matrix_outside; lia].
  pose proof (matrix_cell_ok i Hi) as Hc. unfold cell_ok in Hc.
  destruct ((i / W s1 =? 0) || (i mod W s1 =? 0)) eqn:E; [done|].
  apply interior_cases in E. lia.
Qed.

(** An interior cell holds the converted score and predecessor. *)
Lemma matrix_interior i :
  0 <= i < total -> i mod W s1 <> 0 -> i / W s1 <> 0 ->
  score_at P i = fround (cellScore s1 s2 P (i mod W s1) (i / W s1)) /\
  next_at P i = fround (cellNext s1 s2 P (i mod W s1) (i / W s1)).
Proof.
  intros Hi Hx Hy. pose proof (matrix_cell_ok i Hi) as Hc. unfold cell_ok in Hc.
  destruct ((i / W s1 =? 0) || (i mod W s1 =? 0)) eqn:E; [|done].
  apply orb_true_iff in E as [?%Z.eqb_eq| ?%Z.eqb_eq]; lia.
Qed.

(** Every stored score lies between 0 and 2^24. *)
Lemma matrix_stored i : 0 <= score_at P i <= exact_max.
Proof. apply (inv_stored _ _ _ _ (fill_inv_fill s1 s2)). Qed.

Lemma matrix_score_nonneg i : 0 <= score_at P i.
Proof. apply matrix_stored. Qed.

Lemma matrix_computed_range x y : 0 <= cellScore s1 s2 P x y <= exact_max + 1.
Proof. apply cellScore_range. apply matrix_stored. Qed.

(** The stored score is the computed one, or less by one at 2^24 + 1. *)
Lemma matrix_stored_computed i :
  0 <= i < total -> interior s1 i ->
  score_at P i <= computed s1 s2 P i /\
  (0 < computed s1 s2 P i -> 0 < score_at P i).
Proof.
  intros Hi [Hx Hy]. destruct (matrix_interior i Hi Hx Hy) as [-> _].
  pose proof (fround_cap _ (matrix_computed_range (i mod W s1) (i / W s1))).
  unfold computed. tauto.
Qed.

(** The candidates of an interior cell, read off the finished matrix. *)
Lemma matrix_candidates i :
  0 <= i -> i mod W s1 <> 0 -> i / W s1 <> 0 ->
  myScore s1 s2 P (i mod W s1) (i / W s1)
    = score_at P (i - W s1 - 1) + permScore s1 s2 (i mod W s1) (i / W s1) /\
  lScore s1 P (i mod W s1) (i / W s1) = score_at P (i - 1) - 1 /\
  tScore s1 P (i mod W s1) (i / W s1) = score_at P (i - W s1) - 1.
Proof.
  intros Hi Hx Hy.
  destruct (neighbours s1 i Hx Hy Hi) as (HD & HL & HT & _).
  unfold myScore, lScore, tScore, score_at, gapPenalty. rewrite HD, HL, HT. done.
Qed.

Lemma maxScore_nonneg : 0 <= maxScore (fill s1 s2).
Proof. apply (inv_max_nonneg _ _ _ _ (fill_inv_fill s1 s2)). Qed.

(** [maxScore] is 0 with [maxIndex] 0, or the score computed at the
    interior cell [maxIndex]. *)
Lemma matrix_max_cases :
  (maxScore (fill s1 s2) = 0 /\ mi = 0) \/
  (0 < maxScore (fill s1 s2) /\ 0 <= mi < total /\ interior s1 mi /\
   computed s1 s2 P mi = maxScore (fill s1 s2)).
Proof. apply (inv_max_at _ _ _ _ (fill_inv_fill s1 s2)). Qed.

Lemma matrix_max_computed i :
  0 <= i < total -> interior s1 i ->
  computed s1 s2 P i <= maxScore (fill s1 s2).
Proof. apply (inv_max_ub _ _ _ _ (fill_inv_fill s1 s2)). Qed.

Lemma matrix_max_first i :
  0 <= i < mi -> interior s1 i ->
  computed s1 s2 P i < maxScore (fill s1 s2).
Proof. apply (inv_max_first _ _ _ _ (fill_inv_fill s1 s2)). Qed.

(** No stored score exceeds [maxScore]. *)
Lemma matrix_max_ub i : score_at P i <= maxScore (fill s1 s2).
Proof.
  pose proof maxScore_nonneg as Hnn.
  destruct (decide (0 <= i < total)) as [Hi|Hi].
  - destruct (decide (i mod W s1 = 0 \/ i / W s1 = 0)) as [Hb|Hb].
    + destruct (matrix_boundary i Hb) as [-> _]. done.
    + assert (interior s1 i) as Hint by (unfold interior; lia).
      pose proof (matrix_stored_computed i Hi Hint).
      pose proof (matrix_max_computed i Hi Hint). lia.
  - destruct (matrix_outside i) as [-> _]; [lia|done].
Qed.

Lemma matrix_max_range : 0 <= mi < total.
Proof.
  pose proof (permutationsTotal_pos s1 s2).
  destruct matrix_max_cases as [[_ ->]|(_ & ? & _)]; lia.
Qed.

(** The cell [maxIndex] stores [maxScore], converted. *)
Lemma matrix_max_stored : score_at P mi = fround (maxScore (fill s1 s2)).
Proof.
  destruct matrix_max_cases as [[-> ->]|(_ & Hr & [Hx Hy] & <-)].
  - destruct (matrix_boundary 0) as [-> _]; [|done].
    left. apply Z.mod_0_l. pose proof (W_pos s1). lia.
  - destruct (matrix_interior mi Hr Hx Hy) as [-> _]. done.
Qed.

Lemma matrix_max_bound : maxScore (fill s1 s2) <= exact_max + 1.
Proof.
  destruct matrix_max_cases as [[-> _]|(_ & _ & _ & <-)].
  - rewrite exact_max_eq. lia.
  - apply matrix_computed_range.
Qed.

(** The maximal cell has a positive stored score exactly when [maxScore]
    is positive. *)
Lemma matrix_max_positive :
  0 < maxScore (fill s1 s2) <-> 0 < score_at P mi.
Proof.
  rewrite matrix_max_stored.
  pose proof maxScore_nonneg. pose proof matrix_max_bound.
  pose proof (fround_cap (maxScore (fill s1 s2)) ltac:(lia)) as (? & ? & ?).
  split; [tauto|lia].
Qed.

(** With a positive [maxScore] the cell [maxIndex] is interior. *)
Lemma matrix_max_interior :
  0 < maxScore (fill s1 s2) ->
  0 <= mi < total /\ 1 <= mi mod W s1 /\ 1 <= mi / W s1.
Proof.
  intros Hpos. pose proof (W_pos s1) as HW.
  destruct matrix_max_cases as [[? _]|(_ & Hr & [Hx Hy] & _)]; [lia|].
  pose proof (coord_x_range (W s1) HW mi).
  pose proof (coord_y_nonneg (W s1) HW mi (proj1 Hr)). lia.
Qed.

(** The maximal cell, when [maxScore] is positive, pairs equal residues:
    otherwise a neighbour would score more than the maximum. *)
Lemma max_cell_equal :
  0 < maxScore (fill s1 s2) ->
  char_at s1 (mi mod W s1 - 1) = char_at s2 (mi / W s1 - 1).
Proof.
  intros Hpos.
  destruct matrix_max_cases as [[? _]|(_ & Hr & [Hx Hy] & Hc)]; [lia|].
  destruct (matrix_candidates mi (proj1 Hr) Hx Hy) as (Hm & Hl & Ht).
  pose proof (matrix_max_ub (mi - W s1 - 1)) as U1.
  pose proof (matrix_max_ub (mi - 1)) as U2.
  pose proof (matrix_max_ub (mi - W s1)) as U3.
  unfold computed, cellScore in Hc.
  destruct (permScore_cases s1 s2 (mi mod W s1) (mi / W s1)) as [[_ ?]|[? _]];
    [done|lia].
Qed.

(** Both channels of a cell of the grid lie inside the array. *)
Lemma matrix_read i :
  0 <= i < total ->
  buf_at P (i * channels) = Some (score_at P i) /\
  buf_at P (i * channels + 1) = Some (next_at P i).
Proof.
  intros Hi. pose proof matrix_length as Hlen.
  split; apply buf_at_in_range; unfold channels in *; lia.
Qed.

End Matrix.

(** * The matrix by coordinates *)

Section Grid.

Variables s1 s2 : string.

Local Abbreviation P := (f_permutations (fill s1 s2)).

Lemma cell_index_coords x y :
  0 <= x <= strlen s1 ->
  cell_index s1 x y mod W s1 = x /\ cell_index s1 x y / W s1 = y.
Proof.
  intros Hx. pose proof (W_pos s1) as HW. unfold cell_index.
  assert (HWe : W s1 = strlen s1 + 1) by done.
  rewrite coord_x_of, coord_y_of; lia.
Qed.

Lemma cell_index_range x y :
  0 <= x <= strlen s1 -> 0 <= y <= strlen s2 ->
  0 <= cell_index s1 x y < permutationsTotal s1 s2.
Proof.
  intros Hx Hy. unfold cell_index, permutationsTotal.
  apply coord_index_range; unfold W, H; lia.
Qed.

Lemma index_cell_index i :
  cell_index s1 (i mod W s1) (i / W s1) = i.
Proof. unfold cell_index. pose proof (coord_split _ (W_pos s1) i). lia. Qed.

Lemma cell_index_interior x y :
  1 <= x <= strlen s1 -> 1 <= y -> interior s1 (cell_index s1 x y).
Proof.
  intros Hx Hy. destruct (cell_index_coords x y) as [Ex Ey]; [lia|].
  unfold interior. lia.
Qed.

(** The three neighbours, by coordinates. *)
Lemma neighbour_cells x y :
  iD s1 x y = cell_index s1 (x - 1) (y - 1) /\
  iL s1 x y = cell_index s1 (x - 1) y /\
  iT s1 x y = cell_index s1 x (y - 1).
Proof. done. Qed.

(** What an interior cell of the finished matrix holds. *)
Lemma grid_stored x y :
  1 <= x <= strlen s1 -> 1 <= y <= strlen s2 ->
  score_at P (cell_index s1 x y) = fround (cellScore s1 s2 P x y) /\
  next_at P (cell_index s1 x y) = fround (cellNext s1 s2 P x y).
Proof.
  intros Hx Hy.
  destruct (cell_index_coords x y) as [Ex Ey]; [lia|].
  destruct (matrix_interior s1 s2 (cell_index s1 x y)) as [Hs Hn].
  - apply cell_index_range; lia.
  - lia.
  - lia.
  - rewrite Ex, Ey in Hs, Hn. done.
Qed.

Lemma grid_boundary x y :
  0 <= x <= strlen s1 -> x = 0 \/ y = 0 ->
  score_at P (cell_index s1 x y) = 0 /\ next_at P (cell_index s1 x y) = 0.
Proof.
  intros Hx Hb. destruct (cell_index_coords x y Hx) as [Ex Ey].
  apply matrix_boundary. lia.
Qed.

(** The score computed at a cell, over the stored scores of its
    neighbours. *)
Lemma grid_computed x y :
  cellScore s1 s2 P x y =
  Z.max (Z.max (Z.max
    (score_at P (cell_index s1 (x - 1) (y - 1)) + permScore s1 s2 x y)
    (score_at P (cell_index s1 (x - 1) y) - 1))
    (score_at P (cell_index s1 x (y - 1)) - 1)) 0.
Proof. done. Qed.

(** The score computed at an interior cell is at most the smaller of its
    coordinates, and so is every stored score. *)
Lemma score_le_min x y :
  0 <= x <= strlen s1 -> 0 <= y <= strlen s2 ->
  score_at P (cell_index s1 x y) <= Z.min x y /\
  (1 <= x -> 1 <= y -> cellScore s1 s2 P x y <= Z.min x y).
Proof.
  intros Hx Hy.
  remember (Z.to_nat (x + y)) as n eqn:En.
  revert x y Hx Hy En.
  induction n as [n IH] using lt_wf_ind. intros x y Hx Hy En.
  destruct (decide (x = 0 \/ y = 0)) as [Hb|Hi].
  - destruct (grid_boundary x y Hx Hb) as [-> _]. split; lia.
  - destruct (IH (Z.to_nat (x - 1 + (y - 1))) ltac:(lia) (x - 1) (y - 1))
      as [I1 _]; [lia|lia|done|].
    destruct (IH (Z.to_nat (x - 1 + y)) ltac:(lia) (x - 1) y)
      as [I2 _]; [lia|lia|done|].
    destruct (IH (Z.to_nat (x + (y - 1))) ltac:(lia) x (y - 1))
      as [I3 _]; [lia|lia|done|].
    assert (Hc : cellScore s1 s2 P x y <= Z.min x y).
    { rewrite grid_computed.
      destruct (permScore_cases s1 s2 x y) as [[-> _]|[-> _]]; lia. }
    split; [|done].
    destruct (grid_stored x y) as [-> _]; [lia|lia|].
    pose proof (fround_cap _ (matrix_computed_range s1 s2 x y)). lia.
Qed.

End Grid.

(** * The traceback loop, whatever the buffer holds *)

Lemma count_res_snoc f l r :
  count_res f (l ++ [r]) = if f (res r) then count_res f l + 1 else count_res f l.
Proof.
  unfold count_res. rewrite List.filter_app, length_app. simpl.
  destruct (f (res r)); simpl; lia.
Qed.

Lemma same_residue_true a b : same_residue a b = true <-> a = b.
Proof. unfold same_residue. apply bool_decide_eq_true. Qed.

Lemma classify_equal s1 s2 pa pb a b :
  char_at s1 a = char_at s2 b -> classify s1 s2 pa pb a b = GOOD_MATCH.
Proof.
  intros E%same_residue_true. unfold classify. rewrite E. done.
Qed.

Section TraceLocal.

Variables s1 s2 : string.

(** The loop body, with the classification cascade factored out. *)
Lemma trace_step_eq p st n :
  next st = Some n ->
  trace_step s1 s2 p st =
  let a := n mod W s1 - 1 in
  let b := n / W s1 - 1 in
  let r := classify s1 s2 (t_iA st) (t_iB st) a b in
  mkTrace (buf_at p (n * channels + 1))
          (result st ++ [mkResidue a b r]) a b
          (if is_gap r then gaps st + 1 else gaps st)
          (if is_match r then matches st + 1 else matches st).
Proof.
  intros Hn. unfold trace_step, classify. rewrite Hn. simpl.
  destruct (same_residue _ _); simpl; [done|].
  destruct (t_iA st =? _); simpl; [done|].
  destruct (t_iB st =? _); done.
Qed.

(** The loop goes on only from a number other than 0. *)
Lemma trace_not_done p st :
  trace_done p st = false -> exists n, next st = Some n /\ n <> 0.
Proof.
  unfold trace_done. destruct (next st) as [n|]; [|done].
  intros [?%Z.eqb_neq _]%orb_false_iff. eauto.
Qed.

Lemma trace_local_init fs : trace_local s1 s2 (maxIndex fs) (trace_init fs).
Proof. split; done. Qed.

Lemma trace_local_step p c st :
  trace_local s1 s2 c st -> trace_done p st = false ->
  trace_local s1 s2 c (trace_step s1 s2 p st).
Proof.
  intros [Hs Hf Hc HA HB Hg Hm] Hd.
  destruct (trace_not_done p st Hd) as (n & Hn & _).
  rewrite (trace_step_eq p st n Hn). cbv zeta.
  split; simpl; rewrite ?rev_unit.
  - intros E. by destruct (result st).
  - intros z Hz. destruct (result st) as [|r0 rest] eqn:Er.
    + simpl in Hz. injection Hz as <-. simpl.
      rewrite Hs in Hn by done. injection Hn as <-. done.
    + simpl in Hz. apply Hf. done.
  - simpl. rewrite <- HA, <- HB. done.
  - done.
  - done.
  - rewrite count_res_snoc. simpl. rewrite Hg. done.
  - rewrite count_res_snoc. simpl. rewrite Hm. done.
Qed.

(** When the loop breaks, the final state satisfies the local invariant
    and the [break] test. *)
Lemma trace_loop_local fuel p c st st' :
  trace_local s1 s2 c st -> trace_loop s1 s2 fuel p st = Some st' ->
  trace_local s1 s2 c st' /\ trace_done p st' = true.
Proof.
  revert st. induction fuel as [|fuel IH]; intros st Hl Hrun; [done|].
  simpl in Hrun. destruct (trace_done p st) eqn:Hd.
  - injection Hrun as <-. done.
  - apply (IH (trace_step s1 s2 p st)); [by apply trace_local_step|done].
Qed.

(** More iterations than needed change nothing. *)
Lemma trace_loop_more fuel fuel' p st st' :
  trace_loop s1 s2 fuel p st = Some st' -> (fuel <= fuel')%nat ->
  trace_loop s1 s2 fuel' p st = Some st'.
Proof.
  revert fuel' st. induction fuel as [|fuel IH]; intros fuel' st Hl Hle; [done|].
  destruct fuel' as [|fuel']; [lia|]. simpl in *.
  destruct (trace_done p st); [done|]. apply IH; [done|lia].
Qed.

Lemma traceback_local st :
  traceback s1 s2 = Some st ->
  trace_local s1 s2 (maxIndex (fill s1 s2)) st /\
  trace_done (f_permutations (fill s1 s2)) st = true.
Proof. apply trace_loop_local. apply trace_local_init. Qed.

(** With maximal score 0 the loop breaks at once and emits nothing. *)
Lemma zero_max_traceback :
  maxScore (fill s1 s2) = 0 ->
  traceback s1 s2 = Some (trace_init (fill s1 s2)).
Proof.
  intros Hz. unfold traceback. simpl. unfold trace_done. simpl.
  destruct (matrix_max_cases s1 s2) as [[_ ->]|(? & _)]; [done|lia].
Qed.

(** With a positive maximal score at least one record is emitted. *)
Lemma positive_max_traceback st :
  0 < maxScore (fill s1 s2) -> traceback s1 s2 = Some st -> result st <> [].
Proof.
  intros Hpos Ht Hnil.
  destruct (traceback_local st Ht) as [Hl Hdone].
  pose proof (tl_start _ _ _ _ Hl Hnil) as Hn.
  destruct (matrix_max_interior s1 s2 Hpos) as (Hr & Hx & _).
  destruct (matrix_read s1 s2 _ Hr) as [Hread _].
  apply (matrix_max_positive s1 s2) in Hpos.
  unfold trace_done in Hdone. rewrite Hn, Hread in Hdone.
  apply orb_true_iff in Hdone as [E%Z.eqb_eq| ?%Z.leb_le]; [|lia].
  rewrite E in Hx. rewrite Z.mod_0_l in Hx; [lia|].
  pose proof (W_pos s1). lia.
Qed.


End TraceLocal.

(** * The result of [analize] *)

Section Analize.

Variables seq1 seq2 : Sequence.

Local Abbreviation s1 := (sequence seq1).
Local Abbreviation s2 := (sequence seq2).

Lemma analize_returned al s :
  analize seq1 seq2 = Some (Return (al, s)) ->
  exists st, traceback s1 s2 = Some st /\ al = rev (result st) /\
             make_stats seq1 seq2 st = Return s.
Proof.
  unfold analize. destruct (traceback s1 s2) as [st|]; [|done].
  destruct (make_stats seq1 seq2 st) as [s'|e] eqn:E; [|done].
  intros [= <- <-]. eauto.
Qed.

(** It throws exactly when the traceback emitted nothing. *)
Lemma analize_thrown e :
  analize seq1 seq2 = Some (Throw e) ->
  exists st, traceback s1 s2 = Some st /\ result st = [].
Proof.
  unfold analize. destruct (traceback s1 s2) as [st|]; [|done].
  unfold make_stats. destruct (result st) eqn:E; [intros _; eauto|done].
Qed.

(** The statistics name the record emitted first [end] and the record
    emitted last [start]; in the reversed list these are the last and
    the first record. *)
Lemma make_stats_ends st s :
  make_stats seq1 seq2 st = Return s ->
  exists first lst,
    head (rev (result st)) = Some first /\ last (rev (result st)) = Some lst /\
    start (sequence1 s) = iA first /\ end_ (sequence1 s) = iA lst /\
    start (sequence2 s) = iB first /\ end_ (sequence2 s) = iB lst.
Proof.
  unfold make_stats. destruct (result st) as [|r0 rest] eqn:E; [done|].
  intros [= <-]. cbn [sequence1 sequence2 start end_].
  destruct (rev (r0 :: rest)) as [|f hl] eqn:Er.
  { apply (f_equal (@length _)) in Er. rewrite length_rev in Er. done. }
  exists f, r0. split; [done|]. split.
  { rewrite <- Er. cbn [rev]. apply last_snoc. }
  assert (El : List.last (r0 :: rest) r0 = f).
  { rewrite <- (rev_involutive (r0 :: rest)), Er. cbn [rev]. apply last_last. }
  change (List.last (r0 :: rest) r0) with
    (match rest with [] => r0 | _ :: _ => List.last rest r0 end) in El.
  rewrite El. done.
Qed.

End Analize.


(** [analize] throws exactly when the maximal score is 0. *)
Lemma analize_throws_iff seq1 seq2 :
  throws (analize seq1 seq2) = (maxScore (fill (sequence seq1) (sequence seq2)) =? 0).
Proof.
  pose proof (maxScore_nonneg (sequence seq1) (sequence seq2)) as Hnn.
  destruct (Z.eqb_spec (maxScore (fill (sequence seq1) (sequence seq2))) 0) as [Hz|Hnz].
  - unfold analize. rewrite zero_max_traceback by done. done.
  - assert (Hpos : 0 < maxScore (fill (sequence seq1) (sequence seq2))) by lia.
    unfold analize, make_stats.
    destruct (traceback (sequence seq1) (sequence seq2)) as [st|] eqn:Ht; [|done].
    pose proof (positive_max_traceback _ _ st Hpos Ht) as Hne.
    destruct (result st); done.
Qed.

(** * Swapping the two sequences *)

Lemma permScore_swap s1 s2 x y : permScore s1 s2 x y = permScore s2 s1 y x.
Proof.
  unfold permScore, same_residue.
  repeat case_bool_decide; congruence.
Qed.

(** The matrix of (B, A) is the transpose of the matrix of (A, B). *)
Lemma score_transpose s1 s2 x y :
  0 <= x <= strlen s1 -> 0 <= y <= strlen s2 ->
  score_at (f_permutations (fill s1 s2)) (cell_index s1 x y) =
  score_at (f_permutations (fill s2 s1)) (cell_index s2 y x).
Proof.
  intros Hx Hy.
  remember (Z.to_nat (x + y)) as n eqn:En.
  revert x y Hx Hy En.
  induction n as [n IH] using lt_wf_ind. intros x y Hx Hy En.
  destruct (decide (x = 0 \/ y = 0)) as [Hb|Hi].
  - destruct (grid_boundary s1 s2 x y Hx Hb) as [-> _].
    destruct (grid_boundary s2 s1 y x Hy) as [-> _]; [lia|done].
  - destruct (grid_stored s1 s2 x y) as [-> _]; [lia|lia|].
    destruct (grid_stored s2 s1 y x) as [-> _]; [lia|lia|].
    rewrite !grid_computed.
    rewrite (IH (Z.to_nat (x - 1 + (y - 1))) ltac:(lia) (x - 1) (y - 1)) by lia.
    rewrite (IH (Z.to_nat (x - 1 + y)) ltac:(lia) (x - 1) y) by lia.
    rewrite (IH (Z.to_nat (x + (y - 1))) ltac:(lia) x (y - 1)) by lia.
    rewrite (permScore_swap s1 s2 x y). f_equal. lia.
Qed.

(** So is the score computed at every interior cell. *)
Lemma computed_transpose s1 s2 x y :
  1 <= x <= strlen s1 -> 1 <= y <= strlen s2 ->
  cellScore s1 s2 (f_permutations (fill s1 s2)) x y =
  cellScore s2 s1 (f_permutations (fill s2 s1)) y x.
Proof.
  intros Hx Hy. rewrite !grid_computed.
  rewrite (score_transpose s1 s2 (x - 1) (y - 1)) by lia.
  rewrite (score_transpose s1 s2 (x - 1) y) by lia.
  rewrite (score_transpose s1 s2 x (y - 1)) by lia.
  rewrite (permScore_swap s1 s2 x y). lia.
Qed.

Lemma maxScore_le_swap s1 s2 : maxScore (fill s1 s2) <= maxScore (fill s2 s1).
Proof.
  pose proof (maxScore_nonneg s2 s1) as Hnn.
  destruct (matrix_max_cases s1 s2) as [[-> _]|(Hpos & Hr & [Hx Hy] & Hc)]; [done|].
  pose proof (W_pos s1) as HW.
  pose proof (coord_x_range (W s1) HW (maxIndex (fill s1 s2))) as Hxr.
  pose proof (coord_y_range (W s1) HW (maxIndex (fill s1 s2)) (H s2) Hr) as Hyr.
  assert (HWe : W s1 = strlen s1 + 1) by done.
  assert (HHe : H s2 = strlen s2 + 1) by done.
  rewrite <- Hc. unfold computed.
  rewrite computed_transpose by lia.
  set (x := maxIndex (fill s1 s2) mod W s1) in *.
  set (y := maxIndex (fill s1 s2) / W s1) in *.
  destruct (cell_index_coords s2 y x) as [Ey Ex]; [lia|].
  pose proof (matrix_max_computed s2 s1 (cell_index s2 y x)) as Hub.
  unfold computed in Hub. rewrite Ey, Ex in Hub. apply Hub.
  - apply cell_index_range; lia.
  - apply cell_index_interior; lia.
Qed.

(** * Every read of the scoring loop is in range *)

(** At an interior cell the scoring loop reads three buffer slots and one
    character of each sequence, all inside their bounds. *)
Lemma fill_reads_in_range s1 s2 k :
  Z.of_nat k < permutationsTotal s1 s2 ->
  Z.of_nat k mod W s1 <> 0 -> Z.of_nat k / W s1 <> 0 ->
  let p := f_permutations (fill_upto s1 s2 k) in
  let x := Z.of_nat k mod W s1 in
  let y := Z.of_nat k / W s1 in
  in_buffer p (iD s1 x y * channels) /\
  in_buffer p (iL s1 x y * channels) /\
  in_buffer p (iT s1 x y * channels) /\
  0 <= x - 1 < strlen s1 /\ 0 <= y - 1 < strlen s2.
Proof.
  intros Hk Hx Hy p x y.
  pose proof (inv_length _ _ _ _ (fill_inv_upto s1 s2 k ltac:(lia))) as Hlen.
  fold p in Hlen.
  destruct (neighbours s1 (Z.of_nat k) Hx Hy ltac:(lia)) as (HD & HL & HT & Hlow).
  fold x y in HD, HL, HT.
  pose proof (W_pos s1) as HW.
  pose proof (coord_x_range (W s1) HW (Z.of_nat k)) as Hxr.
  pose proof (coord_y_range (W s1) HW (Z.of_nat k) (H s2) ltac:(split; [lia|done]))
    as Hyr.
  fold x in Hxr, Hx. fold y in Hyr, Hy.
  assert (HWe : W s1 = strlen s1 + 1) by done.
  assert (HHe : H s2 = strlen s2 + 1) by done.
  unfold in_buffer. rewrite HD, HL, HT, Hlen. unfold channels. lia.
Qed.


(** * Grids whose cell indices are stored exactly *)

Lemma radix_unique w a b a' b' :
  0 < w -> 0 <= a < w -> 0 <= a' < w ->
  a + b * w = a' + b' * w -> a = a' /\ b = b'.
Proof.
  intros Hw Ha Ha' E.
  pose proof (coord_x_of w Hw a b Ha) as E1.
  pose proof (coord_y_of w Hw a b Ha) as E2.
  rewrite E in E1, E2.
  rewrite coord_x_of in E1 by done. rewrite coord_y_of in E2 by done. done.
Qed.

Lemma cell_of_coords s1 r :
  0 <= iA r < strlen s1 ->
  cell_of s1 r mod W s1 = iA r + 1 /\ cell_of s1 r / W s1 = iB r + 1.
Proof.
  intros Hb. pose proof (W_pos s1) as HW. unfold cell_of.
  assert (HWe : W s1 = strlen s1 + 1) by done.
  rewrite coord_x_of, coord_y_of; lia.
Qed.

(** The predecessor the cascade picks at an interior cell lies below the
    cell. *)
Lemma cellNext_range s1 s2 p i :
  0 <= i -> i mod W s1 <> 0 -> i / W s1 <> 0 ->
  0 <= cellNext s1 s2 p (i mod W s1) (i / W s1) < i.
Proof.
  intros Hi Hx Hy. pose proof (W_pos s1) as HW.
  destruct (neighbours s1 i Hx Hy Hi) as (HD & HL & HT & Hlow).
  unfold cellNext. rewrite HD, HL, HT.
  repeat match goal with |- context [Z.eqb ?a ?b] => destruct (Z.eqb a b) end; lia.
Qed.

(** * Scores are exact while one sequence has at most 2^24 residues *)

Section ShortSide.

Variables s1 s2 : string.
Hypothesis Hmin : Z.min (strlen s1) (strlen s2) <= 2 ^ 24.

Local Abbreviation P := (f_permutations (fill s1 s2)).
Local Abbreviation total := (permutationsTotal s1 s2).
Local Abbreviation mi := (maxIndex (fill s1 s2)).

(** An interior cell stores the score as computed. *)
Lemma short_score i :
  0 <= i < total -> i mod W s1 <> 0 -> i / W s1 <> 0 ->
  score_at P i = cellScore s1 s2 P (i mod W s1) (i / W s1).
Proof.
  intros Hi Hx Hy. pose proof (W_pos s1) as HW.
  destruct (matrix_interior s1 s2 i Hi Hx Hy) as [-> _].
  pose proof (coord_x_range (W s1) HW i) as Hxr.
  pose proof (coord_y_range (W s1) HW i (H s2) Hi) as Hyr.
  assert (HWe : W s1 = strlen s1 + 1) by done.
  assert (HHe : H s2 = strlen s2 + 1) by done.
  destruct (score_le_min s1 s2 (i mod W s1) (i / W s1)) as [_ Hc]; [lia|lia|].
  pose proof (cellScore_nonneg s1 s2 P (i mod W s1) (i / W s1)).
  change (2 ^ 24) with exact_max in Hmin.
  apply fround_exact. lia.
Qed.

(** The cell [maxIndex] stores [maxScore]. *)
Lemma short_max_at : score_at P mi = maxScore (fill s1 s2).
Proof.
  destruct (matrix_max_cases s1 s2) as [[-> ->]|(_ & Hr & [Hx Hy] & <-)].
  - apply (matrix_boundary s1 s2 0). left. apply Z.mod_0_l.
    pose proof (W_pos s1). lia.
  - by apply short_score.
Qed.

(** No cell before [maxIndex] scores as much. *)
Lemma short_max_strict i : 0 <= i < mi -> score_at P i < maxScore (fill s1 s2).
Proof.
  intros Hi. pose proof (matrix_max_range s1 s2) as Hr.
  destruct (matrix_max_cases s1 s2) as [[_ E]|(Hpos & _)]; [lia|].
  destruct (decide (i mod W s1 = 0 \/ i / W s1 = 0)) as [Hb|Hb].
  - destruct (matrix_boundary s1 s2 i Hb) as [-> _]. done.
  - assert (interior s1 i) as Hint by (unfold interior; lia).
    rewrite short_score by lia.
    by apply (matrix_max_first s1 s2 i).
Qed.

End ShortSide.

Section Exact.

Variables s1 s2 : string.
Hypothesis Hex : exact_grid s1 s2.

Local Abbreviation P := (f_permutations (fill s1 s2)).
Local Abbreviation total := (permutationsTotal s1 s2).
Local Abbreviation mi := (maxIndex (fill s1 s2)).

(** Both sequences are shorter than 2^24. *)
Lemma exact_lengths : strlen s1 < exact_max /\ strlen s2 < exact_max.
Proof.
  unfold exact_grid, permutationsTotal, W, H in Hex.
  assert (0 <= strlen s1) by (unfold strlen; lia).
  assert (0 <= strlen s2) by (unfold strlen; lia). nia.
Qed.

(** An interior cell holds the score and the predecessor as computed. *)
Lemma exact_interior i :
  0 <= i < total -> i mod W s1 <> 0 -> i / W s1 <> 0 ->
  score_at P i = cellScore s1 s2 P (i mod W s1) (i / W s1) /\
  next_at P i = cellNext s1 s2 P (i mod W s1) (i / W s1).
Proof.
  intros Hi Hx Hy. pose proof (W_pos s1) as HW.
  destruct (matrix_interior s1 s2 i Hi Hx Hy) as [-> ->].
  pose proof (coord_x_range (W s1) HW i) as Hxr.
  pose proof (coord_y_range (W s1) HW i (H s2) Hi) as Hyr.
  assert (HWe : W s1 = strlen s1 + 1) by done.
  assert (HHe : H s2 = strlen s2 + 1) by done.
  destruct exact_lengths as [L1 L2].
  destruct (score_le_min s1 s2 (i mod W s1) (i / W s1)) as [_ Hc]; [lia|lia|].
  pose proof (cellScore_nonneg s1 s2 P (i mod W s1) (i / W s1)).
  pose proof (cellNext_range s1 s2 P i (proj1 Hi) Hx Hy).
  unfold exact_grid in Hex.
  rewrite !fround_exact; [done|lia|lia].
Qed.

(** A cell of positive score is interior, and its stored predecessor is
    the neighbour whose candidate the score equals. *)
Lemma matrix_positive i :
  0 < score_at P i ->
  (0 <= i < total /\ 1 <= i mod W s1 /\ 1 <= i / W s1) /\
  ((next_at P i = i - W s1 - 1 /\
    score_at P i = score_at P (i - W s1 - 1) + permScore s1 s2 (i mod W s1) (i / W s1)) \/
   (next_at P i = i - 1 /\ score_at P i = score_at P (i - 1) - 1) \/
   (next_at P i = i - W s1 /\ score_at P i = score_at P (i - W s1) - 1)).
Proof.
  intros Hpos. pose proof (W_pos s1) as HW.
  assert (Hi : 0 <= i < total).
  { destruct (decide (0 <= i < total)); [done|].
    destruct (matrix_outside s1 s2 i) as [E _]; lia. }
  assert (Hx : i mod W s1 <> 0).
  { intros E. destruct (matrix_boundary s1 s2 i) as [E' _]; lia. }
  assert (Hy : i / W s1 <> 0).
  { intros E. destruct (matrix_boundary s1 s2 i) as [E' _]; lia. }
  pose proof (coord_x_range (W s1) HW i).
  pose proof (coord_y_nonneg (W s1) HW i (proj1 Hi)).
  split; [lia|].
  destruct (exact_interior i Hi Hx Hy) as [Hs Hn].
  destruct (matrix_candidates s1 s2 i (proj1 Hi) Hx Hy) as (Hm & Hl & Ht).
  destruct (neighbours s1 i Hx Hy (proj1 Hi)) as (HD & HL & HT & _).
  rewrite Hs in Hpos |- *. rewrite Hn. unfold cellNext.
  rewrite HD, HL, HT.
  destruct (Z.eqb_spec (myScore s1 s2 P (i mod W s1) (i / W s1))
                       (cellScore s1 s2 P (i mod W s1) (i / W s1))) as [E|E].
  { left. split; [done|]. rewrite <- E. done. }
  destruct (Z.eqb_spec (cellScore s1 s2 P (i mod W s1) (i / W s1))
                       (lScore s1 P (i mod W s1) (i / W s1))) as [E1|E1].
  { right; left. split; [done|]. rewrite E1. done. }
  destruct (Z.eqb_spec (cellScore s1 s2 P (i mod W s1) (i / W s1))
                       (tScore s1 P (i mod W s1) (i / W s1))) as [E2|E2].
  { right; right. split; [done|]. rewrite E2. done. }
  unfold cellScore in *. lia.
Qed.

(** The shorter sequence has fewer than 2^24 residues. *)
Lemma exact_short : Z.min (strlen s1) (strlen s2) <= 2 ^ 24.
Proof. destruct exact_lengths. change (2 ^ 24) with exact_max. lia. Qed.

(** The cell [maxIndex] stores [maxScore]. *)
Lemma matrix_max_at : score_at P mi = maxScore (fill s1 s2).
Proof. apply short_max_at. apply exact_short. Qed.

(** No cell below [maxIndex] scores as much. *)
Lemma matrix_max_strict i : 0 <= i < mi -> score_at P i < maxScore (fill s1 s2).
Proof. apply short_max_strict. apply exact_short. Qed.

(** The recurrence, read off the finished matrix at an interior cell. *)
Lemma grid_interior x y :
  1 <= x <= strlen s1 -> 1 <= y <= strlen s2 ->
  score_at P (cell_index s1 x y) = cellScore s1 s2 P x y /\
  next_at P (cell_index s1 x y) = cellNext s1 s2 P x y.
Proof.
  intros Hx Hy.
  destruct (cell_index_coords s1 x y) as [Ex Ey]; [lia|].
  destruct (exact_interior (cell_index s1 x y)) as [Hs Hn].
  - apply cell_index_range; lia.
  - lia.
  - lia.
  - rewrite Ex, Ey in Hs, Hn. done.
Qed.

(** ** The traceback *)

Lemma trace_inv_init : trace_inv s1 s2 P mi (trace_init (fill s1 s2)).
Proof.
  split; simpl; try done. intros n [= <-]. apply matrix_max_range.
Qed.

(** The loop goes on from a cell of positive score. *)
Lemma trace_running st :
  trace_inv s1 s2 P mi st -> trace_done P st = false ->
  exists n, next st = Some n /\ n <> 0 /\ 0 < score_at P n.
Proof.
  intros Hinv Hd. destruct (trace_not_done P st Hd) as (n & Hn & Hnz).
  exists n. split; [done|]. split; [done|].
  pose proof (tinv_next_range _ _ _ _ _ Hinv n Hn) as Hr.
  destruct (matrix_read s1 s2 n Hr) as [Hread _].
  unfold trace_done in Hd. rewrite Hn, Hread in Hd.
  apply orb_false_iff in Hd as [_ ?%Z.leb_gt]. lia.
Qed.

(** It breaks at the origin or at a cell of no positive score. *)
Lemma trace_stopped st :
  trace_inv s1 s2 P mi st -> trace_done P st = true ->
  exists n, next st = Some n /\ (n = 0 \/ score_at P n <= 0).
Proof.
  intros Hinv Hd. pose proof (tinv_next _ _ _ _ _ Hinv) as Hn.
  eexists. split; [exact Hn|].
  pose proof (tinv_next_range _ _ _ _ _ Hinv _ Hn) as Hr.
  destruct (matrix_read s1 s2 _ Hr) as [Hread _].
  unfold trace_done in Hd. rewrite Hn, Hread in Hd.
  apply orb_true_iff in Hd as [?%Z.eqb_eq| ?%Z.leb_le]; [by left|by right].
Qed.

Lemma trace_inv_step st n :
  trace_inv s1 s2 P mi st -> trace_done P st = false -> next st = Some n ->
  trace_inv s1 s2 P mi (trace_step s1 s2 P st) /\
  exists n', next (trace_step s1 s2 P st) = Some n' /\ n' < n.
Proof.
  intros Hinv Hd Hn.
  destruct (trace_running st Hinv Hd) as (n0 & Hn0 & Hnz & Hpos).
  rewrite Hn in Hn0. injection Hn0 as <-.
  destruct Hinv as [Hnx Hr Htr HA HB Hg Hm].
  pose proof (W_pos s1) as HW.
  destruct (matrix_positive _ Hpos) as ((Hi & Hx & Hy) & Hnext).
  pose proof (coord_x_range (W s1) HW n) as Hxr.
  pose proof (coord_y_range (W s1) HW n (H s2) Hi) as Hyr.
  pose proof (coord_split (W s1) HW n) as Hsplit.
  set (r := mkResidue (n mod W s1 - 1) (n / W s1 - 1)
              (classify s1 s2 (t_iA st) (t_iB st)
                 (n mod W s1 - 1) (n / W s1 - 1))).
  assert (Hcell : cell_of s1 r = n).
  { unfold cell_of, r. simpl. lia. }
  assert (Hlt : 0 <= next_at P n < n).
  { assert (W s1 + 1 <= n) by nia. lia. }
  destruct (matrix_read s1 s2 n Hi) as [_ Hread].
  rewrite (trace_step_eq s1 s2 P st n Hn). cbv zeta. rewrite Hread.
  split; [|simpl; exists (next_at P n); split; [done|lia]].
  fold r.
  split; simpl; rewrite ?rev_unit.
  - rewrite Hcell. done.
  - intros n' [= <-]. lia.
  - simpl. rewrite Hcell. repeat split.
    + simpl. lia.
    + simpl. pose proof (eq_refl : W s1 = strlen s1 + 1). lia.
    + simpl. lia.
    + simpl. pose proof (eq_refl : H s2 = strlen s2 + 1). lia.
    + done.
    + simpl. rewrite <- HA, <- HB. done.
    + rewrite Hnx in Hn. injection Hn as <-. destruct (rev (result st)); done.
    + done.
  - done.
  - done.
  - rewrite count_res_snoc. simpl. rewrite Hg. done.
  - rewrite count_res_snoc. simpl. rewrite Hm. done.
Qed.

(** The loop breaks within [next + 1] iterations. *)
Lemma trace_loop_total fuel st n :
  trace_inv s1 s2 P mi st -> next st = Some n -> n < Z.of_nat fuel ->
  exists st', trace_loop s1 s2 fuel P st = Some st' /\
              trace_inv s1 s2 P mi st' /\ trace_done P st' = true.
Proof.
  revert st n. induction fuel as [|fuel IH]; intros st n Hinv Hn Hfuel.
  - pose proof (tinv_next_range _ _ _ _ _ Hinv n Hn). lia.
  - simpl. destruct (trace_done P st) eqn:Hd; [by exists st|].
    destruct (trace_inv_step st n Hinv Hd Hn) as [Hinv' (n' & Hn' & Hlt)].
    apply (IH _ n'); [done|done|lia].
Qed.

(** [traceback] returns: the bound is never reached. *)
Lemma traceback_total :
  exists st, traceback s1 s2 = Some st /\
             trace_inv s1 s2 P mi st /\ trace_done P st = true.
Proof.
  unfold traceback. apply (trace_loop_total _ _ mi); [apply trace_inv_init|done|].
  pose proof (matrix_max_range s1 s2) as Hmr. lia.
Qed.

(** The final state of the traceback is the one the invariant describes. *)
Lemma traceback_final st :
  traceback s1 s2 = Some st ->
  trace_inv s1 s2 P mi st /\ trace_done P st = true.
Proof.
  intros Ht. destruct traceback_total as (st' & Ht' & Hinv & Hd).
  rewrite Ht in Ht'. injection Ht' as <-. done.
Qed.

(** At the top of every iteration the traceback reads slots of the buffer. *)
Lemma trace_reads_in_range st n :
  trace_inv s1 s2 P mi st -> next st = Some n ->
  in_buffer P (n * channels) /\ in_buffer P (n * channels + 1).
Proof.
  intros Hinv Hn.
  pose proof (tinv_next_range _ _ _ _ _ Hinv n Hn) as Hr.
  pose proof (matrix_length s1 s2) as Hlen.
  unfold in_buffer. rewrite Hlen. unfold channels. lia.
Qed.

(** ** What the emitted records look like *)

Lemma trail_tail r tl : trail s1 s2 P mi (r :: tl) -> trail s1 s2 P mi tl.
Proof. simpl. tauto. Qed.

Lemma trail_head_bounds r tl :
  trail s1 s2 P mi (r :: tl) ->
  0 <= iA r < strlen s1 /\ 0 <= iB r < strlen s2.
Proof. simpl. tauto. Qed.

Lemma trail_head_class r tl :
  trail s1 s2 P mi (r :: tl) ->
  res r = classify s1 s2 (prev_iA tl) (prev_iB tl) (iA r) (iB r).
Proof. simpl. tauto. Qed.

Lemma trail_drop l1 l2 : trail s1 s2 P mi (l1 ++ l2) -> trail s1 s2 P mi l2.
Proof.
  induction l1 as [|r l1 IH]; [done|]. intros Ht. apply IH.
  apply (trail_tail r). done.
Qed.

(** Two neighbouring records differ by one diagonal, left or top move. *)
Lemma trail_step r r' tl : trail s1 s2 P mi (r :: r' :: tl) -> advances r r'.
Proof.
  intros (Hb & _ & _ & Hlink & (Hb' & Hpos' & _)).
  pose proof (W_pos s1) as HW.
  destruct (matrix_positive _ Hpos') as (_ & Hnext).
  rewrite <- Hlink in Hnext. unfold cell_of in Hnext. unfold advances.
  assert (HWe : W s1 = strlen s1 + 1) by done.
  destruct Hnext as [[E _]|[[E _]|[E _]]].
  - left.
    destruct (radix_unique (W s1) (iA r + 1) (iB r + 1) (iA r') (iB r'))
      as [? ?]; lia.
  - right; left.
    destruct (radix_unique (W s1) (iA r + 1) (iB r + 1) (iA r') (iB r' + 1))
      as [? ?]; lia.
  - right; right.
    destruct (radix_unique (W s1) (iA r + 1) (iB r + 1) (iA r' + 1) (iB r'))
      as [? ?]; lia.
Qed.

Lemma trail_lookup_bounds l k r :
  trail s1 s2 P mi l -> l !! k = Some r ->
  0 <= iA r < strlen s1 /\ 0 <= iB r < strlen s2.
Proof.
  revert k. induction l as [|q l IH]; intros k Ht Hk; [done|].
  destruct k as [|k]; simpl in Hk.
  - injection Hk as ->. by apply (trail_head_bounds r l).
  - apply (IH k); [by apply (trail_tail q)|done].
Qed.

Lemma trail_consecutive l k r r' :
  trail s1 s2 P mi l -> l !! k = Some r -> l !! S k = Some r' -> advances r r'.
Proof.
  revert k. induction l as [|q l IH]; intros k Ht Hk Hk'; [done|].
  destruct k as [|k]; simpl in Hk, Hk'.
  - injection Hk as ->. destruct l as [|q' l]; [done|].
    simpl in Hk'. injection Hk' as ->. by apply (trail_step r r' l).
  - apply (IH k); [by apply (trail_tail q)|done|done].
Qed.

Lemma trail_monotone l j k r r' :
  trail s1 s2 P mi l -> (j <= k)%nat ->
  l !! j = Some r -> l !! k = Some r' ->
  iA r <= iA r' /\ iB r <= iB r'.
Proof.
  intros Ht Hjk Hj. revert r'. induction Hjk as [|k Hjk IH]; intros r' Hk.
  - rewrite Hj in Hk. injection Hk as ->. lia.
  - destruct (l !! k) as [q|] eqn:Eq.
    + destruct (IH q eq_refl) as [? ?].
      pose proof (trail_consecutive l k q r' Ht Eq Hk) as Hadv.
      unfold advances in Hadv. lia.
    + apply lookup_ge_None in Eq. apply lookup_lt_Some in Hk. lia.
Qed.

(** The indices grow by at least one per record, inside the two
    sequences: the walk is no longer than their combined length. *)
Lemma trail_length r tl :
  trail s1 s2 P mi (r :: tl) ->
  Z.of_nat (length (r :: tl)) + iA r + iB r <= strlen s1 + strlen s2 - 1.
Proof.
  revert r. induction tl as [|r' tl IH]; intros r Ht.
  - pose proof (trail_head_bounds r [] Ht). simpl. lia.
  - pose proof (trail_step r r' tl Ht) as Hadv.
    pose proof (IH r' (trail_tail r _ Ht)) as IH'.
    unfold advances in Hadv. simpl length in *. lia.
Qed.

(** The record emitted first sits on the maximal cell. *)
Lemma trail_last_start l z :
  trail s1 s2 P mi l -> last l = Some z -> cell_of s1 z = mi.
Proof.
  induction l as [|r l IH]; intros Ht Hl; [done|].
  destruct l as [|r' l].
  - simpl in Hl. injection Hl as ->. simpl in Ht. tauto.
  - apply IH; [by apply (trail_tail r)|done].
Qed.

(** A cell of positive score whose predecessor is the origin marker or
    has no positive score pairs equal residues: it was reached by a
    diagonal move from a zero. *)
Lemma stop_cell_equal i :
  0 < score_at P i ->
  next_at P i = 0 \/ score_at P (next_at P i) <= 0 ->
  char_at s1 (i mod W s1 - 1) = char_at s2 (i / W s1 - 1).
Proof.
  intros Hpos Hstop.
  assert (Hz : score_at P (next_at P i) = 0).
  { pose proof (matrix_score_nonneg s1 s2 (next_at P i)) as Hnn.
    destruct Hstop as [->|?]; [|lia].
    apply (matrix_boundary s1 s2 0). left. apply Z.mod_0_l.
    pose proof (W_pos s1). lia. }
  destruct (matrix_positive _ Hpos) as (_ & Hnext).
  destruct Hnext as [[En E]|[[En E]|[En E]]]; rewrite <- En, Hz in E; [|lia|lia].
  destruct (permScore_cases s1 s2 (i mod W s1) (i / W s1)) as [[_ ?]|[? _]];
    [done|lia].
Qed.

Lemma trail_lookup_facts l k r :
  trail s1 s2 P mi l -> l !! k = Some r ->
  0 < score_at P (cell_of s1 r) /\
  exists pa pb, res r = classify s1 s2 pa pb (iA r) (iB r).
Proof.
  revert k. induction l as [|q l IH]; intros k Ht Hk; [done|].
  destruct k as [|k]; simpl in Hk.
  - injection Hk as ->. simpl in Ht. split; [tauto|].
    exists (prev_iA l), (prev_iB l). tauto.
  - apply (IH k); [by apply (trail_tail q)|done].
Qed.

(** A record on a cell whose coordinates pair equal residues is a match. *)
Lemma trail_record_match l k r :
  trail s1 s2 P mi l -> l !! k = Some r ->
  char_at s1 (cell_of s1 r mod W s1 - 1) = char_at s2 (cell_of s1 r / W s1 - 1) ->
  pairs_equal s1 s2 r /\ res r = GOOD_MATCH.
Proof.
  intros Ht Hk Heq.
  destruct (trail_lookup_bounds l k r Ht Hk) as [HbA HbB].
  destruct (cell_of_coords s1 r HbA) as [Ex Ey]. rewrite Ex, Ey in Heq.
  replace (iA r + 1 - 1) with (iA r) in Heq by lia.
  replace (iB r + 1 - 1) with (iB r) in Heq by lia.
  split; [done|].
  destruct (trail_lookup_facts l k r Ht Hk) as (_ & pa & pb & ->).
  by apply classify_equal.
Qed.

End Exact.

(** [analize] runs to completion on every grid of at most 2^24 cells. *)
Lemma analize_total seq1 seq2 :
  exact_grid (sequence seq1) (sequence seq2) ->
  exists c, analize seq1 seq2 = Some c.
Proof.
  intros Hex.
  destruct (traceback_total _ _ Hex) as (st & Ht & _).
  unfold analize. rewrite Ht. eauto.
Qed.

(** It returns an alignment whenever some cell has a positive score. *)
Lemma analize_positive_returns seq1 seq2 :
  exact_grid (sequence seq1) (sequence seq2) ->
  0 < maxScore (fill (sequence seq1) (sequence seq2)) ->
  exists al s, analize seq1 seq2 = Some (Return (al, s)).
Proof.
  intros Hex Hpos. pose proof (analize_throws_iff seq1 seq2) as Hth.
  destruct (analize_total seq1 seq2 Hex) as [[[al s]|e] Hc]; rewrite Hc in Hth.
  - eauto.
  - simpl in Hth. symmetry in Hth. apply Z.eqb_eq in Hth. lia.
Qed.

(** * The scoring matrix *)

(** C8: in the (n+1) x (m+1) matrix built for any two residue strings,
    every cell's score is at least 0, and every cell of row 0 or column 0
    has score exactly 0 and no predecessor (stored index 0). *)
Theorem scores_nonneg_boundary_zero (s1 s2 : string) (x y : Z) :
  0 <= x <= strlen s1 -> 0 <= y <= strlen s2 ->
  let P := f_permutations (fill s1 s2) in
  0 <= score_at P (cell_index s1 x y) /\
  (x = 0 \/ y = 0 ->
   score_at P (cell_index s1 x y) = 0 /\ next_at P (cell_index s1 x y) = 0).
Proof.
  intros Hx Hy P. split.
  - apply (matrix_score_nonneg s1 s2).
  - intros Hb. by apply grid_boundary.
Qed.

Lemma scores_nonneg_boundary_zero_witness :
  let P := f_permutations (fill "ACGT" "AGT") in
  0 <= score_at P (cell_index "ACGT" 0 2) /\
  (0 = 0 \/ 2 = 0 ->
   score_at P (cell_index "ACGT" 0 2) = 0 /\ next_at P (cell_index "ACGT" 0 2) = 0).
Proof.
  apply (scores_nonneg_boundary_zero "ACGT" "AGT" 0 2); unfold strlen; simpl; lia.
Defined.

(** X14: on a grid of at most 2^24 cells, where the [Float32Array] keeps
    every cell index exact, the stored score of an interior cell (x, y) is
    the maximum of the diagonal candidate (diagonal score plus 1 on equal
    residues, minus 1 otherwise), the left candidate (left score minus 1),
    the top candidate (top score minus 1) and 0; the stored predecessor is
    the diagonal cell if the score equals the diagonal candidate, else the
    left cell if it equals the left candidate, else the top cell if it
    equals the top candidate, else none (index 0). *)
Theorem interior_cell_recurrence (s1 s2 : string) (x y : Z) :
  exact_grid s1 s2 ->
  1 <= x <= strlen s1 -> 1 <= y <= strlen s2 ->
  let P := f_permutations (fill s1 s2) in
  let diagonal :=
    score_at P (cell_index s1 (x - 1) (y - 1)) +
    (if bool_decide (char_at s1 (x - 1) = char_at s2 (y - 1)) then 1 else -1) in
  let left := score_at P (cell_index s1 (x - 1) y) - 1 in
  let top := score_at P (cell_index s1 x (y - 1)) - 1 in
  let score := score_at P (cell_index s1 x y) in
  score = Z.max (Z.max (Z.max diagonal left) top) 0 /\
  next_at P (cell_index s1 x y) =
    (if decide (score = diagonal) then cell_index s1 (x - 1) (y - 1)
     else if decide (score = left) then cell_index s1 (x - 1) y
     else if decide (score = top) then cell_index s1 x (y - 1)
     else 0).
Proof.
  intros Hex Hx Hy P diagonal left top score.
  destruct (grid_interior s1 s2 Hex x y Hx Hy) as [Hs Hn]. fold P in Hs, Hn.
  assert (Em : myScore s1 s2 P x y = diagonal) by done.
  assert (El : lScore s1 P x y = left) by done.
  assert (Et : tScore s1 P x y = top) by done.
  assert (Es : cellScore s1 s2 P x y = score) by done.
  split.
  - unfold score. rewrite Hs. unfold cellScore. rewrite Em, El, Et. done.
  - rewrite Hn. unfold cellNext. rewrite Em, El, Et, Es.
    change (iD s1 x y) with (cell_index s1 (x - 1) (y - 1)).
    change (iL s1 x y) with (cell_index s1 (x - 1) y).
    change (iT s1 x y) with (cell_index s1 x (y - 1)).
    destruct (Z.eqb_spec diagonal score), (decide (score = diagonal)); try congruence.
    destruct (Z.eqb_spec score left), (decide (score = left)); try congruence.
    destruct (Z.eqb_spec score top), (decide (score = top)); congruence.
Qed.

Lemma interior_cell_recurrence_witness :
  exact_grid "ACGT" "AGT" /\
  let P := f_permutations (fill "ACGT" "AGT") in
  let diagonal :=
    score_at P (cell_index "ACGT" (3 - 1) (2 - 1)) +
    (if bool_decide (char_at "ACGT" (3 - 1) = char_at "AGT" (2 - 1)) then 1 else -1) in
  let left := score_at P (cell_index "ACGT" (3 - 1) 2) - 1 in
  let top := score_at P (cell_index "ACGT" 3 (2 - 1)) - 1 in
  let score := score_at P (cell_index "ACGT" 3 2) in
  score = Z.max (Z.max (Z.max diagonal left) top) 0 /\
  next_at P (cell_index "ACGT" 3 2) =
    (if decide (score = diagonal) then cell_index "ACGT" (3 - 1) (2 - 1)
     else if decide (score = left) then cell_index "ACGT" (3 - 1) 2
     else if decide (score = top) then cell_index "ACGT" 3 (2 - 1)
     else 0).
Proof.
  assert (Hex : exact_grid "ACGT" "AGT") by (vm_compute; discriminate).
  split; [exact Hex|].
  apply (interior_cell_recurrence "ACGT" "AGT" 3 2 Hex); unfold strlen; simpl; lia.
Defined.

(** * Concrete runs *)

(** C3, as the specification states it, fails: for A = ACACACTA and
    B = AGCACACA the maximal score is not 6, nor has the alignment 7
    records. *)
Lemma textbook_score_six_length_seven_fails :
  ~ (maxScore (fill "ACACACTA" "AGCACACA") = 6 /\
     exists al st,
       analize (seqOf "ACACACTA") (seqOf "AGCACACA") = Some (Return (al, st)) /\
       length al = 7%nat).
Proof.
  intros [Hmax _]. vm_compute in Hmax. discriminate.
Qed.

(** C3, amended: for A = ACACACTA and B = AGCACACA (match 1, mismatch -1,
    gap 1) the maximal score in the matrix is 5, first reached at cell 69
    (column 6, row 7), and the alignment has exactly 5 records, all
    matches: CACAC against CACAC. *)
Theorem textbook_score_five_length_five :
  maxScore (fill "ACACACTA" "AGCACACA") = 5 /\
  maxIndex (fill "ACACACTA" "AGCACACA") = 69 /\
  exists st,
    analize (seqOf "ACACACTA") (seqOf "AGCACACA")
    = Some (Return ([mkResidue 1 2 GOOD_MATCH; mkResidue 2 3 GOOD_MATCH;
                     mkResidue 3 4 GOOD_MATCH; mkResidue 4 5 GOOD_MATCH;
                     mkResidue 5 6 GOOD_MATCH], st)) /\
    alignmentLength st = 5.
Proof.
  split; [vm_compute; reflexivity|]. split; [vm_compute; reflexivity|].
  eexists. split; [vm_compute; reflexivity|]. reflexivity.
Qed.

(** C2: with A = AAAA and B = TTTT the maximal score is 0 and the traceback
    emits nothing; the statistics then read [result[0].iA] of an empty
    list, so the call throws a TypeError and the constructor returns
    neither an alignment nor statistics. *)
Theorem no_common_residue_throws :
  maxScore (fill "AAAA" "TTTT") = 0 /\
  (exists st, traceback "AAAA" "TTTT" = Some st /\ result st = []) /\
  analize (seqOf "AAAA") (seqOf "TTTT") = Some (Throw (TypeError "iA")) /\
  new_Aligner (seqOf "AAAA") (seqOf "TTTT") = Some (Throw (TypeError "iA")).
Proof.
  split; [vm_compute; reflexivity|]. split.
  - eexists. split; [vm_compute; reflexivity|]. reflexivity.
  - split; vm_compute; reflexivity.
Qed.

(** * The traceback *)



(** X15: on a grid of at most 2^24 cells, whenever [analize] returns an
    alignment, its first and its last record are GOOD_MATCH and pair equal
    residues: the last record sits on the maximal cell, the first on the
    cell at which the traceback stops (its predecessor is the origin marker
    or has no positive score). *)
Theorem alignment_ends_are_matches (seq1 seq2 : Sequence)
    (al : list ResidueResult) (s : AlignmentStats) :
  exact_grid (sequence seq1) (sequence seq2) ->
  analize seq1 seq2 = Some (Return (al, s)) ->
  let s1 := sequence seq1 in
  let s2 := sequence seq2 in
  let P := f_permutations (fill s1 s2) in
  exists first lst,
    head al = Some first /\ last al = Some lst /\
    res first = GOOD_MATCH /\ res lst = GOOD_MATCH /\
    pairs_equal s1 s2 first /\ pairs_equal s1 s2 lst /\
    cell_of s1 lst = maxIndex (fill s1 s2) /\
    (next_at P (cell_of s1 first) = 0 \/
     score_at P (next_at P (cell_of s1 first)) <= 0).
Proof.
  intros Hex Han s1 s2 P.
  destruct (analize_returned _ _ _ _ Han) as (st & Ht & -> & Hst).
  destruct (traceback_final _ _ Hex st Ht) as [Hinv Hdone].
  pose proof (tinv_trail _ _ _ _ _ Hinv) as Htr.
  pose proof (tinv_next _ _ _ _ _ Hinv) as Hnx.
  destruct (trace_stopped _ _ st Hinv Hdone) as (n & Hn & Hstop0).
  destruct (make_stats_ends _ _ _ _ Hst) as (first & lst & Hh & Hl & _).
  exists first, lst. split; [done|]. split; [done|].
  assert (Hstop : next_at P (cell_of s1 first) = 0 \/
                  score_at P (next_at P (cell_of s1 first)) <= 0).
  { destruct (rev (result st)) as [|f hl]; [done|]. injection Hh as ->.
    rewrite Hnx in Hn. injection Hn as <-. done. }
  assert (Hfk : rev (result st) !! 0%nat = Some first).
  { destruct (rev (result st)); [done|]. simpl in *. done. }
  assert (Hlk : rev (result st) !! pred (length (rev (result st))) = Some lst).
  { rewrite <- last_lookup. done. }
  pose proof (trail_last_start s1 s2 _ _ Htr Hl) as Hstart.
  destruct (trail_lookup_facts s1 s2 _ _ _ Htr Hfk) as (Hposf & _).
  destruct (trail_lookup_facts s1 s2 _ _ _ Htr Hlk) as (Hposl & _).
  destruct (trail_record_match s1 s2 _ _ _ Htr Hfk) as [? ?].
  { by apply (stop_cell_equal s1 s2 Hex). }
  destruct (trail_record_match s1 s2 _ _ _ Htr Hlk) as [? ?].
  { rewrite Hstart. apply max_cell_equal.
    apply (matrix_max_positive s1 s2). rewrite <- Hstart. done. }
  done.
Qed.

Lemma alignment_ends_are_matches_witness :
  exact_grid "AAACCC" "AAAGCCC" /\
  exists al s first lst,
    analize (seqOf "AAACCC") (seqOf "AAAGCCC") = Some (Return (al, s)) /\
    head al = Some first /\ last al = Some lst /\
    res first = GOOD_MATCH /\ res lst = GOOD_MATCH.
Proof.
  assert (Hex : exact_grid "AAACCC" "AAAGCCC") by (vm_compute; discriminate).
  split; [exact Hex|].
  eassert (Hrun : analize (seqOf "AAACCC") (seqOf "AAAGCCC") = Some (Return (_, _))).
  { vm_compute. reflexivity. }
  destruct (alignment_ends_are_matches (seqOf "AAACCC") (seqOf "AAAGCCC") _ _
              Hex Hrun)
    as (first & lst & Hh & Hl & Hf & Hz & _).
  eexists _, _, first, lst. split; [exact Hrun|]. split; [exact Hh|]. split; [exact Hl|].
  split; [exact Hf|exact Hz].
Defined.

(** X16: on a grid of at most 2^24 cells, in every alignment [analize]
    returns, each record follows the previous one with both indices
    unchanged or one larger, never both unchanged; so the two index
    sequences are non-decreasing; every index lies inside its sequence; and
    there are at most len(A) + len(B) records. *)
Theorem alignment_advances (seq1 seq2 : Sequence)
    (al : list ResidueResult) (s : AlignmentStats) :
  exact_grid (sequence seq1) (sequence seq2) ->
  analize seq1 seq2 = Some (Return (al, s)) ->
  (forall k r r', al !! k = Some r -> al !! S k = Some r' ->
     (iA r' = iA r \/ iA r' = iA r + 1) /\
     (iB r' = iB r \/ iB r' = iB r + 1) /\
     ~ (iA r' = iA r /\ iB r' = iB r)) /\
  (forall j k r r', (j <= k)%nat -> al !! j = Some r -> al !! k = Some r' ->
     iA r <= iA r' /\ iB r <= iB r') /\
  (forall k r, al !! k = Some r ->
     0 <= iA r < strlen (sequence seq1) /\ 0 <= iB r < strlen (sequence seq2)) /\
  Z.of_nat (length al) <= strlen (sequence seq1) + strlen (sequence seq2).
Proof.
  intros Hex Han.
  destruct (analize_returned _ _ _ _ Han) as (st & Ht & -> & Hst).
  destruct (traceback_final _ _ Hex st Ht) as [Hinv _].
  pose proof (tinv_trail _ _ _ _ _ Hinv) as Htr.
  split; [|split; [|split]].
  - intros k r r' Hk Hk'.
    pose proof (trail_consecutive _ _ Hex _ _ _ _ Htr Hk Hk') as Hadv.
    unfold advances in Hadv. lia.
  - intros j k r r' Hjk Hj Hk. by apply (trail_monotone _ _ Hex _ j k r r' Htr).
  - intros k r Hk. by apply (trail_lookup_bounds _ _ _ k r Htr).
  - destruct (rev (result st)) as [|r tl]; [simpl; unfold strlen; lia|].
    pose proof (trail_length _ _ Hex _ _ Htr).
    pose proof (trail_head_bounds _ _ _ _ Htr). lia.
Qed.

Lemma alignment_advances_witness :
  exact_grid "AAAACCCC" "AAAAGGCCCC" /\
  exists al s,
    analize (seqOf "AAAACCCC") (seqOf "AAAAGGCCCC") = Some (Return (al, s)) /\
    Z.of_nat (length al) <= strlen "AAAACCCC" + strlen "AAAAGGCCCC".
Proof.
  assert (Hex : exact_grid "AAAACCCC" "AAAAGGCCCC") by (vm_compute; discriminate).
  split; [exact Hex|].
  eassert (Hrun : analize (seqOf "AAAACCCC") (seqOf "AAAAGGCCCC")
                 = Some (Return (_, _))).
  { vm_compute. reflexivity. }
  eexists _, _. split; [exact Hrun|].
  apply (alignment_advances (seqOf "AAAACCCC") (seqOf "AAAAGGCCCC") _ _ Hex Hrun).
Defined.

(** * The statistics *)

(** C1, as the specification states it, fails: for A = B = AA the first
    record of the alignment touches index 0 and the last touches index 1,
    yet [end] is 1 and [start] is 0. *)
Lemma stats_end_first_start_last_fails :
  ~ (forall al s first lst,
       analize (seqOf "AA") (seqOf "AA") = Some (Return (al, s)) ->
       head al = Some first -> last al = Some lst ->
       end_ (sequence1 s) = iA first /\ start (sequence1 s) = iA lst /\
       end_ (sequence2 s) = iB first /\ start (sequence2 s) = iB lst).
Proof.
  intros Hclaim.
  eassert (Hrun : analize (seqOf "AA") (seqOf "AA") = Some (Return (_, _))).
  { vm_compute. reflexivity. }
  destruct (Hclaim _ _ _ _ Hrun eq_refl eq_refl) as [Hend _].
  vm_compute in Hend. discriminate.
Qed.

(** C1, amended: whenever [analize] returns an alignment, in each
    per-sequence block [start] is the index touched by the first record of
    the head-to-tail alignment and [end] is the index touched by its last
    record; on a grid of at most 2^24 cells, where the [Float32Array] keeps
    every predecessor index exact, these are the smallest and the largest
    index the alignment touches in that sequence. *)
Theorem stats_start_first_end_last (seq1 seq2 : Sequence)
    (al : list ResidueResult) (s : AlignmentStats) :
  analize seq1 seq2 = Some (Return (al, s)) ->
  exists first lst,
    head al = Some first /\ last al = Some lst /\
    start (sequence1 s) = iA first /\ end_ (sequence1 s) = iA lst /\
    start (sequence2 s) = iB first /\ end_ (sequence2 s) = iB lst /\
    (exact_grid (sequence seq1) (sequence seq2) ->
     forall k r, al !! k = Some r ->
       iA first <= iA r <= iA lst /\ iB first <= iB r <= iB lst).
Proof.
  intros Han.
  destruct (analize_returned _ _ _ _ Han) as (st & Ht & -> & Hst).
  destruct (make_stats_ends _ _ _ _ Hst) as (first & lst & Hh & Hl & E1 & E2 & E3 & E4).
  exists first, lst. repeat (split; [done|]).
  intros Hex k r Hk.
  destruct (traceback_final _ _ Hex st Ht) as [Hinv _].
  pose proof (tinv_trail _ _ _ _ _ Hinv) as Htr.
  assert (Hfk : rev (result st) !! 0%nat = Some first).
  { destruct (rev (result st)); [done|]. simpl in *. done. }
  assert (Hlk : rev (result st) !! pred (length (rev (result st))) = Some lst).
  { rewrite <- last_lookup. done. }
  pose proof (lookup_lt_Some _ _ _ Hk) as Hlt.
  destruct (trail_monotone _ _ Hex _ 0%nat k first r Htr) as [? ?]; [lia|done|done|].
  destruct (trail_monotone _ _ Hex _ k (pred (length (rev (result st)))) r lst Htr)
    as [? ?]; [lia|done|done|].
  lia.
Qed.

Lemma stats_start_first_end_last_witness :
  exists al s first lst,
    analize (seqOf "AAACCC") (seqOf "AAAGCCC") = Some (Return (al, s)) /\
    head al = Some first /\ last al = Some lst /\
    start (sequence1 s) = iA first /\ end_ (sequence1 s) = iA lst /\
    start (sequence2 s) = iB first /\ end_ (sequence2 s) = iB lst /\
    forall k r, al !! k = Some r ->
      iA first <= iA r <= iA lst /\ iB first <= iB r <= iB lst.
Proof.
  eassert (Hrun : analize (seqOf "AAACCC") (seqOf "AAAGCCC") = Some (Return (_, _))).
  { vm_compute. reflexivity. }
  destruct (stats_start_first_end_last _ _ _ _ Hrun)
    as (first & lst & Hh & Hl & E1 & E2 & E3 & E4 & Hall).
  eexists _, _, first, lst. split; [exact Hrun|].
  repeat (split; [assumption|]).
  apply Hall. vm_compute. discriminate.
Defined.

(** * Empty input *)

(** C5, as the specification states it, fails: for an empty first sequence
    and B = ACGT nothing is rejected up front.  The scoring loop runs over
    the 1 x 5 grid and leaves its ten buffer slots 0, the traceback runs and
    emits nothing, and only then does the statistics step throw, with the
    same TypeError as for any input without a positive score. *)
Lemma empty_input_builds_grid_then_throws :
  fill "" "ACGT" = mkFill [0; 0; 0; 0; 0; 0; 0; 0; 0; 0] 0 0 /\
  traceback "" "ACGT" = Some (mkTrace (Some 0) [] 0 0 0 0) /\
  analize (seqOf "") (seqOf "ACGT") = Some (Throw (TypeError "iA")) /\
  analize (seqOf "") (seqOf "ACGT") = analize (seqOf "AAAA") (seqOf "TTTT").
Proof. repeat split; vm_compute; reflexivity. Qed.

(** C5, amended: when either residue string is empty no validation takes
    place; the scoring loop builds the degenerate (n+1) x (m+1) grid, every
    cell of which has score 0 and no predecessor, the maximal score stays 0
    at index 0, and the traceback emits no record. *)
Theorem empty_sequence_degenerate_grid (s1 s2 : string) :
  s1 = "" \/ s2 = "" ->
  let P := f_permutations (fill s1 s2) in
  Z.of_nat (length P) = (strlen s1 + 1) * (strlen s2 + 1) * 2 /\
  (forall i, score_at P i = 0 /\ next_at P i = 0) /\
  maxScore (fill s1 s2) = 0 /\ maxIndex (fill s1 s2) = 0 /\
  exists st, traceback s1 s2 = Some st /\ result st = [].
Proof.
  intros Hempty P.
  assert (Hedge : forall i, 0 <= i < permutationsTotal s1 s2 ->
                    i mod W s1 = 0 \/ i / W s1 = 0).
  { intros i Hi. destruct Hempty as [->| ->].
    - left. apply Z.mod_1_r.
    - right. apply Z.div_small. unfold permutationsTotal in Hi.
      change (H "") with 1 in Hi. lia. }
  assert (Hzero : forall i, score_at P i = 0 /\ next_at P i = 0).
  { intros i.
    destruct (decide (0 <= i < permutationsTotal s1 s2)) as [Hi|Hi];
      [|apply matrix_outside; lia].
    apply matrix_boundary. by apply Hedge. }
  assert (Hmax : maxScore (fill s1 s2) = 0 /\ maxIndex (fill s1 s2) = 0).
  { destruct (matrix_max_cases s1 s2) as [?|(_ & Hr & [Hx Hy] & _)]; [done|].
    destruct (Hedge _ Hr); done. }
  destruct Hmax as [Hmax Hmi].
  split; [apply matrix_length|].
  split; [done|]. split; [done|]. split; [done|].
  exists (trace_init (fill s1 s2)). split; [by apply zero_max_traceback|done].
Qed.

Lemma empty_sequence_degenerate_grid_witness :
  let P := f_permutations (fill "ACGT" "") in
  Z.of_nat (length P) = (strlen "ACGT" + 1) * (strlen "" + 1) * 2 /\
  (forall i, score_at P i = 0 /\ next_at P i = 0) /\
  maxScore (fill "ACGT" "") = 0 /\ maxIndex (fill "ACGT" "") = 0 /\
  exists st, traceback "ACGT" "" = Some st /\ result st = [].
Proof.
  apply (empty_sequence_degenerate_grid "ACGT" ""). right. reflexivity.
Defined.

(** * Swapping the two sequences *)

(** C7, as the specification states it, fails: CCCAATAA against AAGAACCC
    aligns 5 records with 4 matches, while AAGAACCC against CCCAATAA
    aligns 3 records, all matches. *)
Lemma swap_changes_length_and_percent :
  ~ (forall al1 st1 al2 st2,
       analize (seqOf "CCCAATAA") (seqOf "AAGAACCC") = Some (Return (al1, st1)) ->
       analize (seqOf "AAGAACCC") (seqOf "CCCAATAA") = Some (Return (al2, st2)) ->
       alignmentLength st1 = alignmentLength st2 /\
       (alignmentMatchPercent st1 == alignmentMatchPercent st2)%Q).
Proof.
  intros Hclaim.
  eassert (Hab : analize (seqOf "CCCAATAA") (seqOf "AAGAACCC")
                 = Some (Return (_, _))).
  { vm_compute. reflexivity. }
  eassert (Hba : analize (seqOf "AAGAACCC") (seqOf "CCCAATAA")
                 = Some (Return (_, _))).
  { vm_compute. reflexivity. }
  destruct (Hclaim _ _ _ _ Hab Hba) as [Hlen _].
  vm_compute in Hlen. discriminate.
Qed.

(** C7, amended: aligning (A, B) and (B, A) fills transposed score
    matrices, so both runs find the same maximal score over the same number
    of cells, and one throws exactly when the other does. *)
Theorem swap_same_max_score (seq1 seq2 : Sequence) :
  maxScore (fill (sequence seq1) (sequence seq2))
    = maxScore (fill (sequence seq2) (sequence seq1)) /\
  permutationsTotal (sequence seq1) (sequence seq2)
    = permutationsTotal (sequence seq2) (sequence seq1) /\
  throws (analize seq1 seq2) = throws (analize seq2 seq1).
Proof.
  assert (Hmax : maxScore (fill (sequence seq1) (sequence seq2))
                 = maxScore (fill (sequence seq2) (sequence seq1))).
  { pose proof (maxScore_le_swap (sequence seq1) (sequence seq2)).
    pose proof (maxScore_le_swap (sequence seq2) (sequence seq1)). lia. }
  split; [done|]. split.
  - unfold permutationsTotal, W, H. lia.
  - rewrite !analize_throws_iff, Hmax. done.
Qed.

(** * [parseFasta]: splitting and trimming *)

Lemma append_cons c (a b : string) :
  (String c a ++ b)%string = String c (a ++ b).
Proof. reflexivity. Qed.

Lemma append_nil (b : string) : (EmptyString ++ b)%string = b.
Proof. reflexivity. Qed.

Lemma string_append_assoc (a b c : string) :
  ((a ++ b) ++ c)%string = (a ++ (b ++ c))%string.
Proof.
  induction a as [|d a IH]; [done|]. rewrite !append_cons. congruence.
Qed.

Lemma has_char_app c a b :
  has_char c (a ++ b) = has_char c a || has_char c b.
Proof.
  induction a as [|d a IH]; [done|].
  rewrite append_cons. cbn [has_char]. rewrite IH. apply orb_assoc.
Qed.

Lemma is_space_LF : is_space LF = true.
Proof. reflexivity. Qed.

Lemma is_space_CR : is_space CR = true.
Proof. reflexivity. Qed.

Lemma trim_end_last_space s : last_space (trim_end s) = false.
Proof.
  induction s as [|c r IH]; simpl; [done|].
  destruct (trim_end r) as [|d r'] eqn:E.
  - destruct (is_space c) eqn:Ec; simpl; [done|]. by rewrite Ec.
  - simpl. simpl in IH. done.
Qed.

Lemma clean_line_last_space l : clean_line l -> last_space l = false.
Proof.
  intros [_ Ht]. rewrite <- Ht. unfold trim. apply trim_end_last_space.
Qed.

(** A text without line feed is one line. *)
Lemma split_lines_single l : has_char LF l = false -> split_lines l = [l].
Proof.
  induction l as [|c r IH]; [done|].
  cbn [has_char]. intros [Hc Hr]%orb_false_iff.
  cbn [split_lines]. rewrite Hc, (IH Hr).
  destruct r as [|c2 r2]; [done|].
  assert (Hc2 : Ascii.eqb c2 LF = false).
  { cbn [has_char] in Hr. by apply orb_false_iff in Hr as [? _]. }
  rewrite Hc2, andb_false_r. done.
Qed.

(** A line without line feed that does not end in white space, followed by
    a separator, is split off whole. *)
Lemma split_lines_sep l sep t :
  has_char LF l = false -> last_space l = false -> is_separator sep ->
  split_lines (l ++ sep ++ t) = l :: split_lines t.
Proof.
  intros Hlf Hls Hsep. induction l as [|c r IH].
  - destruct Hsep as [-> | ->]; reflexivity.
  - simpl in Hlf. apply orb_false_iff in Hlf as [Hc Hr].
    change ((String c r ++ sep ++ t)%string) with (String c (r ++ sep ++ t)).
    cbn [split_lines]. rewrite Hc.
    destruct r as [|c2 r2].
    + (* the last character of the line: not CR, since CR is white space *)
      simpl in Hls.
      assert (Hcr : Ascii.eqb c CR = false).
      { destruct (Ascii.eqb_spec c CR) as [->|]; [|done].
        rewrite is_space_CR in Hls. done. }
      destruct Hsep as [-> | ->]; simpl; rewrite Hcr; reflexivity.
    + assert (Hc2 : Ascii.eqb c2 LF = false).
      { cbn [has_char] in Hr. by apply orb_false_iff in Hr as [? _]. }
      rewrite (IH Hr Hls).
      change ((String c2 r2 ++ sep ++ t)%string)
        with (String c2 (r2 ++ sep ++ t)).
      cbn iota. rewrite Hc2, andb_false_r. done.
Qed.

(** Joining clean lines and splitting the text gives the lines back, also
    when more text follows a separator. *)
Lemma split_join_more sep ls t :
  is_separator sep -> Forall clean_line ls -> ls <> [] ->
  split_lines (join_lines sep ls ++ sep ++ t) = ls ++ split_lines t.
Proof.
  intros Hsep Hall Hne. induction Hall as [|l ls [Hlf Ht] Hall IH]; [done|].
  destruct ls as [|l2 ls].
  - simpl. apply split_lines_sep; [done| |done].
    by apply clean_line_last_space.
  - change (join_lines sep (l :: l2 :: ls))
      with ((l ++ sep ++ join_lines sep (l2 :: ls))%string).
    rewrite !string_append_assoc.
    rewrite split_lines_sep; [|done|by apply clean_line_last_space|done].
    rewrite IH by done. done.
Qed.

Lemma split_join sep ls :
  is_separator sep -> Forall clean_line ls -> ls <> [] ->
  split_lines (join_lines sep ls) = ls.
Proof.
  intros Hsep Hall Hne. induction Hall as [|l ls [Hlf Ht] Hall IH]; [done|].
  destruct ls as [|l2 ls].
  - simpl. by apply split_lines_single.
  - change (join_lines sep (l :: l2 :: ls))
      with ((l ++ sep ++ join_lines sep (l2 :: ls))%string).
    rewrite split_lines_sep; [|done|by apply clean_line_last_space|done].
    rewrite IH by done. done.
Qed.

(** * [parseFasta]: the loop *)

Lemma is_empty_true s : is_empty s = true <-> s = EmptyString.
Proof. destruct s; simpl; split; congruence. Qed.

Lemma append_empty_r s : (s ++ EmptyString)%string = s.
Proof. induction s as [|c s IH]; [done|]. rewrite append_cons. congruence. Qed.

(** Clean lines that are no headers are appended to the sequence. *)
Lemma parse_lines_body body more sequence name :
  Forall clean_line body -> Forall (fun l => is_header l = false) body ->
  parse_lines (body ++ more) sequence name
  = parse_lines more (sequence ++ concat_lines body) name.
Proof.
  intros Hclean. revert sequence.
  induction Hclean as [|l body [_ Ht] Hclean IH]; intros sequence Hhead.
  - simpl. by rewrite append_empty_r.
  - inversion Hhead as [|? ? Hl Hhead']; subst.
    cbn [app parse_lines]. rewrite Ht.
    destruct (is_empty l) eqn:El.
    + apply is_empty_true in El as ->. apply IH. done.
    + rewrite Hl. rewrite IH by done. simpl.
      by rewrite string_append_assoc.
Qed.

Lemma is_header_nonempty l : is_header l = true -> is_empty l = false.
Proof. by destruct l. Qed.

Lemma has_char_trim_start c s :
  has_char c s = false -> has_char c (trim_start s) = false.
Proof.
  induction s as [|d s IH]; [done|]. cbn [has_char trim_start].
  intros [Hd Hs]%orb_false_iff.
  destruct (is_space d); [by apply IH|]. cbn [has_char]. by rewrite Hd, Hs.
Qed.

Lemma has_char_trim_end c s :
  has_char c s = false -> has_char c (trim_end s) = false.
Proof.
  induction s as [|d s IH]; [done|]. cbn [has_char trim_end].
  intros [Hd Hs]%orb_false_iff. specialize (IH Hs).
  destruct (trim_end s) as [|e r].
  - destruct (is_space d); [done|]. cbn [has_char]. by rewrite Hd.
  - cbn [has_char] in *. by rewrite Hd, IH.
Qed.

Lemma has_char_trim c s : has_char c s = false -> has_char c (trim s) = false.
Proof. intros Hs. by apply has_char_trim_end, has_char_trim_start. Qed.

(** No line that [split] returns contains a line feed. *)
Lemma split_lines_no_lf s :
  Forall (fun l => has_char LF l = false) (split_lines s).
Proof.
  induction s as [|c rest IH]; [by repeat constructor|].
  cbn [split_lines]. destruct (Ascii.eqb c LF) eqn:Hc; [by constructor|].
  assert (Hpush : Forall (fun l => has_char LF l = false)
                    (push_char c (split_lines rest))).
  { destruct (split_lines rest) as [|l ls]; cbn [push_char].
    - repeat constructor. cbn [has_char]. by rewrite Hc.
    - inversion IH; subst. constructor; [|done]. cbn [has_char]. by rewrite Hc. }
  destruct rest as [|c2 rest2]; [done|].
  destruct (Ascii.eqb c CR && Ascii.eqb c2 LF) eqn:Hcr; [|done].
  apply andb_true_iff in Hcr as [_ Hc2].
  cbn [split_lines] in IH. rewrite Hc2 in IH. inversion IH; subst.
  by constructor.
Qed.

(** What the loop keeps true of [sequence] and [name]. *)
Lemma parse_lines_invariant lines sq nm :
  Forall (fun l => has_char LF l = false) lines ->
  has_char LF sq = false -> has_char LF nm = false ->
  nm = EmptyString \/ is_header nm = true ->
  let r := parse_lines lines sq nm in
  has_char LF (sequence r) = false /\
  has_char LF (name r) = false /\
  (name r = EmptyString \/ is_header (name r) = true).
Proof.
  intros Hlines. revert sq nm.
  induction Hlines as [|raw rest Hraw Hrest IH]; intros sq nm Hs Hn Hh;
    [done|].
  cbn [parse_lines]. cbv zeta.
  pose proof (has_char_trim LF raw Hraw) as Ht.
  destruct (is_empty (trim raw)); [by apply IH|].
  destruct (is_header (trim raw)) eqn:Hhd.
  - destruct (is_empty sq); cbn [negb].
    + apply IH; [done|done|by right].
    + cbn [sequence name]. split; [done|]. split; [done|by right].
  - apply IH; [|done|done]. rewrite has_char_app. by rewrite Hs, Ht.
Qed.

(** * [parseFasta]: what a caller gets *)

(** X1: A single record -- a header line followed by residue lines, written
    with LF or CRLF line ends, blank lines allowed -- parses to the header
    (with its [>]) as name and to the residue lines joined as sequence. *)
Theorem parseFasta_record (sep hdr : string) (body : list string) :
  is_separator sep ->
  clean_line hdr -> is_header hdr = true ->
  Forall clean_line body -> Forall (fun l => is_header l = false) body ->
  parseFasta (join_lines sep (hdr :: body)) = mkSequence hdr (concat_lines body).
Proof.
  intros Hsep Hhdr Hhead Hbody Hnohead.
  unfold parseFasta. rewrite split_join; [|done|by constructor|done].
  cbn [parse_lines]. cbv zeta. destruct Hhdr as [_ ->].
  rewrite (is_header_nonempty _ Hhead), Hhead. cbn [is_empty negb].
  rewrite <- (app_nil_r body) at 1. rewrite parse_lines_body by done.
  reflexivity.
Qed.

Lemma parseFasta_record_witness :
  parseFasta (join_lines (String CR (String LF ""))
                [">seq one"; "ACGT"; ""; "TTGA"])
  = mkSequence ">seq one" (concat_lines ["ACGT"; ""; "TTGA"]).
Proof.
  apply (parseFasta_record (String CR (String LF "")) ">seq one"
           ["ACGT"; ""; "TTGA"]).
  - right. reflexivity.
  - split; reflexivity.
  - reflexivity.
  - repeat constructor.
  - repeat constructor.
Defined.

(** X2: When a second header follows a record with residues, the loop stores
    that header as the name and then stops: the result pairs the first
    record's residues with the second record's header, whatever follows. *)
Theorem parseFasta_second_header (sep hdr1 hdr2 t : string)
    (body1 : list string) :
  is_separator sep ->
  clean_line hdr1 -> is_header hdr1 = true ->
  Forall clean_line body1 -> Forall (fun l => is_header l = false) body1 ->
  concat_lines body1 <> EmptyString ->
  clean_line hdr2 -> is_header hdr2 = true ->
  parseFasta (join_lines sep (hdr1 :: body1 ++ [hdr2]))
    = mkSequence hdr2 (concat_lines body1) /\
  parseFasta (join_lines sep (hdr1 :: body1 ++ [hdr2]) ++ sep ++ t)
    = mkSequence hdr2 (concat_lines body1).
Proof.
  intros Hsep Hhdr1 Hhead1 Hbody Hnohead Hres Hhdr2 Hhead2.
  assert (Hall : Forall clean_line (hdr1 :: body1 ++ [hdr2])).
  { constructor; [done|]. apply Forall_app. split; [done|by constructor]. }
  assert (Hrun : forall more,
    parse_lines ((hdr1 :: body1 ++ [hdr2]) ++ more) EmptyString EmptyString
    = mkSequence hdr2 (concat_lines body1)).
  { intros more. cbn [app parse_lines]. cbv zeta.
    destruct Hhdr1 as [_ ->].
    rewrite (is_header_nonempty _ Hhead1), Hhead1. cbn [is_empty negb].
    rewrite <- app_assoc, parse_lines_body by done.
    cbn [app parse_lines]. cbv zeta. destruct Hhdr2 as [_ ->].
    rewrite (is_header_nonempty _ Hhead2), Hhead2.
    rewrite append_nil.
    destruct (is_empty (concat_lines body1)) eqn:E; [|done].
    by apply is_empty_true in E. }
  unfold parseFasta. split.
  - rewrite split_join by done. rewrite <- (app_nil_r (hdr1 :: _)). apply Hrun.
  - rewrite split_join_more by done. apply Hrun.
Qed.

Lemma parseFasta_second_header_witness :
  parseFasta (join_lines (String LF "") (">first" :: ["ACGT"; "TT"] ++ [">second"]))
    = mkSequence ">second" (concat_lines ["ACGT"; "TT"]) /\
  parseFasta (join_lines (String LF "") (">first" :: ["ACGT"; "TT"] ++ [">second"])
              ++ String LF "" ++ "CCCC")
    = mkSequence ">second" (concat_lines ["ACGT"; "TT"]).
Proof.
  apply (parseFasta_second_header (String LF "") ">first" ">second" "CCCC"
           ["ACGT"; "TT"]).
  - left. reflexivity.
  - split; reflexivity.
  - reflexivity.
  - repeat constructor.
  - repeat constructor.
  - discriminate.
  - split; reflexivity.
  - reflexivity.
Defined.

(** X3: Whatever the text, the parsed sequence and name contain no line feed,
    and the name is empty or a line that begins with [>]. *)
Theorem parseFasta_no_line_feed (fasta : string) :
  has_char LF (sequence (parseFasta fasta)) = false /\
  has_char LF (name (parseFasta fasta)) = false /\
  (name (parseFasta fasta) = EmptyString \/
   is_header (name (parseFasta fasta)) = true).
Proof.
  unfold parseFasta.
  apply (parse_lines_invariant (split_lines fasta) EmptyString EmptyString);
    [apply split_lines_no_lf|done|done|by left].
Qed.

(** * The constructor *)

(** A residue of A equal to a residue of B gives its cell a positive score. *)
Lemma common_residue_positive s1 s2 :
  common_residue s1 s2 -> 0 < maxScore (fill s1 s2).
Proof.
  intros (i & j & Hi & Hj & Heq).
  destruct (cell_index_coords s1 (i + 1) (j + 1)) as [Ex Ey]; [lia|].
  pose proof (matrix_max_computed s1 s2 (cell_index s1 (i + 1) (j + 1))) as Hub.
  unfold computed in Hub. rewrite Ex, Ey in Hub.
  specialize (Hub ltac:(apply cell_index_range; lia)
                  ltac:(apply cell_index_interior; lia)).
  pose proof (matrix_score_nonneg s1 s2 (iD s1 (i + 1) (j + 1))) as Hd.
  unfold cellScore, myScore in Hub. unfold score_at in Hd.
  assert (Hp : permScore s1 s2 (i + 1) (j + 1) = 1).
  { unfold permScore. replace (i + 1 - 1) with i by lia.
    replace (j + 1 - 1) with j by lia.
    apply same_residue_true in Heq. by rewrite Heq. }
  lia.
Qed.

(** A positive maximal score is found on a pair of equal residues. *)
Lemma positive_common_residue s1 s2 :
  0 < maxScore (fill s1 s2) -> common_residue s1 s2.
Proof.
  intros Hpos.
  pose proof (max_cell_equal s1 s2 Hpos) as Heq.
  destruct (matrix_max_interior s1 s2 Hpos) as (Hr & Hx & Hy).
  pose proof (W_pos s1) as HW.
  pose proof (coord_x_range (W s1) HW (maxIndex (fill s1 s2))) as Hxr.
  pose proof (coord_y_range (W s1) HW (maxIndex (fill s1 s2)) (H s2) Hr) as Hyr.
  assert (HWe : W s1 = strlen s1 + 1) by done.
  assert (HHe : H s2 = strlen s2 + 1) by done.
  exists (maxIndex (fill s1 s2) mod W s1 - 1), (maxIndex (fill s1 s2) / W s1 - 1).
  split; [lia|]. split; [lia|done].
Qed.

(** X4: When the grid of the two parsed sequences has at most 2^24 cells,
    the constructor returns an [Aligner] exactly when the sequences have a
    residue in common; otherwise -- in particular when a text holds no
    residue line -- it throws the TypeError of the statistics step. *)
Theorem constructor_returns_iff_common_residue (fasta1 fasta2 : string) :
  exact_grid (sequence (parseFasta fasta1)) (sequence (parseFasta fasta2)) ->
  ((exists a, Aligner_new fasta1 fasta2 = Some (Return a)) <->
   common_residue (sequence (parseFasta fasta1)) (sequence (parseFasta fasta2))) /\
  (Aligner_new fasta1 fasta2 = Some (Throw (TypeError "iA")) <->
   ~ common_residue (sequence (parseFasta fasta1)) (sequence (parseFasta fasta2))).
Proof.
  set (seq1 := parseFasta fasta1). set (seq2 := parseFasta fasta2). intros Hex.
  pose proof (analize_throws_iff seq1 seq2) as Hth.
  pose proof (maxScore_nonneg (sequence seq1) (sequence seq2)) as Hnn.
  destruct (analize_total seq1 seq2 Hex) as [c Hc].
  unfold Aligner_new, new_Aligner. fold seq1 seq2. rewrite Hc in Hth |- *.
  destruct c as [[al s]|e]; simpl in Hth; symmetry in Hth.
  - apply Z.eqb_neq in Hth.
    assert (Hcr : common_residue (sequence seq1) (sequence seq2))
      by (apply positive_common_residue; lia).
    split; split; try done. intros _. eauto.
  - apply Z.eqb_eq in Hth.
    assert (Hcr : ~ common_residue (sequence seq1) (sequence seq2)).
    { intros Hcr%common_residue_positive. lia. }
    destruct (analize_thrown seq1 seq2 e Hc) as (st & Ht & Hnil).
    assert (He : e = TypeError "iA").
    { unfold analize in Hc. rewrite Ht in Hc. unfold make_stats in Hc.
      rewrite Hnil in Hc. congruence. }
    subst e. split; split; try done. intros [a Ha]. done.
Qed.

Lemma constructor_returns_iff_common_residue_witness :
  exact_grid (sequence (parseFasta ">a
ACGT")) (sequence (parseFasta ">b
TTGA")) /\
  exists a, Aligner_new ">a
ACGT" ">b
TTGA" = Some (Return a).
Proof.
  assert (Hex : exact_grid (sequence (parseFasta ">a
ACGT")) (sequence (parseFasta ">b
TTGA"))) by (vm_compute; discriminate).
  split; [exact Hex|].
  apply (constructor_returns_iff_common_residue _ _ Hex).
  exists 0, 3. vm_compute. repeat split; discriminate.
Defined.

(** * The maximal cell *)

(** X5: When the shorter sequence has at most 2^24 residues, [maxIndex]
    is the first cell, in scan order, whose score is the largest of the
    matrix: no cell scores more than [maxScore], the cell [maxIndex] scores
    exactly [maxScore], and every cell before it scores less. *)
Theorem max_index_is_first_maximum (s1 s2 : string) :
  Z.min (strlen s1) (strlen s2) <= 2 ^ 24 ->
  let P := f_permutations (fill s1 s2) in
  (forall j, score_at P j <= maxScore (fill s1 s2)) /\
  score_at P (maxIndex (fill s1 s2)) = maxScore (fill s1 s2) /\
  0 <= maxIndex (fill s1 s2) < permutationsTotal s1 s2 /\
  (forall i, 0 <= i < maxIndex (fill s1 s2) ->
     score_at P i < maxScore (fill s1 s2)).
Proof.
  intros Hmin P.
  split; [apply matrix_max_ub|].
  split; [by apply short_max_at|].
  split; [apply matrix_max_range|].
  intros i Hi. by apply short_max_strict.
Qed.

Lemma max_index_is_first_maximum_witness :
  Z.min (strlen "CCCAATAA") (strlen "AAGAACCC") <= 2 ^ 24 /\
  let P := f_permutations (fill "CCCAATAA" "AAGAACCC") in
  (forall j, score_at P j <= maxScore (fill "CCCAATAA" "AAGAACCC")) /\
  score_at P (maxIndex (fill "CCCAATAA" "AAGAACCC"))
    = maxScore (fill "CCCAATAA" "AAGAACCC") /\
  0 <= maxIndex (fill "CCCAATAA" "AAGAACCC")
    < permutationsTotal "CCCAATAA" "AAGAACCC" /\
  (forall i, 0 <= i < maxIndex (fill "CCCAATAA" "AAGAACCC") ->
     score_at P i < maxScore (fill "CCCAATAA" "AAGAACCC")).
Proof.
  assert (Hmin : Z.min (strlen "CCCAATAA") (strlen "AAGAACCC") <= 2 ^ 24)
    by (vm_compute; discriminate).
  split; [exact Hmin|].
  apply (max_index_is_first_maximum "CCCAATAA" "AAGAACCC" Hmin).
Defined.

(** * Termination of the traceback *)

(** X6: On a grid of at most 2^24 cells the [while (true)] loop always
    reaches its [break]: started at the maximal cell it needs no more than
    [maxIndex] runs of its body and one last test, and a larger bound on
    the iterations changes nothing. *)
Theorem traceback_loop_breaks (s1 s2 : string) (fuel : nat) :
  exact_grid s1 s2 ->
  maxIndex (fill s1 s2) < Z.of_nat fuel ->
  let P := f_permutations (fill s1 s2) in
  exists st,
    trace_loop s1 s2 fuel P (trace_init (fill s1 s2)) = Some st /\
    traceback s1 s2 = Some st /\
    trace_done P st = true.
Proof.
  intros Hex Hfuel P.
  destruct (trace_loop_total s1 s2 Hex fuel (trace_init (fill s1 s2))
              (maxIndex (fill s1 s2)))
    as (st & Hl & Hinv & Hd); [by apply trace_inv_init|done|done|].
  destruct (traceback_total s1 s2 Hex) as (st' & Ht & _ & _).
  assert (st' = st) as ->.
  { unfold traceback in Ht.
    destruct (Nat.le_ge_cases fuel (S (Z.to_nat (permutationsTotal s1 s2))))
      as [Hle|Hle].
    - pose proof (trace_loop_more s1 s2 _ _ _ _ _ Hl Hle) as E. congruence.
    - pose proof (trace_loop_more s1 s2 _ _ _ _ _ Ht Hle) as E. congruence. }
  exists st. done.
Qed.

Lemma traceback_loop_breaks_witness :
  exact_grid "ACGT" "AGT" /\
  let P := f_permutations (fill "ACGT" "AGT") in
  exists st,
    trace_loop "ACGT" "AGT" 100 P (trace_init (fill "ACGT" "AGT")) = Some st /\
    traceback "ACGT" "AGT" = Some st /\
    trace_done P st = true.
Proof.
  assert (Hex : exact_grid "ACGT" "AGT") by (vm_compute; discriminate).
  split; [exact Hex|].
  apply (traceback_loop_breaks "ACGT" "AGT" 100 Hex). vm_compute. reflexivity.
Defined.

(** * The statistics of a returned alignment *)

Lemma count_res_rev f l : count_res f (rev l) = count_res f l.
Proof.
  induction l as [|r l IH]; [done|]. cbn [rev]. rewrite count_res_snoc, IH.
  unfold count_res. cbn [List.filter]. destruct (f (res r)); simpl length; lia.
Qed.

Lemma count_res_range f l : 0 <= count_res f l <= Z.of_nat (length l).
Proof.
  unfold count_res. pose proof (List.filter_length_le (fun r => f (res r)) l). lia.
Qed.





(** * Bounds on the scores *)

Lemma permScore_le_one s1 s2 x y : permScore s1 s2 x y <= 1.
Proof. destruct (permScore_cases s1 s2 x y) as [[-> _]|[-> _]]; lia. Qed.

(** The coordinates of the maximal cell. *)
Lemma max_index_coords s1 s2 :
  0 <= maxIndex (fill s1 s2) mod W s1 <= strlen s1 /\
  0 <= maxIndex (fill s1 s2) / W s1 <= strlen s2.
Proof.
  pose proof (matrix_max_range s1 s2) as Hr.
  pose proof (W_pos s1) as HW.
  pose proof (coord_x_range (W s1) HW (maxIndex (fill s1 s2))) as Hxr.
  pose proof (coord_y_range (W s1) HW (maxIndex (fill s1 s2)) (H s2) Hr) as Hyr.
  assert (HWe : W s1 = strlen s1 + 1) by done.
  assert (HHe : H s2 = strlen s2 + 1) by done.
  lia.
Qed.

(** X8: A local alignment ending at cell (x, y) has at most min(x, y) matches:
    no cell scores more than the smaller of its coordinates, and the maximal
    score is at most the length of the shorter sequence. *)
Theorem score_at_most_min_coordinate (s1 s2 : string) (x y : Z) :
  0 <= x <= strlen s1 -> 0 <= y <= strlen s2 ->
  score_at (f_permutations (fill s1 s2)) (cell_index s1 x y) <= Z.min x y /\
  maxScore (fill s1 s2) <= Z.min (strlen s1) (strlen s2).
Proof.
  intros Hx Hy. split; [by apply score_le_min|].
  destruct (matrix_max_cases s1 s2) as [[-> _]|(Hpos & _ & _ & <-)]; [lia|].
  destruct (matrix_max_interior s1 s2 Hpos) as (_ & Hx1 & Hy1).
  destruct (max_index_coords s1 s2) as [Hxr Hyr].
  destruct (score_le_min s1 s2 (maxIndex (fill s1 s2) mod W s1)
              (maxIndex (fill s1 s2) / W s1)) as [_ Hc]; [lia|lia|].
  unfold computed. specialize (Hc Hx1 Hy1). lia.
Qed.

Lemma score_at_most_min_coordinate_witness :
  score_at (f_permutations (fill "ACACACTA" "AGCACACA"))
           (cell_index "ACACACTA" 6 7) <= Z.min 6 7 /\
  maxScore (fill "ACACACTA" "AGCACACA")
    <= Z.min (strlen "ACACACTA") (strlen "AGCACACA").
Proof.
  apply (score_at_most_min_coordinate "ACACACTA" "AGCACACA" 6 7);
    unfold strlen; simpl; lia.
Defined.

(** * Aligning a sequence with itself *)

Section SelfAlignment.

Variable s : string.
Hypothesis Hex : exact_grid s s.

Local Abbreviation P := (f_permutations (fill s s)).
Local Abbreviation n := (strlen s).

Lemma self_permScore x : permScore s s x x = 1.
Proof.
  destruct (permScore_cases s s x x) as [[-> _]|[_ Hne]]; done.
Qed.

(** On the main diagonal the score counts the residues so far, and the
    stored predecessor is the diagonal neighbour. *)
Lemma self_diagonal x :
  0 <= x <= n ->
  score_at P (cell_index s x x) = x /\
  (1 <= x -> next_at P (cell_index s x x) = cell_index s (x - 1) (x - 1)).
Proof.
  intros Hx. remember (Z.to_nat x) as k eqn:Ek. revert x Hx Ek.
  induction k as [|k IH]; intros x Hx Ek.
  - assert (x = 0) as -> by lia.
    destruct (grid_boundary s s 0 0) as [-> _]; [lia|by left|].
    split; [done|lia].
  - destruct (IH (x - 1)) as [Hd _]; [lia|lia|].
    destruct (grid_interior s s Hex x x) as [Hs Hn]; [lia|lia|].
    destruct (score_le_min s s (x - 1) x) as [Hl _]; [lia|lia|].
    destruct (score_le_min s s x (x - 1)) as [Ht _]; [lia|lia|].
    assert (Em : myScore s s P x x = x).
    { unfold myScore.
      change (buf_get P (iD s x x * channels))
        with (score_at P (cell_index s (x - 1) (x - 1))).
      rewrite Hd, self_permScore. lia. }
    assert (El : lScore s P x x <= x - 2).
    { unfold lScore, gapPenalty.
      change (buf_get P (iL s x x * channels))
        with (score_at P (cell_index s (x - 1) x)). lia. }
    assert (Et : tScore s P x x <= x - 2).
    { unfold tScore, gapPenalty.
      change (buf_get P (iT s x x * channels))
        with (score_at P (cell_index s x (x - 1))). lia. }
    assert (Es : cellScore s s P x x = x) by (unfold cellScore; lia).
    split; [by rewrite Hs|]. intros _. rewrite Hn. unfold cellNext.
    rewrite Em, Es, Z.eqb_refl. done.
Qed.

Lemma self_max : maxScore (fill s s) = n /\ maxIndex (fill s s) = cell_index s n n.
Proof.
  assert (Hn : 0 <= n) by (unfold strlen; lia).
  destruct (self_diagonal n) as [Hd _]; [lia|].
  pose proof (matrix_max_ub s s (cell_index s n n)) as Hub.
  destruct (max_index_coords s s) as [Hxr Hyr].
  destruct (score_le_min s s _ _ Hxr Hyr) as [Hle _].
  rewrite index_cell_index, (matrix_max_at s s Hex) in Hle.
  split; [lia|].
  rewrite <- (index_cell_index s (maxIndex (fill s s))).
  f_equal; lia.
Qed.

Lemma diagonal_records_cons k len :
  0 < len ->
  diagonal_records k len = mkResidue k k GOOD_MATCH :: diagonal_records (k + 1) (len - 1).
Proof.
  intros Hlen. unfold diagonal_records. rewrite seqZ_cons by done.
  reflexivity.
Qed.

(** Walking back from the last cell, every record lies on the diagonal
    and is a match. *)
Lemma self_trail l :
  trail s s P (cell_index s n n) l ->
  l = [] \/ exists k, 0 <= k < n /\ l = diagonal_records k (n - k).
Proof.
  pose proof (W_pos s) as HW.
  assert (HWe : W s = n + 1) by done.
  induction l as [|r tl IH]; intros Htr; [by left|]. right.
  destruct Htr as ((HbA & HbB) & Hpos & Hres & Hlink & Htl).
  destruct r as [a b c]. cbn [iA iB res] in *. unfold cell_of in Hlink.
  cbn [iA iB] in Hlink.
  destruct tl as [|r' tl'].
  - unfold cell_index in Hlink.
    destruct (radix_unique (W s) (a + 1) (b + 1) n n) as [Ea Eb]; [lia|lia|lia|done|].
    assert (a = n - 1) as -> by lia. assert (b = n - 1) as -> by lia.
    rewrite classify_equal in Hres by done. subst c.
    exists (n - 1). split; [lia|].
    rewrite diagonal_records_cons by lia.
    unfold diagonal_records. rewrite seqZ_nil by lia. done.
  - destruct (IH Htl) as [?|(k & Hk & Etl)]; [done|].
    rewrite diagonal_records_cons in Etl by lia. injection Etl as -> Etl'.
    unfold cell_of in Hlink. cbn [iA iB] in Hlink.
    destruct (self_diagonal (k + 1)) as [_ Hnext]; [lia|].
    specialize (Hnext ltac:(lia)). unfold cell_index in Hnext.
    rewrite Hnext in Hlink.
    destruct (radix_unique (W s) (a + 1) (b + 1) (k + 1 - 1) (k + 1 - 1))
      as [Ea Eb]; [lia|lia|lia|done|].
    assert (a = k - 1) as -> by lia. assert (b = k - 1) as -> by lia.
    rewrite classify_equal in Hres by done. subst c.
    exists (k - 1). split; [lia|].
    rewrite (diagonal_records_cons (k - 1)) by lia.
    replace (k - 1 + 1) with k by lia.
    replace (n - (k - 1) - 1) with (n - k) by lia.
    rewrite diagonal_records_cons by lia. by rewrite Etl'.
Qed.

End SelfAlignment.

Lemma count_res_fmap_all f (g : Z -> ResidueResult) (l : list Z) :
  (forall i, f (res (g i)) = true) ->
  count_res f (g <$> l) = Z.of_nat (length l).
Proof.
  intros Hall. induction l as [|i l IH]; [done|].
  unfold count_res in *. rewrite fmap_cons. cbn [List.filter].
  rewrite Hall. cbn [length]. lia.
Qed.

Lemma diagonal_records_last k len :
  0 < len -> last (diagonal_records k len) = Some (mkResidue (k + len - 1) (k + len - 1) GOOD_MATCH).
Proof.
  intros Hlen. rewrite last_lookup. unfold diagonal_records.
  rewrite list_lookup_fmap, length_fmap, length_seqZ.
  rewrite lookup_seqZ_lt by lia. simpl.
  replace (k + Z.of_nat (Init.Nat.pred (Z.to_nat len))) with (k + len - 1) by lia.
  done.
Qed.

(** X9: Aligning a non-empty sequence with itself, on a grid of at most
    2^24 cells (a sequence of up to 4095 residues), returns the whole
    sequence, residue [i] against residue [i], every record a match: the
    length is the sequence length, the match fraction is 1, and both blocks
    run from 0 to the last index. *)
Theorem self_alignment_is_identity (seq1 seq2 : Sequence) :
  sequence seq1 = sequence seq2 -> sequence seq1 <> EmptyString ->
  exact_grid (sequence seq1) (sequence seq2) ->
  let n := strlen (sequence seq1) in
  exists st,
    analize seq1 seq2 = Some (Return (diagonal_records 0 n, st)) /\
    alignmentLength st = n /\ (alignmentMatchPercent st == 1)%Q /\
    start (sequence1 st) = 0 /\ end_ (sequence1 st) = n - 1 /\
    start (sequence2 st) = 0 /\ end_ (sequence2 st) = n - 1.
Proof.
  destruct seq1 as [nm1 s], seq2 as [nm2 s2]. cbn [sequence].
  intros <- Hne Hex. set (n := strlen s).
  assert (Hn : 1 <= n).
  { unfold n, strlen. destruct s; [done|]. simpl String.length. lia. }
  destruct (self_max s Hex) as [Hmax Hmi]. fold n in Hmax, Hmi.
  destruct (analize_positive_returns (mkSequence nm1 s) (mkSequence nm2 s))
    as (al & stt & Han); [done|cbn [sequence]; lia|].
  destruct (analize_returned _ _ _ _ Han) as (st0 & Ht & Eal & Hst).
  cbn [sequence] in Ht.
  destruct (traceback_final s s Hex st0 Ht) as [Hinv Hdone].
  pose proof (tinv_trail _ _ _ _ _ Hinv) as Htr.
  pose proof (tinv_matches _ _ _ _ _ Hinv) as Hm.
  destruct (trace_stopped s s st0 Hinv Hdone) as (nx & Hnx0 & Hstop).
  pose proof (tinv_next _ _ _ _ _ Hinv) as Hnx.
  rewrite Hnx in Hnx0. injection Hnx0 as Hnx'. clear Hnx.
  rewrite <- Eal in Htr, Hnx'. rewrite Hmi in Htr.
  destruct (make_stats_ends _ _ _ _ Hst)
    as (first & lst & Hh & Hl & E1 & E2 & E3 & E4).
  rewrite <- Eal in Hh, Hl.
  destruct (self_trail s Hex al Htr) as [->|(k & Hk & Ek)]; [done|].
  (* the walk stops only at the first residue *)
  assert (k = 0) as ->.
  { rewrite Ek, diagonal_records_cons in Hnx' by lia.
    unfold cell_of in Hnx'. cbn [iA iB] in Hnx'.
    destruct (self_diagonal s Hex (k + 1)) as [_ Hnext]; [fold n; lia|].
    specialize (Hnext ltac:(lia)). unfold cell_index in Hnext.
    rewrite Hnext in Hnx'.
    destruct (self_diagonal s Hex (k + 1 - 1)) as [Hsc _]; [fold n; lia|].
    unfold cell_index in Hsc. rewrite <- Hnx', Hsc in Hstop.
    pose proof (W_pos s). nia. }
  replace (strlen s - 0) with n in Ek by (unfold n; lia).
  rewrite Ek in Hh, Hl, Han, Eal.
  rewrite diagonal_records_cons in Hh by lia. injection Hh as <-.
  rewrite diagonal_records_last in Hl by lia. injection Hl as <-.
  cbn [iA iB] in *. replace (0 + n - 1) with (n - 1) in * by lia.
  assert (Hlen : Z.of_nat (length (result st0)) = n).
  { rewrite <- length_rev, <- Eal. unfold diagonal_records.
    rewrite length_fmap, length_seqZ. lia. }
  assert (Hcount : matches st0 = n).
  { rewrite Hm, <- count_res_rev, <- Eal. unfold diagonal_records.
    rewrite count_res_fmap_all by done. rewrite length_seqZ. lia. }
  exists stt. split; [done|].
  unfold make_stats in Hst. destruct (result st0) as [|r0 rest] eqn:E; [done|].
  injection Hst as <-. cbn [alignmentLength alignmentMatchPercent] in *.
  cbn [length] in *.
  split; [done|]. split; [|done].
  rewrite Hcount, Hlen. unfold Qdiv. apply Qmult_inv_r.
  unfold Qeq. simpl. lia.
Qed.

Lemma self_alignment_is_identity_witness :
  exact_grid "GATTACA" "GATTACA" /\
  exists st,
    analize (mkSequence ">a" "GATTACA") (mkSequence ">b" "GATTACA")
    = Some (Return (diagonal_records 0 (strlen "GATTACA"), st)) /\
    alignmentLength st = strlen "GATTACA" /\ (alignmentMatchPercent st == 1)%Q.
Proof.
  assert (Hex : exact_grid "GATTACA" "GATTACA") by (vm_compute; discriminate).
  split; [exact Hex|].
  destruct (self_alignment_is_identity (mkSequence ">a" "GATTACA")
              (mkSequence ">b" "GATTACA") eq_refl)
    as (st & Hrun & Hlen & Hpct & _); [discriminate|exact Hex|].
  exists st. split; [exact Hrun|]. split; [exact Hlen|exact Hpct].
Defined.

(** * The score of the returned alignment *)

Section PathScore.

Variables s1 s2 : string.
Hypothesis Hex : exact_grid s1 s2.

Local Abbreviation P := (f_permutations (fill s1 s2)).
Local Abbreviation Sc x y := (score_at P (cell_index s1 x y)).

(** The recurrence with the three neighbours named by their coordinates. *)
Lemma grid_recurrence x y :
  1 <= x <= strlen s1 -> 1 <= y <= strlen s2 ->
  Sc x y = Z.max (Z.max (Z.max (Sc (x - 1) (y - 1) + permScore s1 s2 x y)
                               (Sc (x - 1) y - 1))
                        (Sc x (y - 1) - 1)) 0.
Proof.
  intros Hx Hy. destruct (grid_interior s1 s2 Hex x y Hx Hy) as [-> _]. done.
Qed.

(** A gap costs 1: a cell scores at most 1 less than its left and top
    neighbours. *)
Lemma score_drop x y :
  0 <= x <= strlen s1 -> 0 <= y <= strlen s2 ->
  (1 <= x -> Sc (x - 1) y - 1 <= Sc x y) /\
  (1 <= y -> Sc x (y - 1) - 1 <= Sc x y).
Proof.
  intros Hx Hy.
  destruct (decide (x = 0 \/ y = 0)) as [Hb|Hi].
  - destruct (grid_boundary s1 s2 x y Hx Hb) as [-> _].
    split; intros H1.
    + destruct Hb as [? | ->]; [lia|].
      destruct (grid_boundary s1 s2 (x - 1) 0) as [-> _]; [lia|by right|lia].
    + destruct Hb as [-> | ?]; [|lia].
      destruct (grid_boundary s1 s2 0 (y - 1)) as [-> _]; [lia|by left|lia].
  - rewrite (grid_recurrence x y) by lia. lia.
Qed.

(** A match gains 1 after a gap cost 1: a cell scores at most 2 more than
    its left and top neighbours. *)
Lemma score_rise x y :
  0 <= x <= strlen s1 -> 0 <= y <= strlen s2 ->
  (1 <= y -> Sc x y <= Sc x (y - 1) + 2) /\
  (1 <= x -> Sc x y <= Sc (x - 1) y + 2).
Proof.
  intros Hx Hy.
  remember (Z.to_nat (x + y)) as k eqn:Ek. revert x y Hx Hy Ek.
  induction k as [k IH] using lt_wf_ind. intros x y Hx Hy Ek.
  destruct (decide (x = 0 \/ y = 0)) as [Hb|Hi].
  - destruct (grid_boundary s1 s2 x y Hx Hb) as [-> _].
    pose proof (matrix_score_nonneg s1 s2 (cell_index s1 x (y - 1))).
    pose proof (matrix_score_nonneg s1 s2 (cell_index s1 (x - 1) y)).
    lia.
  - rewrite (grid_recurrence x y) by lia.
    pose proof (permScore_le_one s1 s2 x y) as Hp.
    pose proof (matrix_score_nonneg s1 s2 (cell_index s1 x (y - 1))).
    pose proof (matrix_score_nonneg s1 s2 (cell_index s1 (x - 1) y)).
    destruct (score_drop x (y - 1)) as [Hd1 _]; [lia|lia|].
    destruct (score_drop (x - 1) y) as [_ Hd2]; [lia|lia|].
    destruct (IH (Z.to_nat (x - 1 + y)) ltac:(lia) (x - 1) y
                ltac:(lia) ltac:(lia) eq_refl) as [Hv _].
    destruct (IH (Z.to_nat (x + (y - 1))) ltac:(lia) x (y - 1)
                ltac:(lia) ltac:(lia) eq_refl) as [_ Hh].
    specialize (Hd1 ltac:(lia)). specialize (Hd2 ltac:(lia)).
    specialize (Hv ltac:(lia)). specialize (Hh ltac:(lia)).
    lia.
Qed.

(** From a cell of positive score to its stored predecessor the score
    drops by 1 when the cell pairs equal residues (the predecessor is then
    the diagonal neighbour) and rises by 1 when it does not. *)
Lemma step_delta x y :
  1 <= x <= strlen s1 -> 1 <= y <= strlen s2 -> 0 < Sc x y ->
  Sc x y = score_at P (next_at P (cell_index s1 x y))
           + (if same_residue (char_at s1 (x - 1)) (char_at s2 (y - 1))
              then 1 else -1).
Proof.
  intros Hx Hy Hpos.
  destruct (grid_interior s1 s2 Hex x y Hx Hy) as [Hs Hn].
  rewrite Hn. rewrite Hs in Hpos |- *.
  destruct (score_rise (x - 1) y) as [Hv _]; [lia|lia|].
  destruct (score_rise x (y - 1)) as [_ Hh]; [lia|lia|].
  specialize (Hv ltac:(lia)). specialize (Hh ltac:(lia)).
  replace (x - 1 - 1) with (x - 1 - 1) in Hh by done.
  pose proof (matrix_score_nonneg s1 s2 (cell_index s1 (x - 1) (y - 1))) as Hnn.
  unfold cellNext, cellScore, myScore, lScore, tScore, gapPenalty, permScore,
    matchReward, mismatchPenalty, matchReward in *.
  change (buf_get P (iD s1 x y * channels)) with (Sc (x - 1) (y - 1)) in *.
  change (buf_get P (iL s1 x y * channels)) with (Sc (x - 1) y) in *.
  change (buf_get P (iT s1 x y * channels)) with (Sc x (y - 1)) in *.
  change (iD s1 x y) with (cell_index s1 (x - 1) (y - 1)).
  change (iL s1 x y) with (cell_index s1 (x - 1) y).
  change (iT s1 x y) with (cell_index s1 x (y - 1)).
  destruct (same_residue (char_at s1 (x - 1)) (char_at s2 (y - 1)));
    repeat match goal with
           | |- context [Z.eqb ?a ?b] => destruct (Z.eqb_spec a b)
           end; lia.
Qed.

(** Summed along the records walked so far: the score of the cell the walk
    started from is the score left to walk plus matches minus the other
    records. *)
Lemma trail_score start_cell r tl :
  trail s1 s2 P start_cell (r :: tl) ->
  score_at P start_cell
  = score_at P (next_at P (cell_of s1 r))
    + 2 * count_res is_match (r :: tl) - Z.of_nat (length (r :: tl)).
Proof.
  revert r. induction tl as [|r' tl IH]; intros r Htr.
  - destruct Htr as ((HbA & HbB) & Hpos & Hres & Hlink & _).
    rewrite <- Hlink.
    change (cell_of s1 r) with (cell_index s1 (iA r + 1) (iB r + 1)) in *.
    rewrite (step_delta (iA r + 1) (iB r + 1)) by (done || lia).
    replace (iA r + 1 - 1) with (iA r) by lia.
    replace (iB r + 1 - 1) with (iB r) by lia.
    unfold count_res. cbn [List.filter]. rewrite Hres. unfold classify.
    destruct (same_residue _ _); [simpl; lia|].
    destruct (_ =? _); [simpl; lia|]. destruct (_ =? _); simpl; lia.
  - pose proof Htr as ((HbA & HbB) & Hpos & Hres & Hlink & Htl).
    rewrite (IH r' Htl). rewrite <- Hlink.
    change (cell_of s1 r) with (cell_index s1 (iA r + 1) (iB r + 1)) in *.
    rewrite (step_delta (iA r + 1) (iB r + 1)) by (done || lia).
    replace (iA r + 1 - 1) with (iA r) by lia.
    replace (iB r + 1 - 1) with (iB r) by lia.
    unfold count_res. cbn [List.filter]. rewrite Hres. unfold classify.
    destruct (same_residue _ _); [cbn [is_match length]; simpl length; lia|].
    destruct (_ =? _); [cbn [is_match length]; simpl length; lia|].
    destruct (_ =? _); cbn [is_match length]; simpl length; lia.
Qed.

End PathScore.

(** X10: On a grid of at most 2^24 cells the maximal score of the matrix is
    the score of the alignment that is returned: its matches minus its
    other records, that is, twice the number of GOOD_MATCH records minus
    [alignmentLength]. *)
Theorem max_score_is_alignment_score (seq1 seq2 : Sequence)
    (al : list ResidueResult) (s : AlignmentStats) :
  exact_grid (sequence seq1) (sequence seq2) ->
  analize seq1 seq2 = Some (Return (al, s)) ->
  maxScore (fill (sequence seq1) (sequence seq2))
  = 2 * count_res is_match al - alignmentLength s.
Proof.
  intros Hex Han.
  destruct (analize_returned _ _ _ _ Han) as (st & Ht & -> & Hst).
  destruct (traceback_final _ _ Hex st Ht) as [Hinv Hdone].
  pose proof (tinv_trail _ _ _ _ _ Hinv) as Htr.
  destruct (trace_stopped _ _ st Hinv Hdone) as (nx & Hnx0 & Hstop).
  pose proof (tinv_next _ _ _ _ _ Hinv) as Hnx.
  rewrite Hnx in Hnx0. injection Hnx0 as Hnx'. clear Hnx.
  assert (Hlen : alignmentLength s = Z.of_nat (length (rev (result st)))).
  { rewrite length_rev. unfold make_stats in Hst.
    destruct (result st); [done|]. by injection Hst as <-. }
  destruct (make_stats_ends _ _ _ _ Hst) as (first & lst & Hh & _).
  destruct (rev (result st)) as [|r tl] eqn:E; [done|].
  rewrite Hlen, <- (matrix_max_at _ _ Hex).
  rewrite (trail_score _ _ Hex _ r tl Htr), Hnx'.
  assert (Hz : score_at (f_permutations (fill (sequence seq1) (sequence seq2)))
                 nx = 0).
  { pose proof (matrix_score_nonneg (sequence seq1) (sequence seq2) nx).
    destruct Hstop as [->|?]; [|lia].
    apply (matrix_boundary (sequence seq1) (sequence seq2) 0). left.
    apply Z.mod_0_l. pose proof (W_pos (sequence seq1)). lia. }
  rewrite Hz. lia.
Qed.

Lemma max_score_is_alignment_score_witness :
  exact_grid "AAAACCCC" "AAAAGGCCCC" /\
  exists al s,
    analize (seqOf "AAAACCCC") (seqOf "AAAAGGCCCC") = Some (Return (al, s)) /\
    maxScore (fill "AAAACCCC" "AAAAGGCCCC")
    = 2 * count_res is_match al - alignmentLength s.
Proof.
  assert (Hex : exact_grid "AAAACCCC" "AAAAGGCCCC") by (vm_compute; discriminate).
  split; [exact Hex|].
  eassert (Hrun : analize (seqOf "AAAACCCC") (seqOf "AAAAGGCCCC")
                  = Some (Return (_, _))).
  { vm_compute. reflexivity. }
  eexists _, _. split; [exact Hrun|].
  apply (max_score_is_alignment_score (seqOf "AAAACCCC") (seqOf "AAAAGGCCCC")
           _ _ Hex Hrun).
Defined.

(** * The strands *)

Lemma new_Aligner_returned seq1 seq2 a :
  new_Aligner seq1 seq2 = Some (Return a) ->
  analize seq1 seq2 = Some (Return (alignment a, stats a)) /\
  a_sequence1 a = seq1 /\ a_sequence2 a = seq2.
Proof.
  unfold new_Aligner. destruct (analize seq1 seq2) as [[[al s]|e]|]; [|done|done].
  intros [= <-]. done.
Qed.

(** What the strands use of a returned alignment: it is not empty, its
    indices never decrease, and they lie inside the sequences. *)
Lemma returned_alignment_shape seq1 seq2 al s :
  exact_grid (sequence seq1) (sequence seq2) ->
  analize seq1 seq2 = Some (Return (al, s)) ->
  al <> [] /\
  (forall k r r', al !! k = Some r -> al !! S k = Some r' -> advances r r') /\
  (forall j k r r', (j <= k)%nat -> al !! j = Some r -> al !! k = Some r' ->
     iA r <= iA r' /\ iB r <= iB r') /\
  (forall k r, al !! k = Some r ->
     0 <= iA r < strlen (sequence seq1) /\ 0 <= iB r < strlen (sequence seq2)).
Proof.
  intros Hex Han.
  destruct (analize_returned _ _ _ _ Han) as (st & Ht & -> & Hst).
  destruct (traceback_final _ _ Hex st Ht) as [Hinv _].
  pose proof (tinv_trail _ _ _ _ _ Hinv) as Htr.
  destruct (make_stats_ends _ _ _ _ Hst) as (first & _ & Hh & _).
  split; [by destruct (rev (result st))|]. split; [|split].
  - intros k r r' Hk Hk'. apply (trail_consecutive _ _ Hex _ _ _ _ Htr Hk Hk').
  - intros j k r r' Hjk Hj Hk.
    apply (trail_monotone _ _ Hex _ j k r r' Htr Hjk Hj Hk).
  - intros k r Hk. apply (trail_lookup_bounds _ _ _ k r Htr Hk).
Qed.

Section StrandLoop.

Variable aligner : Aligner.
Variable imA : bool.
Variables hd tl : ResidueResult.

Local Abbreviation al := (alignment aligner).
Local Abbreviation seqn := (mySequence aligner imA).
Local Abbreviation ownI := (own imA).
Local Abbreviation loop := (strand_loop aligner imA (ownI hd - 1) (ownI tl + 1)).

Hypothesis al_range : forall k r, al !! k = Some r -> ownI hd <= ownI r <= ownI tl.
Hypothesis hd_le_tl : ownI hd <= ownI tl.

(** Outside the aligned stretch every iteration lays the letter of the
    next residue, dimmed, and moves on by one. *)
Lemma loop_outside c m ai j :
  j + Z.of_nat c <= ownI hd \/ ownI tl + 1 <= j ->
  loop (c + m)%nat (ai, j)
  = (letter_particle seqn false <$> seqZ j (Z.of_nat c))
    ++ loop m (ai, j + Z.of_nat c).
Proof.
  revert j. induction c as [|c IH]; intros j Hout.
  - simpl. by rewrite Z.add_0_r.
  - cbn [Nat.add strand_loop strand_step].
    assert (Hr : (ownI hd - 1 <? j) && (j <? ownI tl + 1) = false).
    { destruct (Z.ltb_spec (ownI hd - 1) j), (Z.ltb_spec j (ownI tl + 1));
        simpl; try done. lia. }
    rewrite Hr. rewrite IH by lia.
    rewrite (seqZ_cons j) by lia. rewrite fmap_cons.
    replace (Z.succ j) with (j + 1) by lia.
    replace (Z.pred (Z.of_nat (S c))) with (Z.of_nat c) by lia.
    replace (j + 1 + Z.of_nat c) with (j + Z.of_nat (S c)) by lia.
    done.
Qed.

(** Inside it every iteration takes the next record: its colour, and its
    index as the next [sequenceIndex]. *)
Lemma loop_records rest done si m :
  al = done ++ rest -> ownI hd <= si <= ownI tl ->
  loop (length rest + m)%nat (Z.of_nat (length done) - 1, si)
  = (record_particle imA <$> rest)
    ++ loop m (Z.of_nat (length al) - 1,
               from_option ownI si (last rest)).
Proof.
  revert done si. induction rest as [|r rest IH]; intros done si Hal Hsi.
  - rewrite Hal, app_nil_r. done.
  - cbn [length Nat.add strand_loop strand_step].
    assert (Hr : (ownI hd - 1 <? si) && (si <? ownI tl + 1) = true).
    { apply andb_true_iff. split; apply Z.ltb_lt; lia. }
    rewrite Hr.
    assert (Hk : al !! length done = Some r).
    { rewrite Hal. by rewrite list_lookup_middle. }
    assert (Hget : array_get al (Z.of_nat (length done) - 1 + 1) = Some r).
    { unfold array_get. destruct (Z.ltb_spec (Z.of_nat (length done) - 1 + 1) 0);
        [lia|].
      replace (Z.to_nat (Z.of_nat (length done) - 1 + 1)) with (length done) by lia.
      done. }
    rewrite Hget.
    destruct (switch_color imA (res r)) as [c mt] eqn:Ec.
    rewrite fmap_cons. unfold record_particle at 1. rewrite Ec. cbn [fst snd].
    cbn [app]. f_equal.
    replace (Z.of_nat (length done) - 1 + 1)
      with (Z.of_nat (length (done ++ [r])) - 1)
      by (rewrite length_app; simpl; lia).
    rewrite (IH (done ++ [r]) (ownI r)).
    + destruct rest as [|r2 rest]; [done|]. rewrite last_cons_cons.
      destruct (last (r2 :: rest)) eqn:El; [done|]. by apply last_None in El.
    + by rewrite <- app_assoc.
    + by apply (al_range (length done)).
Qed.

(** Past the last record one more iteration is still in range: it lays the
    letter at the last aligned index, highlighted. *)
Lemma loop_after_records m :
  loop (S m) (Z.of_nat (length al) - 1, ownI tl)
  = letter_particle seqn true (ownI tl)
    :: loop m (Z.of_nat (length al), ownI tl + 1).
Proof.
  cbn [strand_loop strand_step].
  assert (Hr : (ownI hd - 1 <? ownI tl) && (ownI tl <? ownI tl + 1) = true).
  { apply andb_true_iff. split; apply Z.ltb_lt; lia. }
  rewrite Hr.
  assert (Hget : array_get al (Z.of_nat (length al) - 1 + 1) = None).
  { unfold array_get. destruct (Z.ltb_spec (Z.of_nat (length al) - 1 + 1) 0);
      [done|].
    apply lookup_ge_None. lia. }
  rewrite Hget.
  replace (Z.of_nat (length al) - 1 + 1) with (Z.of_nat (length al)) by lia.
  done.
Qed.

(** The whole loop: the residues before the alignment, one particle per
    record, the last aligned residue once more, the residues after it. *)
Lemma loop_layout :
  head al = Some hd -> last al = Some tl ->
  0 <= ownI hd -> ownI tl < strlen seqn ->
  loop (Z.to_nat (ownI hd + Z.of_nat (length al) + (strlen seqn - ownI tl)))
       (-1, 0)
  = (letter_particle seqn false <$> seqZ 0 (ownI hd))
    ++ (record_particle imA <$> al)
    ++ [letter_particle seqn true (ownI tl)]
    ++ (letter_particle seqn false
          <$> seqZ (ownI tl + 1) (strlen seqn - ownI tl - 1)).
Proof.
  intros Hh Hl Hhd Htl.
  set (a := Z.to_nat (ownI hd)).
  set (b := Z.to_nat (strlen seqn - ownI tl - 1)).
  replace (Z.to_nat (ownI hd + Z.of_nat (length al) + (strlen seqn - ownI tl)))
    with (a + (length al + S (b + 0)))%nat by lia.
  rewrite loop_outside by lia.
  replace (0 + Z.of_nat a) with (ownI hd) by lia.
  replace (Z.of_nat a) with (ownI hd) by lia.
  change (-1) with (Z.of_nat (length (@nil ResidueResult)) - 1).
  rewrite (loop_records al []) by (done || lia).
  rewrite Hl. cbn [from_option].
  rewrite loop_after_records, loop_outside by lia.
  replace (Z.of_nat b) with (strlen seqn - ownI tl - 1) by lia.
  cbn [strand_loop]. by rewrite app_nil_r.
Qed.

End StrandLoop.

Lemma strand_loop_length a imA S E c st :
  length (strand_loop a imA S E c st) = c.
Proof.
  revert st. induction c as [|c IH]; intros st; [done|].
  cbn [strand_loop]. destruct (strand_step a imA S E st) as [p st'].
  cbn [length]. by rewrite IH.
Qed.

(** What a strand reads of the aligner the constructor returned. *)
Lemma strand_inputs seq1 seq2 a imA :
  exact_grid (sequence seq1) (sequence seq2) ->
  new_Aligner seq1 seq2 = Some (Return a) ->
  exists hd tl,
    head (alignment a) = Some hd /\ last (alignment a) = Some tl /\
    (forall k r, alignment a !! k = Some r ->
       own imA hd <= own imA r <= own imA tl) /\
    own imA hd <= own imA tl /\
    0 <= own imA hd /\ own imA tl < strlen (mySequence a imA).
Proof.
  intros Hex Hnew.
  destruct (new_Aligner_returned _ _ _ Hnew) as (Han & E1 & E2).
  destruct (returned_alignment_shape _ _ _ _ Hex Han) as (Hne & _ & Hmono & Hb).
  destruct (alignment a) as [|hd l] eqn:Eal; [done|].
  destruct (last (hd :: l)) as [tl|] eqn:El; [|by apply last_None in El].
  exists hd, tl. split; [done|]. split; [done|].
  assert (Hlk : (hd :: l) !! pred (length (hd :: l)) = Some tl)
    by (by rewrite <- last_lookup).
  assert (Hrange : forall k r, (hd :: l) !! k = Some r ->
                     own imA hd <= own imA r <= own imA tl).
  { intros k r Hk. pose proof (lookup_lt_Some _ _ _ Hk) as Hlt.
    destruct (Hmono 0%nat k hd r) as [? ?]; [lia|done|done|].
    destruct (Hmono k (pred (length (hd :: l))) r tl) as [? ?]; [lia|done|done|].
    unfold own. destruct imA; lia. }
  split; [done|]. split; [by apply (Hrange 0%nat)|].
  destruct (Hb 0%nat hd eq_refl) as [? ?].
  destruct (Hb _ tl Hlk) as [? ?].
  unfold own, mySequence. rewrite E1, E2. destruct imA; lia.
Qed.

(** On a returned aligner the strand's constructor runs through. *)
Lemma strand_is_built seq1 seq2 a imA :
  exact_grid (sequence seq1) (sequence seq2) ->
  new_Aligner seq1 seq2 = Some (Return a) ->
  exists d, Strand_new a imA = StrandBuilt d.
Proof.
  intros Hex Hnew.
  destruct (strand_inputs _ _ _ imA Hex Hnew)
    as (hd & tl & Hh & Hl & _ & _ & Hhd & Htl).
  unfold Strand_new. rewrite Hh, Hl.
  destruct (Z.ltb_spec (own imA hd + Z.of_nat (length (alignment a))
                        + (strlen (mySequence a imA) - own imA tl)) 0);
    [lia|eauto].
Qed.

(** X11: On a grid of at most 2^24 cells a strand of a returned aligner is
    always built, and its particles are, in order: the residues before the
    alignment, dimmed; one particle per alignment record, coloured by the
    record; the residue at the last aligned index once more, highlighted;
    the residues after it, dimmed.  Every letter it reads lies inside the
    sequence. *)
Theorem strand_particles_layout (seq1 seq2 : Sequence) (a : Aligner)
    (imA : bool) :
  exact_grid (sequence seq1) (sequence seq2) ->
  new_Aligner seq1 seq2 = Some (Return a) ->
  exists hd tl d,
    head (alignment a) = Some hd /\ last (alignment a) = Some tl /\
    Strand_new a imA = StrandBuilt d /\
    particles d
    = (letter_particle (mySequence a imA) false <$> seqZ 0 (own imA hd))
      ++ (record_particle imA <$> alignment a)
      ++ [letter_particle (mySequence a imA) true (own imA tl)]
      ++ (letter_particle (mySequence a imA) false
            <$> seqZ (own imA tl + 1)
                     (strlen (mySequence a imA) - own imA tl - 1)) /\
    0 <= own imA hd /\ own imA tl < strlen (mySequence a imA) /\
    myParticlesCount d = Z.of_nat (length (particles d)).
Proof.
  intros Hex Hnew.
  destruct (strand_inputs _ _ _ imA Hex Hnew)
    as (hd & tl & Hh & Hl & Hrange & Hht & Hhd & Htl).
  pose proof (loop_layout a imA hd tl Hrange Hht Hh Hl Hhd Htl) as Hlay.
  unfold Strand_new. rewrite Hh, Hl.
  set (count := own imA hd + Z.of_nat (length (alignment a))
                + (strlen (mySequence a imA) - own imA tl)) in *.
  assert (Hcount : 0 <= count) by (unfold count; lia).
  destruct (Z.ltb_spec count 0) as [?|_]; [lia|].
  eexists hd, tl, _. split; [done|]. split; [done|]. split; [done|].
  cbn [particles myParticlesCount]. split; [exact Hlay|].
  split; [done|]. split; [done|]. rewrite strand_loop_length. lia.
Qed.

Lemma strand_particles_layout_witness :
  exact_grid "TTAAAACCCCG" "AAAAGGCCCC" /\
  exists a d,
    new_Aligner (seqOf "TTAAAACCCCG") (seqOf "AAAAGGCCCC") = Some (Return a) /\
    Strand_new a true = StrandBuilt d /\
    myParticlesCount d = Z.of_nat (length (particles d)).
Proof.
  assert (Hex : exact_grid "TTAAAACCCCG" "AAAAGGCCCC") by (vm_compute; discriminate).
  split; [exact Hex|].
  eassert (Hrun : new_Aligner (seqOf "TTAAAACCCCG") (seqOf "AAAAGGCCCC")
                  = Some (Return _)).
  { vm_compute. reflexivity. }
  destruct (strand_particles_layout (seqOf "TTAAAACCCCG") (seqOf "AAAAGGCCCC")
              _ true Hex Hrun)
    as (hd & tl & d & _ & _ & Hd & _ & _ & _ & Hc).
  eexists _, d. split; [exact Hrun|]. split; [exact Hd|exact Hc].
Defined.

Lemma reduce_gaps_count al : reduce_gaps al = count_res is_gap al.
Proof.
  unfold reduce_gaps.
  assert (Hgen : forall acc,
    fold_left
      (fun total permutation =>
         let gap := Result_eqb (res permutation) A_NOMATCH
                    || Result_eqb (res permutation) B_NOMATCH in
         total + (if gap then 1 else 0)) al acc
    = acc + count_res is_gap al).
  { induction al as [|r al IH]; intros acc.
    - unfold count_res. simpl. lia.
    - cbn [fold_left]. rewrite IH. unfold count_res. cbn [List.filter].
      destruct (res r); simpl; lia. }
  rewrite Hgen. lia.
Qed.

Lemma stalls_span f (l : list ResidueResult) hd tl :
  (forall k r r', l !! k = Some r -> l !! S k = Some r' ->
     f r' = f r \/ f r' = f r + 1) ->
  head l = Some hd -> last l = Some tl ->
  f tl - f hd = Z.of_nat (length l) - 1 - stalls f l.
Proof.
  revert hd. induction l as [|r l IH]; intros hd Hstep Hh Hl; [done|].
  injection Hh as ->. destruct l as [|r' l].
  - injection Hl as ->. simpl. lia.
  - rewrite last_cons_cons in Hl.
    specialize (IH r' (fun k => Hstep (S k)) eq_refl Hl).
    pose proof (Hstep 0%nat hd r' eq_refl eq_refl) as Hs.
    cbn [stalls length] in *.
    destruct (Z.eqb_spec (f hd) (f r')); lia.
Qed.

(** X12: The counts of a strand, on a grid of at most 2^24 cells.  Its
    [gaps] is the gap counter the traceback of the aligner ended with;
    [numParticles], by which the constructor divides, is at least 1; and
    [myParticlesCount] is the length of the strand's sequence, plus one,
    plus the number of alignment records that stay on the residue of the
    record before. *)
Theorem strand_counts (seq1 seq2 : Sequence) (a : Aligner) (imA : bool)
    (d : StrandData) :
  exact_grid (sequence seq1) (sequence seq2) ->
  new_Aligner seq1 seq2 = Some (Return a) ->
  Strand_new a imA = StrandBuilt d ->
  (exists st, traceback (sequence seq1) (sequence seq2) = Some st /\
              strand_gaps d = gaps st) /\
  numParticles d = maxSequenceLength a + strand_gaps d /\
  1 <= numParticles d /\
  myParticlesCount d
  = strlen (mySequence a imA) + 1 + stalls (own imA) (alignment a).
Proof.
  intros Hex Hnew Hd.
  destruct (strand_inputs _ _ _ imA Hex Hnew)
    as (hd & tl & Hh & Hl & Hrange & Hht & Hhd & Htl).
  destruct (new_Aligner_returned _ _ _ Hnew) as (Han & E1 & E2).
  destruct (returned_alignment_shape _ _ _ _ Hex Han) as (Hne & Hadv & _ & Hb).
  destruct (analize_returned _ _ _ _ Han) as (st & Ht & Eal & _).
  destruct (traceback_local _ _ st Ht) as [Hinv _].
  pose proof (tl_gaps _ _ _ _ Hinv) as Hg.
  unfold Strand_new in Hd. rewrite Hh, Hl in Hd.
  destruct (_ <? 0) in Hd; [done|]. injection Hd as <-.
  cbn [strand_gaps numParticles myParticlesCount].
  pose proof (count_res_range is_gap (alignment a)) as Hgr.
  rewrite reduce_gaps_count.
  split; [|split; [done|split]].
  - exists st. split; [done|]. by rewrite Hg, Eal, count_res_rev.
  - destruct (Hb 0%nat hd) as [? ?]; [by destruct (alignment a)|].
    rewrite E1. lia.
  - assert (Hstep : forall k r r', alignment a !! k = Some r ->
              alignment a !! S k = Some r' ->
              own imA r' = own imA r \/ own imA r' = own imA r + 1).
    { intros k r r' Hk Hk'. pose proof (Hadv k r r' Hk Hk') as Ha.
      unfold advances in Ha. unfold own. destruct imA; lia. }
    pose proof (stalls_span (own imA) _ hd tl Hstep Hh Hl). lia.
Qed.

Lemma strand_counts_witness :
  exact_grid "TTAAAACCCCG" "AAAAGGCCCC" /\
  exists a d,
    new_Aligner (seqOf "TTAAAACCCCG") (seqOf "AAAAGGCCCC") = Some (Return a) /\
    Strand_new a true = StrandBuilt d /\
    1 <= numParticles d /\
    myParticlesCount d
    = strlen (mySequence a true) + 1 + stalls (own true) (alignment a).
Proof.
  assert (Hex : exact_grid "TTAAAACCCCG" "AAAAGGCCCC") by (vm_compute; discriminate).
  split; [exact Hex|].
  eassert (Hrun : new_Aligner (seqOf "TTAAAACCCCG") (seqOf "AAAAGGCCCC")
                  = Some (Return _)).
  { vm_compute. reflexivity. }
  match type of Hrun with
  | _ = Some (Return ?a) =>
      eassert (Hd : Strand_new a true = StrandBuilt _)
        by (vm_compute; reflexivity)
  end.
  destruct (strand_counts (seqOf "TTAAAACCCCG") (seqOf "AAAAGGCCCC")
              _ true _ Hex Hrun Hd) as (_ & _ & H1 & H2).
  eexists _, _. split; [exact Hrun|]. split; [exact Hd|]. split; [exact H1|exact H2].
Defined.

(** X13: When the grid of the two parsed sequences has at most 2^24 cells,
    [new Alignment] ends in one of two ways only: the aligner throws its
    TypeError, when the two parsed sequences share no residue, or the
    aligner and both strands are built.  A strand never fails on an aligner
    that was returned. *)
Theorem alignment_built_or_aligner_threw (dataSequence1 dataSequence2 : string) :
  exact_grid (sequence (parseFasta dataSequence1))
             (sequence (parseFasta dataSequence2)) ->
  (exists a d1 d2,
     Alignment_new dataSequence1 dataSequence2 = Some (AlignmentBuilt a d1 d2) /\
     Aligner_new dataSequence1 dataSequence2 = Some (Return a) /\
     Strand_new a true = StrandBuilt d1 /\ Strand_new a false = StrandBuilt d2) \/
  (Alignment_new dataSequence1 dataSequence2
     = Some (AlignerThrew (TypeError "iA")) /\
   Aligner_new dataSequence1 dataSequence2 = Some (Throw (TypeError "iA"))).
Proof.
  unfold Alignment_new, Aligner_new.
  set (seq1 := parseFasta dataSequence1). set (seq2 := parseFasta dataSequence2).
  intros Hex.
  destruct (analize_total seq1 seq2 Hex) as [c Hc].
  destruct (new_Aligner seq1 seq2) as [[a|e]|] eqn:Hnew.
  - left.
    destruct (strand_is_built _ _ _ true Hex Hnew) as [d1 Hd1].
    destruct (strand_is_built _ _ _ false Hex Hnew) as [d2 Hd2].
    exists a, d1, d2. rewrite Hd1, Hd2. done.
  - right. unfold new_Aligner in Hnew. rewrite Hc in Hnew.
    destruct c as [[al s]|e']; [done|]. injection Hnew as ->.
    destruct (analize_thrown seq1 seq2 e Hc) as (st & Ht & Hnil).
    unfold analize in Hc. rewrite Ht in Hc. unfold make_stats in Hc.
    rewrite Hnil in Hc. injection Hc as <-. done.
  - unfold new_Aligner in Hnew. rewrite Hc in Hnew. by destruct c as [[? ?]|?].
Qed.

Lemma alignment_built_or_aligner_threw_witness :
  exact_grid (sequence (parseFasta ">a
ACGT")) (sequence (parseFasta ">b
TTGA")) /\
  ((exists a d1 d2,
     Alignment_new ">a
ACGT" ">b
TTGA" = Some (AlignmentBuilt a d1 d2) /\
     Aligner_new ">a
ACGT" ">b
TTGA" = Some (Return a) /\
     Strand_new a true = StrandBuilt d1 /\ Strand_new a false = StrandBuilt d2) \/
   (Alignment_new ">a
ACGT" ">b
TTGA" = Some (AlignerThrew (TypeError "iA")) /\
    Aligner_new ">a
ACGT" ">b
TTGA" = Some (Throw (TypeError "iA")))).
Proof.
  assert (Hex : exact_grid (sequence (parseFasta ">a
ACGT")) (sequence (parseFasta ">b
TTGA"))) by (vm_compute; discriminate).
  split; [exact Hex|].
  apply (alignment_built_or_aligner_threw _ _ Hex).
Defined.

(** * Evaluating single cells and single steps *)

Lemma repeated_succ c k : repeated c (Pos.succ k) = String c (repeated c k).
Proof. unfold repeated. apply Pos.iter_succ. Qed.

Lemma strlen_cons c s : strlen (String c s) = 1 + strlen s.
Proof. unfold strlen. cbn [String.length]. lia. Qed.

Lemma char_at_cons c s i :
  char_at (String c s) i = if i =? 0 then Some c else char_at s (i - 1).
Proof.
  unfold char_at.
  destruct (Z.ltb_spec i 0), (Z.eqb_spec i 0), (Z.ltb_spec (i - 1) 0);
    try lia; try done.
  - subst i. done.
  - replace (Z.to_nat i) with (S (Z.to_nat (i - 1))) by lia. done.
Qed.

(** The length of a run followed by a tail. *)
Lemma strlen_after_unknown k tail :
  strlen (after_unknown k tail) = Z.pos k + strlen tail.
Proof.
  unfold after_unknown. induction k as [|k IH] using Pos.peano_ind.
  - change (repeated "N" 1) with (String "N" EmptyString).
    rewrite append_cons, strlen_cons. done.
  - rewrite repeated_succ, append_cons, strlen_cons, IH. lia.
Qed.

(** Its characters: N inside the run, the tail after it. *)
Lemma char_at_after_unknown k tail i :
  char_at (after_unknown k tail) i =
  if i <? 0 then None
  else if i <? Z.pos k then Some "N"%char
  else char_at tail (i - Z.pos k).
Proof.
  unfold after_unknown. revert i. induction k as [|k IH] using Pos.peano_ind; intros i.
  - change (repeated "N" 1) with (String "N" EmptyString).
    rewrite append_cons, char_at_cons.
    change (EmptyString ++ tail)%string with tail.
    destruct (Z.ltb_spec i 0), (Z.eqb_spec i 0), (Z.ltb_spec i 1); try lia; try done.
    unfold char_at. destruct (Z.ltb_spec (i - 1) 0); [done|lia].
  - rewrite repeated_succ, append_cons, char_at_cons, IH.
    destruct (Z.ltb_spec i 0), (Z.eqb_spec i 0), (Z.ltb_spec (i - 1) 0),
      (Z.ltb_spec i (Z.pos (Pos.succ k))), (Z.ltb_spec (i - 1) (Z.pos k));
      try lia; try done.
    f_equal. lia.
Qed.

Section Evaluate.

Variables s1 s2 : string.
Hypothesis Hmin : Z.min (strlen s1) (strlen s2) <= 2 ^ 24.

Local Abbreviation P := (f_permutations (fill s1 s2)).
Local Abbreviation total := (permutationsTotal s1 s2).
Local Abbreviation Sc x y := (score_at P (cell_index s1 x y)).

(** The score of an interior cell, from those of its three neighbours. *)
Lemma eval_score x y d l t p v :
  1 <= x <= strlen s1 -> 1 <= y <= strlen s2 ->
  Sc (x - 1) (y - 1) = d -> Sc (x - 1) y = l -> Sc x (y - 1) = t ->
  permScore s1 s2 x y = p ->
  v = Z.max (Z.max (Z.max (d + p) (l - 1)) (t - 1)) 0 ->
  Sc x y = v.
Proof.
  intros Hx Hy Hd Hl Ht Hp ->.
  destruct (cell_index_coords s1 x y) as [Ex Ey]; [lia|].
  rewrite (short_score s1 s2 Hmin (cell_index s1 x y)).
  - rewrite Ex, Ey, grid_computed, Hd, Hl, Ht, Hp. done.
  - apply cell_index_range; lia.
  - lia.
  - lia.
Qed.

(** Its stored predecessor: the index the cascade picks, converted. *)
Lemma eval_next x y d l t p nx :
  1 <= x <= strlen s1 -> 1 <= y <= strlen s2 ->
  Sc (x - 1) (y - 1) = d -> Sc (x - 1) y = l -> Sc x (y - 1) = t ->
  permScore s1 s2 x y = p ->
  nx = fround
         (let score := Z.max (Z.max (Z.max (d + p) (l - 1)) (t - 1)) 0 in
          if d + p =? score then cell_index s1 (x - 1) (y - 1)
          else if score =? l - 1 then cell_index s1 (x - 1) y
          else if score =? t - 1 then cell_index s1 x (y - 1)
          else 0) ->
  next_at P (cell_index s1 x y) = nx.
Proof.
  intros Hx Hy Hd Hl Ht Hp ->.
  destruct (grid_stored s1 s2 x y Hx Hy) as [_ ->].
  unfold cellNext. rewrite grid_computed.
  destruct (candidates s1 s2 P x y) as (-> & -> & ->).
  destruct (neighbour_cells s1 x y) as (-> & -> & ->).
  rewrite Hd, Hl, Ht, Hp. done.
Qed.

(** Rows that share no residue with the first sequence hold zeros. *)
Lemma zero_rows Y x y :
  (forall a b, 1 <= a <= strlen s1 -> 1 <= b <= Y ->
     char_at s1 (a - 1) <> char_at s2 (b - 1)) ->
  Y <= strlen s2 -> 0 <= x <= strlen s1 -> 0 <= y <= Y ->
  Sc x y = 0.
Proof.
  intros Hne HY Hx Hy.
  remember (Z.to_nat (x + y)) as k eqn:Ek. revert x y Hx Hy Ek.
  induction k as [k IH] using lt_wf_ind. intros x y Hx Hy Ek.
  destruct (decide (x = 0 \/ y = 0)) as [Hb|Hi].
  - by destruct (grid_boundary s1 s2 x y Hx Hb) as [-> _].
  - apply (eval_score x y 0 0 0 (-1)); try lia.
    + apply (IH (Z.to_nat (x - 1 + (y - 1)))); lia.
    + apply (IH (Z.to_nat (x - 1 + y))); lia.
    + apply (IH (Z.to_nat (x + (y - 1)))); lia.
    + destruct (permScore_cases s1 s2 x y) as [[_ E]|[E _]]; [|done].
      exfalso. apply (Hne x y); (done || lia).
Qed.

(** A cell that alone holds the largest score is the maximal cell. *)
Lemma unique_max c v :
  0 <= c < total -> score_at P c = v -> 0 < v ->
  (forall x y, 0 <= x <= strlen s1 -> 0 <= y <= strlen s2 ->
     cell_index s1 x y <> c -> Sc x y < v) ->
  maxIndex (fill s1 s2) = c /\ maxScore (fill s1 s2) = v.
Proof.
  intros Hc Hv Hpos Hothers.
  pose proof (matrix_max_ub s1 s2 c) as Hub.
  pose proof (short_max_at s1 s2 Hmin) as Hat.
  pose proof (matrix_max_range s1 s2) as Hr.
  pose proof (W_pos s1) as HW.
  pose proof (coord_x_range (W s1) HW (maxIndex (fill s1 s2))) as Hxr.
  pose proof (coord_y_range (W s1) HW (maxIndex (fill s1 s2)) (H s2) Hr) as Hyr.
  assert (HWe : W s1 = strlen s1 + 1) by done.
  assert (HHe : H s2 = strlen s2 + 1) by done.
  destruct (decide (maxIndex (fill s1 s2) = c)) as [E|Hne].
  - split; [done|]. rewrite <- Hat, E. done.
  - exfalso.
    specialize (Hothers (maxIndex (fill s1 s2) mod W s1)
                        (maxIndex (fill s1 s2) / W s1)).
    rewrite index_cell_index in Hothers.
    specialize (Hothers ltac:(lia) ltac:(lia) Hne). lia.
Qed.

(** One run of the loop body, from a cell of positive score. *)
Lemma walk_step fuel st n sc nx st' :
  next st = Some n -> 0 < n < total ->
  score_at P n = sc -> 0 < sc -> next_at P n = nx ->
  st' = (let a := n mod W s1 - 1 in
         let b := n / W s1 - 1 in
         let r := classify s1 s2 (t_iA st) (t_iB st) a b in
         mkTrace (Some nx) (result st ++ [mkResidue a b r]) a b
                 (if is_gap r then gaps st + 1 else gaps st)
                 (if is_match r then matches st + 1 else matches st)) ->
  trace_loop s1 s2 (S fuel) P st = trace_loop s1 s2 fuel P st'.
Proof.
  intros Hn Hr Hsc Hpos Hnx ->.
  destruct (matrix_read s1 s2 n) as [R0 R1]; [lia|].
  cbn [trace_loop]. unfold trace_done. rewrite Hn, R0, Hsc.
  destruct (Z.eqb_spec n 0); [lia|]. destruct (Z.leb_spec sc 0); [lia|].
  cbn [orb]. rewrite (trace_step_eq s1 s2 P st n Hn), R1, Hnx. done.
Qed.

(** The [break], at the origin or at a cell of no positive score. *)
Lemma walk_stop fuel st n :
  next st = Some n -> 0 <= n < total ->
  n = 0 \/ score_at P n <= 0 ->
  trace_loop s1 s2 (S fuel) P st = Some st.
Proof.
  intros Hn Hr Hstop.
  destruct (matrix_read s1 s2 n Hr) as [R0 _].
  cbn [trace_loop]. unfold trace_done. rewrite Hn, R0.
  destruct Hstop as [->|Hle]; [done|].
  destruct (Z.leb_spec (score_at P n) 0); [|lia]. by rewrite orb_true_r.
Qed.

End Evaluate.

(** * Grids of more than 2^24 cells: a skipped residue *)

Section SkippedResidue.

Variable s2 : string.
Hypothesis Hlen : strlen s2 = 3355444.
Hypothesis Hchar : forall j,
  char_at s2 j = if j <? 0 then None
                 else if j <? 3355442 then Some "N"%char
                 else char_at "AG" (j - 3355442).

Local Abbreviation s1 := skip_A.
Local Abbreviation P := (f_permutations (fill s1 s2)).
Local Abbreviation Sc x y := (score_at P (cell_index s1 x y)).

Lemma skip_short : Z.min (strlen s1) (strlen s2) <= 2 ^ 24.
Proof. rewrite Hlen. vm_compute. discriminate. Qed.

Lemma skip_total : permutationsTotal s1 s2 = 16777225.
Proof. unfold permutationsTotal, H. rewrite Hlen. reflexivity. Qed.

Lemma skip_column y : Sc 0 y = 0.
Proof. apply grid_boundary; [by vm_compute|by left]. Qed.

Lemma skip_run x y : 0 <= x <= 4 -> 0 <= y <= 3355442 -> Sc x y = 0.
Proof.
  intros Hx Hy. apply (zero_rows s1 s2 skip_short 3355442); try lia.
  - intros a b Ha Hb. rewrite Hchar.
    destruct (Z.ltb_spec (b - 1) 0); [lia|].
    destruct (Z.ltb_spec (b - 1) 3355442); [|lia].
    change (strlen s1) with 4 in Ha.
    assert (a = 1 \/ a = 2 \/ a = 3 \/ a = 4) as [->|[->|[->| ->]]] by lia;
      vm_compute; discriminate.
  - change (strlen s1) with 4. lia.
Qed.

Local Ltac col := apply skip_column.
Local Ltac run := apply skip_run; lia.

(** The score of a cell from the scores of its diagonal, left and top
    neighbours, each given with the tactic that proves it. *)
Local Ltac cell d l t p td tl tt :=
  match goal with
  | |- score_at _ (cell_index _ ?x ?y) = _ =>
      apply (eval_score s1 s2 skip_short x y d l t p);
      [ change (strlen s1) with 4; lia
      | rewrite Hlen; lia
      | td | tl | tt
      | unfold permScore; rewrite Hchar; vm_compute; reflexivity
      | reflexivity ]
  end.

(** The two rows of the tail. *)
Lemma skip_cells :
  Sc 1 3355443 = 1 /\ Sc 2 3355443 = 1 /\ Sc 3 3355443 = 0 /\ Sc 4 3355443 = 0 /\
  Sc 1 3355444 = 0 /\ Sc 2 3355444 = 0 /\ Sc 3 3355444 = 2 /\ Sc 4 3355444 = 1.
Proof.
  assert (c11 : Sc 1 3355443 = 1) by cell 0 0 0 1 col col run.
  assert (c21 : Sc 2 3355443 = 1) by cell 0 1 0 1 run ltac:(exact c11) run.
  assert (c31 : Sc 3 3355443 = 0) by cell 0 1 0 (-1) run ltac:(exact c21) run.
  assert (c41 : Sc 4 3355443 = 0) by cell 0 0 0 (-1) run ltac:(exact c31) run.
  assert (c12 : Sc 1 3355444 = 0) by cell 0 0 1 (-1) col col ltac:(exact c11).
  assert (c22 : Sc 2 3355444 = 0)
    by cell 1 0 1 (-1) ltac:(exact c11) ltac:(exact c12) ltac:(exact c21).
  assert (c32 : Sc 3 3355444 = 2)
    by cell 1 0 0 1 ltac:(exact c21) ltac:(exact c22) ltac:(exact c31).
  assert (c42 : Sc 4 3355444 = 1)
    by cell 0 2 0 (-1) ltac:(exact c31) ltac:(exact c32) ltac:(exact c41).
  exact (conj c11 (conj c21 (conj c31 (conj c41
           (conj c12 (conj c22 (conj c32 c42))))))).
Qed.

(** The cell (3, 3355444) scores its diagonal candidate, and the index of
    its diagonal neighbour, 16777217, is stored as 16777216. *)
Lemma skip_next_max :
  next_at P (cell_index s1 3 3355444) = 16777216.
Proof.
  destruct skip_cells as (c11 & c21 & c31 & c41 & c12 & c22 & c32 & c42).
  apply (eval_next s1 s2 3 3355444 1 0 0 1);
    [ change (strlen s1) with 4; lia | rewrite Hlen; lia
    | exact c21 | exact c22 | exact c31
    | unfold permScore; rewrite Hchar; vm_compute; reflexivity
    | vm_compute; reflexivity ].
Qed.

Lemma skip_next_second :
  next_at P (cell_index s1 1 3355443) = 16777210.
Proof.
  apply (eval_next s1 s2 1 3355443 0 0 0 1);
    [ change (strlen s1) with 4; lia | rewrite Hlen; lia
    | apply skip_column | apply skip_column | apply skip_run; lia
    | unfold permScore; rewrite Hchar; vm_compute; reflexivity
    | vm_compute; reflexivity ].
Qed.

Lemma skip_max :
  maxIndex (fill s1 s2) = 16777223 /\ maxScore (fill s1 s2) = 2.
Proof.
  destruct skip_cells as (c11 & c21 & c31 & c41 & c12 & c22 & c32 & c42).
  apply (unique_max s1 s2 skip_short); [rewrite skip_total; lia|exact c32|lia|].
  intros x y Hx Hy Hne. change (strlen s1) with 4 in Hx. rewrite Hlen in Hy.
  destruct (decide (y <= 3355442)) as [Hlow|Hhigh]; [rewrite skip_run; lia|].
  assert (y = 3355443 \/ y = 3355444) as Hy' by lia.
  assert (x = 0 \/ x = 1 \/ x = 2 \/ x = 3 \/ x = 4) as Hx' by lia.
  destruct Hy' as [-> | ->], Hx' as [-> | [-> | [-> | [-> | ->]]]];
    rewrite ?skip_column, ?c11, ?c21, ?c31, ?c41, ?c12, ?c22, ?c32, ?c42;
    try lia.
  exfalso. apply Hne. reflexivity.
Qed.

(** The walk: two records, then the [break] on column 0. *)
Lemma skip_traceback :
  traceback s1 s2 =
  Some (mkTrace (Some 16777210)
          [mkResidue 2 3355443 GOOD_MATCH; mkResidue 0 3355442 GOOD_MATCH]
          0 3355442 0 2).
Proof.
  destruct skip_cells as (c11 & c21 & c31 & c41 & c12 & c22 & c32 & c42).
  destruct skip_max as [Hmi _].
  unfold traceback.
  apply (trace_loop_more s1 s2 3); [|rewrite skip_total; lia].
  unfold trace_init. rewrite Hmi.
  rewrite (walk_step s1 s2 2 _ 16777223 2 16777216
             (mkTrace (Some 16777216) [mkResidue 2 3355443 GOOD_MATCH]
                      2 3355443 0 1));
    [ | reflexivity | rewrite skip_total; lia | exact c32 | lia
      | exact skip_next_max
      | cbv zeta; unfold classify; rewrite Hchar; vm_compute; reflexivity ].
  rewrite (walk_step s1 s2 1 _ 16777216 1 16777210
             (mkTrace (Some 16777210)
                [mkResidue 2 3355443 GOOD_MATCH; mkResidue 0 3355442 GOOD_MATCH]
                0 3355442 0 2));
    [ | reflexivity | rewrite skip_total; lia | exact c11 | lia
      | exact skip_next_second
      | cbv zeta; unfold classify; rewrite Hchar; vm_compute; reflexivity ].
  apply (walk_stop s1 s2 0 _ 16777210); [reflexivity|rewrite skip_total; lia|].
  right. change 16777210 with (cell_index s1 0 3355442).
  rewrite (skip_column 3355442). lia.
Qed.

Lemma skip_analize :
  exists s,
    analize (seqOf s1) (seqOf s2)
    = Some (Return ([mkResidue 0 3355442 GOOD_MATCH;
                     mkResidue 2 3355443 GOOD_MATCH], s)).
Proof.
  unfold analize. cbn [sequence seqOf]. rewrite skip_traceback.
  eexists. reflexivity.
Qed.

End SkippedResidue.

Lemma skip_B_length : strlen skip_B = 3355444.
Proof. unfold skip_B. rewrite strlen_after_unknown. reflexivity. Qed.

Lemma skip_B_chars j :
  char_at skip_B j = if j <? 0 then None
                     else if j <? 3355442 then Some "N"%char
                     else char_at "AG" (j - 3355442).
Proof. unfold skip_B. apply char_at_after_unknown. Qed.

(** * Grids of more than 2^24 cells: a walk that stops on a mismatch *)

Section StoppedWalk.

Variable s2 : string.
Hypothesis Hlen : strlen s2 = 3355446.
Hypothesis Hchar : forall j,
  char_at s2 j = if j <? 0 then None
                 else if j <? 3355441 then Some "N"%char
                 else char_at "ACNGT" (j - 3355441).

Local Abbreviation s1 := stop_A.
Local Abbreviation P := (f_permutations (fill s1 s2)).
Local Abbreviation Sc x y := (score_at P (cell_index s1 x y)).

Lemma stop_short : Z.min (strlen s1) (strlen s2) <= 2 ^ 24.
Proof. rewrite Hlen. vm_compute. discriminate. Qed.

Lemma stop_total : permutationsTotal s1 s2 = 16777235.
Proof. unfold permutationsTotal, H. rewrite Hlen. reflexivity. Qed.

Lemma stop_column y : Sc 0 y = 0.
Proof. apply grid_boundary; [by vm_compute|by left]. Qed.

Lemma stop_run x y : 0 <= x <= 4 -> 0 <= y <= 3355441 -> Sc x y = 0.
Proof.
  intros Hx Hy. apply (zero_rows s1 s2 stop_short 3355441); try lia.
  - intros a b Ha Hb. rewrite Hchar.
    destruct (Z.ltb_spec (b - 1) 0); [lia|].
    destruct (Z.ltb_spec (b - 1) 3355441); [|lia].
    change (strlen s1) with 4 in Ha.
    assert (a = 1 \/ a = 2 \/ a = 3 \/ a = 4) as [->|[->|[->| ->]]] by lia;
      vm_compute; discriminate.
  - change (strlen s1) with 4. lia.
Qed.

Local Ltac col := apply stop_column.
Local Ltac run := apply stop_run; lia.

(** The score of a cell from the scores of its diagonal, left and top
    neighbours, each given with the tactic that proves it. *)
Local Ltac cell d l t p td tl tt :=
  match goal with
  | |- score_at _ (cell_index _ ?x ?y) = _ =>
      apply (eval_score s1 s2 stop_short x y d l t p);
      [ change (strlen s1) with 4; lia
      | rewrite Hlen; lia
      | td | tl | tt
      | unfold permScore; rewrite Hchar; vm_compute; reflexivity
      | reflexivity ]
  end.

(** The five rows of the tail, A C N G T, against ACGT. *)
Lemma stop_cells :
  (Sc 1 3355442 = 1 /\ Sc 2 3355442 = 0 /\ Sc 3 3355442 = 0 /\ Sc 4 3355442 = 0) /\
  (Sc 1 3355443 = 0 /\ Sc 2 3355443 = 2 /\ Sc 3 3355443 = 1 /\ Sc 4 3355443 = 0) /\
  (Sc 1 3355444 = 0 /\ Sc 2 3355444 = 1 /\ Sc 3 3355444 = 1 /\ Sc 4 3355444 = 0) /\
  (Sc 1 3355445 = 0 /\ Sc 2 3355445 = 0 /\ Sc 3 3355445 = 2 /\ Sc 4 3355445 = 1) /\
  (Sc 1 3355446 = 0 /\ Sc 2 3355446 = 0 /\ Sc 3 3355446 = 1 /\ Sc 4 3355446 = 3).
Proof.
  assert (c11 : Sc 1 3355442 = 1) by cell 0 0 0 1 col col run.
  assert (c21 : Sc 2 3355442 = 0) by cell 0 1 0 (-1) run ltac:(exact c11) run.
  assert (c31 : Sc 3 3355442 = 0) by cell 0 0 0 (-1) run ltac:(exact c21) run.
  assert (c41 : Sc 4 3355442 = 0) by cell 0 0 0 (-1) run ltac:(exact c31) run.
  assert (c12 : Sc 1 3355443 = 0) by cell 0 0 1 (-1) col col ltac:(exact c11).
  assert (c22 : Sc 2 3355443 = 2)
    by cell 1 0 0 1 ltac:(exact c11) ltac:(exact c12) ltac:(exact c21).
  assert (c32 : Sc 3 3355443 = 1)
    by cell 0 2 0 (-1) ltac:(exact c21) ltac:(exact c22) ltac:(exact c31).
  assert (c42 : Sc 4 3355443 = 0)
    by cell 0 1 0 (-1) ltac:(exact c31) ltac:(exact c32) ltac:(exact c41).
  assert (c13 : Sc 1 3355444 = 0) by cell 0 0 0 (-1) col col ltac:(exact c12).
  assert (c23 : Sc 2 3355444 = 1)
    by cell 0 0 2 (-1) ltac:(exact c12) ltac:(exact c13) ltac:(exact c22).
  assert (c33 : Sc 3 3355444 = 1)
    by cell 2 1 1 (-1) ltac:(exact c22) ltac:(exact c23) ltac:(exact c32).
  assert (c43 : Sc 4 3355444 = 0)
    by cell 1 1 0 (-1) ltac:(exact c32) ltac:(exact c33) ltac:(exact c42).
  assert (c14 : Sc 1 3355445 = 0) by cell 0 0 0 (-1) col col ltac:(exact c13).
  assert (c24 : Sc 2 3355445 = 0)
    by cell 0 0 1 (-1) ltac:(exact c13) ltac:(exact c14) ltac:(exact c23).
  assert (c34 : Sc 3 3355445 = 2)
    by cell 1 0 1 1 ltac:(exact c23) ltac:(exact c24) ltac:(exact c33).
  assert (c44 : Sc 4 3355445 = 1)
    by cell 1 2 0 (-1) ltac:(exact c33) ltac:(exact c34) ltac:(exact c43).
  assert (c15 : Sc 1 3355446 = 0) by cell 0 0 0 (-1) col col ltac:(exact c14).
  assert (c25 : Sc 2 3355446 = 0)
    by cell 0 0 0 (-1) ltac:(exact c14) ltac:(exact c15) ltac:(exact c24).
  assert (c35 : Sc 3 3355446 = 1)
    by cell 0 0 2 (-1) ltac:(exact c24) ltac:(exact c25) ltac:(exact c34).
  assert (c45 : Sc 4 3355446 = 3)
    by cell 2 1 1 1 ltac:(exact c34) ltac:(exact c35) ltac:(exact c44).
  exact (conj (conj c11 (conj c21 (conj c31 c41)))
        (conj (conj c12 (conj c22 (conj c32 c42)))
        (conj (conj c13 (conj c23 (conj c33 c43)))
        (conj (conj c14 (conj c24 (conj c34 c44)))
              (conj c15 (conj c25 (conj c35 c45))))))).
Qed.

Local Ltac stored_next d l t p td tl tt :=
  match goal with
  | |- next_at _ (cell_index _ ?x ?y) = _ =>
      apply (eval_next s1 s2 x y d l t p);
      [ change (strlen s1) with 4; lia | rewrite Hlen; lia
      | td | tl | tt
      | unfold permScore; rewrite Hchar; vm_compute; reflexivity
      | vm_compute; reflexivity ]
  end.

(** The predecessors along the walk.  The last one is the top neighbour
    of the cell (2, 3355444); its index, 16777217, is stored as
    16777216. *)
Lemma stop_nexts :
  next_at P (cell_index s1 4 3355446) = 16777228 /\
  next_at P (cell_index s1 3 3355445) = 16777222 /\
  next_at P (cell_index s1 2 3355444) = 16777216.
Proof.
  destruct stop_cells as
    ((c11 & c21 & c31 & c41) & (c12 & c22 & c32 & c42) & (c13 & c23 & c33 & c43) &
     (c14 & c24 & c34 & c44) & (c15 & c25 & c35 & c45)).
  split; [stored_next 2 1 1 1 ltac:(exact c34) ltac:(exact c35) ltac:(exact c44)|].
  split; [stored_next 1 0 1 1 ltac:(exact c23) ltac:(exact c24) ltac:(exact c33)|].
  stored_next 0 0 2 (-1) ltac:(exact c12) ltac:(exact c13) ltac:(exact c22).
Qed.

Lemma stop_max :
  maxIndex (fill s1 s2) = 16777234 /\ maxScore (fill s1 s2) = 3.
Proof.
  destruct stop_cells as
    ((c11 & c21 & c31 & c41) & (c12 & c22 & c32 & c42) & (c13 & c23 & c33 & c43) &
     (c14 & c24 & c34 & c44) & (c15 & c25 & c35 & c45)).
  apply (unique_max s1 s2 stop_short); [rewrite stop_total; lia|exact c45|lia|].
  intros x y Hx Hy Hne. change (strlen s1) with 4 in Hx. rewrite Hlen in Hy.
  destruct (decide (y <= 3355441)) as [Hlow|Hhigh]; [rewrite stop_run; lia|].
  assert (y = 3355442 \/ y = 3355443 \/ y = 3355444 \/ y = 3355445 \/ y = 3355446)
    as Hy' by lia.
  assert (x = 0 \/ x = 1 \/ x = 2 \/ x = 3 \/ x = 4) as Hx' by lia.
  destruct Hy' as [-> | [-> | [-> | [-> | ->]]]],
           Hx' as [-> | [-> | [-> | [-> | ->]]]];
    rewrite ?stop_column, ?c11, ?c21, ?c31, ?c41, ?c12, ?c22, ?c32, ?c42,
            ?c13, ?c23, ?c33, ?c43, ?c14, ?c24, ?c34, ?c44, ?c15, ?c25, ?c35, ?c45;
    try lia.
  exfalso. apply Hne. reflexivity.
Qed.

(** The walk: three records, the last a mismatch, then the [break] on the
    cell (1, 3355443), whose score is 0. *)
Lemma stop_traceback :
  traceback s1 s2 =
  Some (mkTrace (Some 16777216)
          [mkResidue 3 3355445 GOOD_MATCH; mkResidue 2 3355444 GOOD_MATCH;
           mkResidue 1 3355443 NO_MATCH]
          1 3355443 0 2).
Proof.
  destruct stop_cells as
    ((c11 & c21 & c31 & c41) & (c12 & c22 & c32 & c42) & (c13 & c23 & c33 & c43) &
     (c14 & c24 & c34 & c44) & (c15 & c25 & c35 & c45)).
  destruct stop_nexts as (n1 & n2 & n3).
  destruct stop_max as [Hmi _].
  unfold traceback.
  apply (trace_loop_more s1 s2 4); [|rewrite stop_total; lia].
  unfold trace_init. rewrite Hmi.
  rewrite (walk_step s1 s2 3 _ 16777234 3 16777228
             (mkTrace (Some 16777228) [mkResidue 3 3355445 GOOD_MATCH]
                      3 3355445 0 1));
    [ | reflexivity | rewrite stop_total; lia | exact c45 | lia | exact n1
      | cbv zeta; unfold classify; rewrite Hchar; vm_compute; reflexivity ].
  rewrite (walk_step s1 s2 2 _ 16777228 2 16777222
             (mkTrace (Some 16777222)
                [mkResidue 3 3355445 GOOD_MATCH; mkResidue 2 3355444 GOOD_MATCH]
                2 3355444 0 2));
    [ | reflexivity | rewrite stop_total; lia | exact c34 | lia | exact n2
      | cbv zeta; unfold classify; rewrite Hchar; vm_compute; reflexivity ].
  rewrite (walk_step s1 s2 1 _ 16777222 1 16777216
             (mkTrace (Some 16777216)
                [mkResidue 3 3355445 GOOD_MATCH; mkResidue 2 3355444 GOOD_MATCH;
                 mkResidue 1 3355443 NO_MATCH]
                1 3355443 0 2));
    [ | reflexivity | rewrite stop_total; lia | exact c23 | lia | exact n3
      | cbv zeta; unfold classify; rewrite Hchar; vm_compute; reflexivity ].
  apply (walk_stop s1 s2 0 _ 16777216); [reflexivity|rewrite stop_total; lia|].
  right. change 16777216 with (cell_index s1 1 3355443). rewrite c12. lia.
Qed.

Lemma stop_analize :
  exists s,
    analize (seqOf s1) (seqOf s2)
    = Some (Return ([mkResidue 1 3355443 NO_MATCH;
                     mkResidue 2 3355444 GOOD_MATCH;
                     mkResidue 3 3355445 GOOD_MATCH], s)).
Proof.
  unfold analize. cbn [sequence seqOf]. rewrite stop_traceback.
  eexists. reflexivity.
Qed.

End StoppedWalk.

Lemma stop_B_length : strlen stop_B = 3355446.
Proof. unfold stop_B. rewrite strlen_after_unknown. reflexivity. Qed.

Lemma stop_B_chars j :
  char_at stop_B j = if j <? 0 then None
                     else if j <? 3355441 then Some "N"%char
                     else char_at "ACNGT" (j - 3355441).
Proof. unfold stop_B. apply char_at_after_unknown. Qed.

(** * What the program does on these two pairs *)

(** C4, at a failing input: for A = AAGC and B = 3355442 unknown bases N
    followed by AG, the interior cell (3, 3355444) pairs equal residues and
    its score, 2, is its diagonal candidate, so its predecessor is the
    diagonal cell, of index 16777217; but the buffer holds 16777216, the
    index of the cell left of the diagonal one. *)
Theorem large_grid_predecessor_is_rounded :
  let P := f_permutations (fill skip_A skip_B) in
  let diagonal :=
    score_at P (cell_index skip_A (3 - 1) (3355444 - 1)) +
    (if bool_decide (char_at skip_A (3 - 1) = char_at skip_B (3355444 - 1))
     then 1 else -1) in
  score_at P (cell_index skip_A 3 3355444) = 2 /\
  diagonal = 2 /\
  cell_index skip_A (3 - 1) (3355444 - 1) = 16777217 /\
  next_at P (cell_index skip_A 3 3355444) = 16777216.
Proof.
  intros P diagonal.
  destruct (skip_cells skip_B skip_B_length skip_B_chars)
    as (c11 & c21 & c31 & c41 & c12 & c22 & c32 & c42).
  split; [exact c32|]. split.
  - unfold diagonal, P. rewrite skip_B_chars.
    change (cell_index skip_A (3 - 1) (3355444 - 1))
      with (cell_index skip_A 2 3355443).
    rewrite c21. reflexivity.
  - split; [reflexivity|].
    exact (skip_next_max skip_B skip_B_length skip_B_chars).
Qed.

(** C10, at a failing input: for A = AAGC and B = 3355442 unknown bases N
    followed by AG, [analize] returns an alignment of two records whose
    sequence-1 index goes from 0 to 2: residue 1 of A is skipped. *)
Theorem large_grid_alignment_skips_residue :
  exists s,
    analize (seqOf skip_A) (seqOf skip_B)
    = Some (Return ([mkResidue 0 3355442 GOOD_MATCH;
                     mkResidue 2 3355443 GOOD_MATCH], s)).
Proof. exact (skip_analize skip_B skip_B_length skip_B_chars). Qed.

(** C9, at a failing input: for A = ACGT and B = 3355441 unknown bases N
    followed by ACNGT, [analize] returns an alignment of three records
    whose first record is NO_MATCH and pairs the unequal residues C and
    N. *)
Theorem large_grid_alignment_starts_on_mismatch :
  (exists s,
     analize (seqOf stop_A) (seqOf stop_B)
     = Some (Return ([mkResidue 1 3355443 NO_MATCH;
                      mkResidue 2 3355444 GOOD_MATCH;
                      mkResidue 3 3355445 GOOD_MATCH], s))) /\
  char_at stop_A 1 = Some "C"%char /\
  char_at stop_B 3355443 = Some "N"%char.
Proof.
  split; [exact (stop_analize stop_B stop_B_length stop_B_chars)|].
  split; [reflexivity|]. rewrite stop_B_chars. reflexivity.
Qed.
